(** * Amortization engine of the Fast Loan API ([src/main.py])

    A shallow embedding of [calculate_loan] over IEEE-754 binary64 numbers
    (Rocq's primitive floats, which are Python's [float]) and unbounded
    integers ([Z], Python's [int]).  Python operations that can raise are
    modelled in an error monad whose errors are the Python exceptions.
    The status endpoints are embedded as functions to [dict]s, with the
    process environment as an argument. *)

From Stdlib Require Import ZArith List Bool Lia String.
From Stdlib Require Import Floats.
Import ListNotations.

Local Open Scope Z_scope.

(* Decimal literals such as 0.005 denote the nearest double, as in Python. *)
Set Warnings "-inexact-float".

(** ** Exceptions and the error monad *)

Inductive exn : Type :=
| HTTPException (status_code : Z) (detail : string)
| ZeroDivisionError
| OverflowError.

Inductive outcome (A : Type) : Type :=
| Ok (a : A)
| Raise (e : exn).

Arguments Ok {A} a.
Arguments Raise {A} e.

Definition bind {A B : Type} (m : outcome A) (k : A -> outcome B) : outcome B :=
  match m with
  | Ok a => k a
  | Raise e => Raise e
  end.

Notation "x <- m ;; k" := (bind m (fun x => k))
  (at level 61, m at next level, right associativity).

(** The two client errors of the endpoint, as the source raises them. *)
Definition InvalidInput : exn :=
  HTTPException 400 "Invalid inputs".

Definition NonAmortizingPayment : exn :=
  HTTPException 400
    "Payment too low to cover interest. Increase term or rate settings.".

(** ** Python's float operations *)

Module Py.

(** [float(n)] for an [int]: correctly rounded (half to even); an [int]
    that rounds beyond the largest double raises [OverflowError]. *)
Definition float_of_int (n : Z) : outcome float :=
  match binary_normalize prec emax n 0 false with
  | S754_infinity _ => Raise OverflowError
  | sf => Ok (SF2Prim sf)
  end.

(** [x / y] on floats: a zero divisor raises. *)
Definition truediv (x y : float) : outcome float :=
  if (y =? 0)%float then Raise ZeroDivisionError else Ok (x / y)%float.

(** [max(a, b)]: the first argument unless the second is greater. *)
Definition max (a b : float) : float :=
  if (a <? b)%float then b else a.

(** The integer nearest to [num / den] ([den > 0]), ties to even. *)
Definition round_half_even (num den : Z) : Z :=
  let q := num / den in
  let r := num mod den in
  match 2 * r ?= den with
  | Lt => q
  | Gt => q + 1
  | Eq => if Z.even q then q else q + 1
  end.

(** The double nearest to [q / 10^ndigits], for [q > 0]. *)
Definition nearest_decimal (s : bool) (q : positive) (ndigits : Z) : float :=
  SF2Prim (SFdiv prec emax (S754_finite s q 0)
                           (S754_finite false (Z.to_pos (10 ^ ndigits)) 0)).

(** [round(x, ndigits)] for [ndigits >= 0]: the exact value of [x] is
    rounded to [ndigits] decimals, ties to even, and the decimal is
    converted back to the nearest double; zeros, infinities and NaN
    round to themselves. *)
Definition round (x : float) (ndigits : Z) : float :=
  match Prim2SF x with
  | S754_finite s m e =>
      let num := Zpos m * 10 ^ ndigits * 2 ^ Z.max e 0 in
      let den := 2 ^ Z.max (- e) 0 in
      match round_half_even num den with
      | Zpos q => nearest_decimal s q ndigits
      | _ => if s then (-0)%float else 0%float
      end
  | _ => x
  end.

(** [DOUBLE_IS_ODD_INTEGER] of CPython's [float_pow]. *)
Definition is_odd_integer (x : float) : bool :=
  match Prim2SF x with
  | S754_finite _ m e =>
      if e =? 0 then Z.odd (Zpos m)
      else if 0 <? e then false
      else (Zpos m mod 2 ^ (- e) =? 0) && Z.odd (Zpos m / 2 ^ (- e))
  | _ => false
  end.

Section Pow.

(** The C library's [pow] on doubles, which CPython calls once the
    special cases are out of the way. *)
Variable libm_pow : float -> float -> float.

(** [iv ** n] for a float base and an [int] exponent [n > 0], after
    CPython's [float_pow]: the exponent is converted to a double, NaN
    and infinite bases and the bases 0 and 1 are answered without
    [pow], and an infinite result of [pow] raises [OverflowError]. *)
Definition float_pow (iv : float) (n : Z) : outcome float :=
  iw <- float_of_int n ;;
  if (iw =? 0)%float then Ok 1%float
  else if is_nan iv then Ok iv
  else if is_infinity iv then
    Ok (if is_odd_integer iw then iv else abs iv)
  else if (iv =? 0)%float then
    Ok (if is_odd_integer iw then iv else 0%float)
  else
    let negate := (iv <? 0)%float && is_odd_integer iw in
    let iv := if (iv <? 0)%float then (- iv)%float else iv in
    if (iv =? 1)%float then Ok (if negate then (-1)%float else 1%float)
    else
      let ix := libm_pow iv iw in
      if is_infinity ix then Raise OverflowError
      else Ok (if negate then (- ix)%float else ix).

End Pow.

End Py.

(** ** Data model *)

Module LoanInput.
Record t : Type := Build {
  principal : float;
  annual_rate : float;
  term_months : Z;
  extra_payment : float
}.

(** The constraints the request model puts on the four fields
    ([gt=0], [ge=0], [gt=0], [ge=0]). *)
Definition valid (payload : t) : Prop :=
  (0 <? principal payload)%float = true
  /\ (0 <=? annual_rate payload)%float = true
  /\ 0 < term_months payload
  /\ (0 <=? extra_payment payload)%float = true.
End LoanInput.

Module ScheduleItem.
Record t : Type := Build {
  month : Z;
  payment : float;
  interest : float;
  principal : float;
  balance : float
}.
End ScheduleItem.

Module LoanResult.
Record t : Type := Build {
  monthly_payment : float;
  total_payment : float;
  total_interest : float;
  payoff_months : Z;
  apr : float;
  schedule : list ScheduleItem.t
}.
End LoanResult.

(** ** The amortization engine *)

Module Engine.

Import ScheduleItem LoanResult.

(** The local variables the [while] loop of [calculate_loan] updates. *)
Record loop_state : Type := LoopState {
  st_balance : float;
  st_schedule : list ScheduleItem.t;
  st_total_interest : float;
  st_month : Z
}.

(** How the loop was left: its condition failed on the balance, or on
    the month, or the body ran into the [month > 3600] break. *)
Inductive loop_exit : Type :=
| BalanceDepleted
| SafetyCapReached
| HardStop.

(** One month of arithmetic, before anything is recorded. *)
Record month_figures : Type := MonthFigures {
  mf_interest : float;
  mf_principal : float;
  mf_payment_actual : float;
  mf_balance : float
}.

Section Loop.

(** Monthly rate, scheduled payment and [safety_cap], fixed before the
    loop starts. *)
Variables (r payment : float) (safety_cap : Z).

Definition interest_component (balance : float) : float :=
  (balance * r)%float.

Definition principal_component (balance : float) : float :=
  (payment - interest_component balance)%float.

(** The guard of lines 83-84. *)
Definition guard_fires (balance : float) : bool :=
  (principal_component balance <=? 0)%float && (0 <? r)%float.

(** Lines 86-92: the clamp and the new balance. *)
Definition figures (balance : float) : month_figures :=
  let interest_component := interest_component balance in
  let principal_component := principal_component balance in
  if (balance <? principal_component)%float then
    MonthFigures interest_component balance
                 (interest_component + balance)%float
                 (balance - balance)%float
  else
    MonthFigures interest_component principal_component payment
                 (balance - principal_component)%float.

(** Lines 95-103: the entry appended for a month. *)
Definition entry (month : Z) (f : month_figures) : ScheduleItem.t :=
  ScheduleItem.Build month
    (Py.round (mf_payment_actual f) 2)
    (Py.round (mf_interest f) 2)
    (Py.round (mf_principal f) 2)
    (Py.round (Py.max (mf_balance f) 0) 2).

(** The loop condition of line 77. *)
Definition balance_open (st : loop_state) : bool :=
  (0.005 <? st_balance st)%float.

Definition below_cap (st : loop_state) : bool :=
  st_month st <? safety_cap.

(** Lines 78-103: one pass through the body, up to the append. *)
Definition body (st : loop_state) : outcome loop_state :=
  let month := st_month st + 1 in
  if guard_fires (st_balance st) then Raise NonAmortizingPayment
  else
    let f := figures (st_balance st) in
    Ok (LoopState (mf_balance f)
                  (st_schedule st ++ [entry month f])
                  (st_total_interest st + mf_interest f)%float
                  month).

(** The [while] loop, lines 77-106.  [fuel] bounds the number of
    passes; [None] means the fuel ran out with the loop still going. *)
Fixpoint while_loop (fuel : nat) (st : loop_state)
  : option (outcome (loop_state * loop_exit)) :=
  if negb (balance_open st) then Some (Ok (st, BalanceDepleted))
  else if negb (below_cap st) then Some (Ok (st, SafetyCapReached))
  else
    match fuel with
    | O => None
    | S fuel' =>
        match body st with
        | Raise e => Some (Raise e)
        | Ok st' =>
            if 3600 <? st_month st' then Some (Ok (st', HardStop))
            else while_loop fuel' st'
        end
    end.

(** *** The loop as a step relation *)

Definition loop_continues (st : loop_state) : bool :=
  balance_open st && below_cap st.

(** One completed pass: the condition of line 77 held in [st] and the
    body appended a month, giving [st']. *)
Definition pass (st st' : loop_state) : Prop :=
  loop_continues st = true /\ body st = Ok st'.

(** [runs st st']: completed passes, none of which ran into the break
    of line 105, lead from [st] to [st']. *)
Inductive runs : loop_state -> loop_state -> Prop :=
| runs_here st : runs st st
| runs_pass st st1 st' :
    pass st st1 -> (3600 <? st_month st1) = false -> runs st1 st' ->
    runs st st'.

(** What the loop can end in, starting from [st0]. *)
Inductive loop_result (st0 : loop_state)
  : outcome (loop_state * loop_exit) -> Prop :=
| result_depleted st :
    runs st0 st -> balance_open st = false ->
    loop_result st0 (Ok (st, BalanceDepleted))
| result_cap st :
    runs st0 st -> balance_open st = true -> below_cap st = false ->
    loop_result st0 (Ok (st, SafetyCapReached))
| result_break st st' :
    runs st0 st -> pass st st' -> (3600 <? st_month st') = true ->
    loop_result st0 (Ok (st', HardStop))
| result_raise st :
    runs st0 st -> loop_continues st = true ->
    guard_fires (st_balance st) = true ->
    loop_result st0 (Raise NonAmortizingPayment).

(** *** What the schedule records *)

(** An entry appended by a pass that started from balance [b]. *)
Definition month_entry (e : ScheduleItem.t) : Prop :=
  exists month b,
    (0.005 <? b)%float = true /\ guard_fires b = false
    /\ e = entry month (figures b).

(** [e] records the balance [b] left after its month. *)
Definition records_balance (b : float) (e : ScheduleItem.t) : Prop :=
  balance e = Py.round (Py.max b 0) 2.

(** The last entry records the current balance; the entries before it
    record balances on which the loop went on. *)
Definition schedule_tracks_balance (st : loop_state) : Prop :=
  match rev (st_schedule st) with
  | [] => True
  | e :: before =>
      records_balance (st_balance st) e
      /\ Forall (fun e' => exists b, (0.005 <? b)%float = true
                                     /\ records_balance b e') before
  end.

(** The unrounded actual payments of the months the loop completes.
    The source does not keep them; they are what summing before
    rounding would add up. *)
Fixpoint actual_payments (fuel : nat) (st : loop_state) : list float :=
  if negb (loop_continues st) then []
  else
    match fuel with
    | O => []
    | S fuel' =>
        match body st with
        | Raise _ => []
        | Ok st' =>
            mf_payment_actual (figures (st_balance st))
            :: (if 3600 <? st_month st' then []
                else actual_payments fuel' st')
        end
    end.

End Loop.

Section Calculate.

Variable libm_pow : float -> float -> float.

(** Lines 54-57. *)
Definition monthly_rate (payload : LoanInput.t) : float :=
  (LoanInput.annual_rate payload / 100 / 12)%float.

Definition extra (payload : LoanInput.t) : float :=
  if (LoanInput.extra_payment payload =? 0)%float then 0%float
  else LoanInput.extra_payment payload.

(** Line 59. *)
Definition invalid (payload : LoanInput.t) : bool :=
  (LoanInput.principal payload <=? 0)%float
  || (LoanInput.term_months payload <=? 0)
  || (LoanInput.annual_rate payload <? 0)%float.

(** Lines 63-66. *)
Definition base_payment (P r : float) (n : Z) : outcome float :=
  if (r =? 0)%float then
    nf <- Py.float_of_int n ;;
    Py.truediv P nf
  else
    num_pow <- Py.float_pow libm_pow (1 + r)%float n ;;
    den_pow <- Py.float_pow libm_pow (1 + r)%float n ;;
    Py.truediv (P * (r * num_pow))%float (den_pow - 1)%float.

(** Line 108: [sum] starts from the integer 0. *)
Definition sum_payments (schedule : list ScheduleItem.t) : float :=
  fold_left (fun acc item => (acc + payment item)%float) schedule 0%float.

(** The number of passes the loop is given: one more than the
    [month > 3600] break allows. *)
Definition loop_fuel : nat := 3601.

(** Lines 68-76: the state the loop starts from. *)
Definition initial_state (P : float) : loop_state :=
  LoopState P [] 0%float 0.

Definition run_loop (payload : LoanInput.t) (payment : float)
  : option (outcome (loop_state * loop_exit)) :=
  while_loop (monthly_rate payload) payment
             (LoanInput.term_months payload + 600)
             loop_fuel (initial_state (LoanInput.principal payload)).

(** Lines 108-118. *)
Definition build_result (payload : LoanInput.t) (payment : float)
           (st : loop_state) : LoanResult.t :=
  LoanResult.Build
    (Py.round payment 2)
    (Py.round (sum_payments (st_schedule st)) 2)
    (Py.round (st_total_interest st) 2)
    (Z.of_nat (List.length (st_schedule st)))
    (Py.round (LoanInput.annual_rate payload) 3)
    (st_schedule st).

(** Lines 54-68: validation and the scheduled payment. *)
Definition scheduled_payment (payload : LoanInput.t) : outcome float :=
  if invalid payload then Raise InvalidInput
  else
    base <- base_payment (LoanInput.principal payload)
                         (monthly_rate payload)
                         (LoanInput.term_months payload) ;;
    Ok (base + extra payload)%float.

(** [calculate_loan], lines 53-118. *)
Definition calculate_loan (payload : LoanInput.t)
  : option (outcome LoanResult.t) :=
  match scheduled_payment payload with
  | Raise e => Some (Raise e)
  | Ok payment =>
      match run_loop payload payment with
      | None => None
      | Some (Raise e) => Some (Raise e)
      | Some (Ok (st, _)) => Some (Ok (build_result payload payment st))
      end
  end.

End Calculate.

End Engine.

(** ** The status endpoints *)

Set Warnings "-register-all".

(** The values the JSON responses hold: strings and lists. *)
Inductive value : Type :=
| Str (s : string)
| Items (l : list value).

(** A [dict] with string keys, in insertion order. *)
Definition dict : Type := list (string * value).

(** [d[k] = v]: an existing key keeps its place, a new one goes last. *)
Fixpoint dict_set (d : dict) (k : string) (v : value) : dict :=
  match d with
  | [] => [(k, v)]
  | (k', v') :: d' =>
      if String.eqb k' k then (k', v) :: d' else (k', v') :: dict_set d' k v
  end.

Fixpoint dict_get (d : dict) (k : string) : option value :=
  match d with
  | [] => None
  | (k', v') :: d' => if String.eqb k' k then Some v' else dict_get d' k
  end.

(** [os.getenv]: the value of a variable of the process environment,
    [None] when it is not set. *)
Definition environ : Type := string -> option string.

(** The truth value of what [os.getenv] returns: [None] and the empty
    string are false. *)
Definition truthy (o : option string) : bool :=
  match o with
  | Some (String _ _) => true
  | _ => false
  end.

(** Lines 42-49. *)
Definition read_root : dict :=
  [("message", Str "Hello from FastAPI Backend!")]%string.

Definition hello : dict :=
  [("message", Str "Hello from the backend API!")]%string.

(** Lines 121-137. *)
Definition test_database (getenv : environ) : dict :=
  let response :=
    [ ("backend", Str "✅ Running");
      ("database", Str "❌ Not Used (no persistence for calculator)");
      ("database_url", Str "❌ Not Set");
      ("database_name", Str "❌ Not Set");
      ("connection_status", Str "No DB required for this app");
      ("collections", Items []) ]%string in
  let response :=
    dict_set response "database_url"
      (Str (if truthy (getenv "DATABASE_URL"%string)
            then "✅ Set" else "❌ Not Set")) in
  let response :=
    dict_set response "database_name"
      (Str (if truthy (getenv "DATABASE_NAME"%string)
            then "✅ Set" else "❌ Not Set")) in
  response.

(** ** A reference [pow] for evaluation *)

Module Libm.

(** The integer a double stands for, when it is a positive integer. *)
Definition positive_integer (y : float) : option positive :=
  match Prim2SF y with
  | S754_finite false m e =>
      if 0 <=? e then Some (Z.to_pos (Zpos m * 2 ^ e))
      else if Zpos m mod 2 ^ (- e) =? 0
           then Some (Z.to_pos (Zpos m / 2 ^ (- e)))
           else None
  | _ => None
  end.

(** [m * 2^e] with the trailing zero bits of [m] moved into the
    exponent. *)
Fixpoint odd_part (m : positive) (e : Z) : positive * Z :=
  match m with
  | xO p => odd_part p (e + 1)
  | _ => (m, e)
  end.

(** [pow x y] for a positive finite [x] and a positive integer [y],
    correctly rounded: the exact power of the exact value of [x],
    rounded once.  Other arguments are outside what [calculate_loan]
    passes and are answered with NaN. *)
Definition pow (x y : float) : float :=
  match Prim2SF x, positive_integer y with
  | S754_finite false m e, Some k =>
      let '(m', e') := odd_part m e in
      SF2Prim (binary_normalize prec emax (Zpos (Pos.pow m' k))
                 (e' * Zpos k) false)
  | _, _ => nan
  end.

End Libm.

(** [calculate_loan] with the reference [pow]. *)
Module Reference.

Definition calculate_loan : LoanInput.t -> option (outcome LoanResult.t) :=
  Engine.calculate_loan Libm.pow.

(** What a successful call shows under [f]. *)
Definition observe {A : Type} (f : LoanResult.t -> A)
           (payload : LoanInput.t) : option A :=
  match calculate_loan payload with
  | Some (Ok res) => Some (f res)
  | _ => None
  end.

Definition no_entry : ScheduleItem.t := ScheduleItem.Build 0 0 0 0 0.

Definition last_entry (res : LoanResult.t) : ScheduleItem.t :=
  last (LoanResult.schedule res) no_entry.

(** What [total_payment] would be if the actual payments were summed
    before rounding. *)
Definition total_of_unrounded (payload : LoanInput.t) : option float :=
  match Engine.scheduled_payment Libm.pow payload with
  | Ok payment =>
      Some (Py.round
              (fold_left (fun acc a => (acc + a)%float)
                 (Engine.actual_payments (Engine.monthly_rate payload) payment
                    (LoanInput.term_months payload + 600) Engine.loop_fuel
                    (Engine.initial_state (LoanInput.principal payload)))
                 0%float) 2)
  | Raise _ => None
  end.

(** The inputs the examples below run. *)
Definition standard_loan : LoanInput.t := LoanInput.Build 10000 5 12 0.
Definition long_term_loan : LoanInput.t := LoanInput.Build 1000000 0 5000 0.
Definition straight_line_loan : LoanInput.t := LoanInput.Build 1200 0 12 0.
Definition standard_loan_with (extra : float) : LoanInput.t :=
  LoanInput.Build 10000 5 12 extra.
Definition rounding_loan (extra : float) : LoanInput.t :=
  LoanInput.Build 288593.76 11.96 6 extra.

(** A rate small enough to vanish when added to 1, a term too long for
    a float, a principal below the loop's threshold, and a payment that
    only covers the interest. *)
Definition tiny_rate_loan : LoanInput.t := LoanInput.Build 1000 1e-13 12 0.
Definition endless_loan : LoanInput.t := LoanInput.Build 1000 5 (2 ^ 1024) 0.
Definition dust_loan : LoanInput.t := LoanInput.Build 0.004 5 12 0.
Definition interest_only_loan : LoanInput.t := LoanInput.Build 8 150 360 0.

(** A loan of 8 at 150% a year (12.5% a month) over 360 months, with an
    extra payment of one unit in the last place of 1.0. *)
Definition stalled_loan : LoanInput.t := LoanInput.Build 8 150 360 0x1p-52.

(** What the stalled loan needs of [pow]: [1.125 ** 360] (about 2.6e18) is
    finite and so large that subtracting 1 does not change it, which makes
    the annuity factor [r * x / (x - 1)] equal to [r]. *)
Definition pow_saturates (libm_pow : float -> float -> float) : Prop :=
  let x := libm_pow 1.125%float 360%float in
  is_infinity x = false
  /\ (x - 1 =? 0)%float = false
  /\ (8 * (0.125 * x) / (x - 1))%float = 1%float.


End Reference.

(** ** Doubles by value *)

(** The exponent a binary64 mantissa is rounded at. *)
Local Abbreviation fexp64 := (fexp prec emax).

(** Larger than every finite double; stands for the infinities. *)
Definition huge : Z := 2 ^ 2098.

Definition sign_of (s : bool) : Z := if s then -1 else 1.

Definition sval (x : spec_float) : option Z :=
  match x with
  | S754_nan => None
  | S754_zero _ => Some 0
  | S754_infinity s => Some (sign_of s * huge)
  | S754_finite s m e => Some (sign_of s * (Zpos m * 2 ^ (e + 1074)))
  end.

(** Rounding a positive quantity [N], counted in units of
    [2^-(1074+B)], to the 53 bits of a double: the result in units of
    [2^-1074]. *)
Definition round53 (B N : Z) : Z :=
  let K := Z.max (Z.log2 N + 1 - 53) B in
  Py.round_half_even N (2 ^ K) * 2 ^ (K - B).

Definition finish64 (s : bool) (m1 e1 : Z) : spec_float :=
  let '(mrs, e2) := shr_fexp prec emax m1 e1 loc_Exact in
  match shr_m mrs with
  | Z0 => S754_zero s
  | Zpos m => if e2 <=? emax - prec then S754_finite s m e2
              else S754_infinity s
  | Zneg _ => S754_nan
  end.

(** Rounding an integer number of units of [2^-1074] to a double. *)
Definition round_scaled (N : Z) : Z :=
  match N with
  | Z0 => 0
  | Zpos p => Z.min (round53 0 (Zpos p)) huge
  | Zneg p => - Z.min (round53 0 (Zpos p)) huge
  end.

(** The value of a float in units of [2^-1074]: [None] for NaN, [huge]
    and [- huge] for the infinities. *)
Definition fval (x : float) : option Z := sval (Prim2SF x).

(** Addition and subtraction of values, with the infinities. *)
Definition ext_add (a b : Z) : option Z :=
  if a =? huge then (if b =? - huge then None else Some huge)
  else if a =? - huge then (if b =? huge then None else Some (- huge))
  else if b =? huge then Some huge
  else if b =? - huge then Some (- huge)
  else Some (round_scaled (a + b)).

Definition ext_sub (a b : Z) : option Z := ext_add a (- b).


(** Rounding a product of two values (so in units of [2^-2148]) to a
    double. *)
Definition round_product (P : Z) : Z :=
  match P with
  | Z0 => 0
  | Zpos p => Z.min (round53 1074 (Zpos p)) huge
  | Zneg p => - Z.min (round53 1074 (Zpos p)) huge
  end.

(** Neither NaN nor an infinity. *)
Definition finite (x : float) : bool :=
  (neg_infinity <? x)%float && (x <? infinity)%float.

(** Rounding the positive ratio [N / D], counted in units of
    [2^-(1074+B)], to the 53 bits of a double: the result in units of
    [2^-1074]. *)
Definition round53q (B N D : Z) : Z :=
  let K := Z.max (Z.log2 (N / D) + 1 - 53) B in
  Py.round_half_even N (D * 2 ^ K) * 2 ^ (K - B).

(** The quotient of two positive values, rounded to a double. *)
Definition round_quotient (a b : Z) : Z :=
  Z.min (round53q 0 (a * 2 ^ 1074) b) huge.

(** The number of cents nearest to the non-negative value [v]. *)
Definition cents (v : Z) : Z := Py.round_half_even (100 * v) (2 ^ 1074).

(** The double nearest to [q] cents. *)
Definition cents_val (q : Z) : Z :=
  match q with
  | Zpos _ => round_quotient (q * 2 ^ 1074) (100 * 2 ^ 1074)
  | _ => 0
  end.

(** [round(x, 2)] by value. *)
Definition round2_val (v : Z) : Z :=
  if (v =? huge) || (v =? - huge) then v
  else
    match v with
    | Z0 => 0
    | Zpos _ => cents_val (cents v)
    | Zneg p => - cents_val (cents (Zpos p))
    end.

(** ** Months by value *)

(** The principal component the balance [vb] leaves of the payment [vp]
    at the monthly rate [vr]. *)
Definition principal_val (vr vp vb : Z) : Z :=
  round_scaled (vp - round_product (vb * vr)).

(** The balance a month leaves. *)
Definition next_balance_val (vr vp vb : Z) : Z :=
  if vb <? principal_val vr vp vb then 0
  else round_scaled (vb - principal_val vr vp vb).

(** The interest accumulated after adding a month's interest [vi]. *)
Definition acc_val (t vi : Z) : Z :=
  if t =? huge then huge else round_scaled (t + vi).

(** The balance of [st] is the finite, non-negative [vb], and its
    accumulated interest is [t]. *)
Definition tracked (st : Engine.loop_state) (vb t : Z) : Prop :=
  fval (Engine.st_balance st) = Some vb /\ 0 <= vb < huge
  /\ fval (Engine.st_total_interest st) = Some t /\ 0 <= t <= huge.

(** [st2] is in the same month as [st1], with no more left to pay and
    no more interest paid. *)
Definition ahead (st1 st2 : Engine.loop_state) : Prop :=
  Engine.st_month st1 = Engine.st_month st2
  /\ exists vb1 t1 vb2 t2,
       tracked st1 vb1 t1 /\ tracked st2 vb2 t2 /\ vb2 <= vb1 /\ t2 <= t1.

(** ** Schedules *)

(** Each entry records, in [field], no more than the entry before it. *)
Definition descending (field : ScheduleItem.t -> float)
           (l : list ScheduleItem.t) : Prop :=
  forall l1 e1 e2 l2,
    l = l1 ++ e1 :: e2 :: l2 -> (field e2 <=? field e1)%float = true.

(** * Properties *)

Import Engine.

#[global] Arguments balance_open : simpl never.
#[global] Arguments below_cap : simpl never.
#[global] Arguments body : simpl never.
#[global] Arguments guard_fires : simpl never.
#[global] Arguments figures : simpl never.
#[global] Arguments entry : simpl never.
#[global] Arguments run_loop : simpl never.
#[global] Arguments scheduled_payment : simpl never.
#[global] Arguments calculate_loan : simpl never.

(** ** The loop *)

Section LoopFacts.

Variables (r payment : float) (safety_cap : Z).

Local Abbreviation body := (body r payment).
Local Abbreviation while_loop := (while_loop r payment safety_cap).
Local Abbreviation pass := (pass r payment safety_cap).
Local Abbreviation runs := (runs r payment safety_cap).
Local Abbreviation loop_result := (loop_result r payment safety_cap).
Local Abbreviation loop_continues := (loop_continues safety_cap).
Local Abbreviation guard_fires := (guard_fires r payment).
Local Abbreviation figures := (figures r payment).

Lemma body_ok st st' :
  body st = Ok st' ->
  guard_fires (st_balance st) = false /\
  st' = LoopState (mf_balance (figures (st_balance st)))
                  (st_schedule st
                   ++ [entry (st_month st + 1) (figures (st_balance st))])
                  (st_total_interest st
                   + mf_interest (figures (st_balance st)))%float
                  (st_month st + 1).
Proof.
  unfold Engine.body. destruct (guard_fires (st_balance st)).
  - discriminate.
  - intros [= <-]. split; reflexivity.
Qed.

Lemma body_raise st e :
  body st = Raise e ->
  e = NonAmortizingPayment /\ guard_fires (st_balance st) = true.
Proof.
  unfold Engine.body. destruct (guard_fires (st_balance st)).
  - intros [= <-]. split; reflexivity.
  - discriminate.
Qed.

Lemma body_month st st' : body st = Ok st' -> st_month st' = st_month st + 1.
Proof. intros H. apply body_ok in H as [_ ->]. reflexivity. Qed.

Lemma body_length st st' :
  body st = Ok st' ->
  List.length (st_schedule st') = S (List.length (st_schedule st)).
Proof.
  intros H. apply body_ok in H as [_ ->]. cbn.
  rewrite length_app. cbn. lia.
Qed.

Lemma continues_inv st :
  loop_continues st = true ->
  balance_open st = true /\ st_month st < safety_cap.
Proof.
  unfold Engine.loop_continues, below_cap. intros H.
  apply andb_true_iff in H as [H1 H2]. split; [exact H1 | lia].
Qed.

(** The loop unfolds along [runs]. *)
Lemma while_loop_sound fuel : forall st o,
  while_loop fuel st = Some o -> loop_result st o.
Proof.
  induction fuel as [|fuel IH]; intros st o; cbn.
  - destruct (balance_open st) eqn:Hb; cbn.
    + destruct (below_cap safety_cap st) eqn:Hc; cbn; [discriminate|].
      intros [= <-]. apply result_cap; [constructor | assumption..].
    + intros [= <-]. apply result_depleted; [constructor | assumption].
  - destruct (balance_open st) eqn:Hb; cbn.
    + destruct (below_cap safety_cap st) eqn:Hc; cbn.
      * assert (Hcont : loop_continues st = true)
          by (unfold Engine.loop_continues; rewrite Hb, Hc; reflexivity).
        destruct (body st) as [st1|e] eqn:Hbody.
        -- destruct (3600 <? st_month st1) eqn:Hbrk.
           ++ intros [= <-].
              apply result_break with (st := st);
                [constructor | split; assumption | assumption].
           ++ intros H. apply IH in H.
              assert (Hp : pass st st1) by (split; assumption).
              destruct H.
              ** apply result_depleted; [econstructor; eassumption | assumption].
              ** apply result_cap; [econstructor; eassumption | assumption..].
              ** eapply result_break; [econstructor; eassumption | eassumption..].
              ** apply result_raise with (st := st0);
                   [econstructor; eassumption | assumption..].
        -- intros [= <-]. apply body_raise in Hbody as [-> Hg].
           apply result_raise with (st := st); [constructor | assumption..].
      * intros [= <-]. apply result_cap; [constructor | assumption..].
    + intros [= <-]. apply result_depleted; [constructor | assumption].
Qed.

(** The break of line 105 bounds the passes: fuel for the months up to
    3601 is always enough. *)
Lemma while_loop_total fuel : forall st,
  Z.max 1 (3601 - st_month st) <= Z.of_nat fuel ->
  while_loop fuel st <> None.
Proof.
  induction fuel as [|fuel IH]; intros st Hfuel; [lia|]. cbn.
  destruct (balance_open st); cbn; [|discriminate].
  destruct (below_cap safety_cap st); cbn; [|discriminate].
  destruct (body st) as [st1|e] eqn:Hbody; [|discriminate].
  destruct (3600 <? st_month st1) eqn:Hbrk; [discriminate|].
  apply IH. apply body_month in Hbody. lia.
Qed.

(** Months and schedule length advance together along [runs]. *)
Lemma runs_month st st' :
  runs st st' ->
  st_month st <= st_month st' /\
  st_month st' - st_month st
  = Z.of_nat (List.length (st_schedule st'))
    - Z.of_nat (List.length (st_schedule st)) /\
  (st_month st <= safety_cap -> st_month st' <= safety_cap) /\
  (st_month st <= 3600 -> st_month st' <= 3600).
Proof.
  induction 1 as [st | st st1 st' [Hc Hb] Hbrk _ IH].
  - repeat split; lia.
  - apply continues_inv in Hc as [_ Hc].
    pose proof (body_month _ _ Hb). pose proof (body_length _ _ Hb).
    repeat split; lia.
Qed.

(** [runs] is deterministic: two runs from the same state lie on one
    chain. *)
Lemma runs_chain st st1 st2 :
  runs st st1 -> runs st st2 -> runs st1 st2 \/ runs st2 st1.
Proof.
  intros H1. revert st2.
  induction H1 as [st | st sta st1 [Hc Hb] Hbrk Hr IH]; intros st2 H2.
  - left. exact H2.
  - destruct H2 as [st | st stb st2 [Hc' Hb'] Hbrk' H2].
    + right. econstructor; [split; eassumption | eassumption..].
    + rewrite Hb in Hb'. injection Hb' as <-. apply IH. exact H2.
Qed.

Lemma runs_trans st st1 st2 : runs st st1 -> runs st1 st2 -> runs st st2.
Proof.
  induction 1; intros H2; [exact H2|].
  econstructor; eauto.
Qed.

(** A state in which the guard fires has no successor. *)
Lemma guard_stops st st' :
  guard_fires (st_balance st) = true -> runs st st' -> st' = st.
Proof.
  intros Hg H. destruct H as [st | st st1 st' [_ Hb] _ _]; [reflexivity|].
  apply body_ok in Hb as [Hg' _]. congruence.
Qed.

(** With fuel left, the loop follows a run to its end. *)
Lemma while_loop_runs st st1 :
  runs st st1 ->
  forall fuel, while_loop fuel st = None \/
               exists fuel', while_loop fuel st = while_loop fuel' st1.
Proof.
  induction 1 as [st | st sta st1 [Hc Hb] Hbrk _ IH]; intros fuel.
  - right. exists fuel. reflexivity.
  - apply continues_inv in Hc as Hc'. destruct Hc' as [Hopen Hcap].
    destruct fuel as [|fuel]; cbn.
    + left. rewrite Hopen. cbn. unfold below_cap.
      destruct (Z.ltb_spec (st_month st) safety_cap); [reflexivity | lia].
    + rewrite Hopen. cbn. unfold below_cap.
      destruct (Z.ltb_spec (st_month st) safety_cap); [|lia]. cbn.
      rewrite Hb, Hbrk. apply IH.
Qed.

(** Completeness: every [loop_result] is what the loop returns when it
    returns at all. *)
Lemma while_loop_complete st o fuel :
  loop_result st o -> while_loop fuel st <> None -> while_loop fuel st = Some o.
Proof.
  intros Hres Hsome.
  assert (Hend : forall st1, runs st st1 ->
            (forall fuel', while_loop fuel' st1 = None
                           \/ while_loop fuel' st1 = Some o) ->
            while_loop fuel st = Some o).
  { intros st1 Hruns Hst1.
    destruct (while_loop_runs _ _ Hruns fuel) as [Hn | [fuel' Heq]];
      [contradiction|].
    destruct (Hst1 fuel') as [Hn | Hs]; congruence. }
  destruct Hres as [st1 Hruns Hb | st1 Hruns Hb Hc
                   | st1 st2 Hruns [Hc Hbody] Hbrk | st1 Hruns Hc Hg].
  - apply (Hend st1 Hruns). intros fuel'. right.
    destruct fuel'; cbn; rewrite Hb; reflexivity.
  - apply (Hend st1 Hruns). intros fuel'. right.
    destruct fuel'; cbn; rewrite Hb, Hc; reflexivity.
  - apply (Hend st1 Hruns). intros fuel'.
    apply andb_true_iff in Hc as [Hb Hc].
    destruct fuel'; cbn; rewrite Hb, Hc; cbn; [left; reflexivity|].
    right. rewrite Hbody, Hbrk. reflexivity.
  - apply (Hend st1 Hruns). intros fuel'.
    apply andb_true_iff in Hc as [Hb Hc].
    destruct fuel'; cbn; rewrite Hb, Hc; cbn; [left; reflexivity|].
    right. unfold Engine.body. rewrite Hg. reflexivity.
Qed.

End LoopFacts.

(** ** Binary64 rounding *)

Lemma digits2_size p : digits2_pos p = Pos.size p.
Proof. induction p; cbn; congruence. Qed.

Lemma digits2_log2 p : Zpos (digits2_pos p) = Z.log2 (Zpos p) + 1.
Proof.
  rewrite digits2_size. destruct p; cbn; try reflexivity; lia.
Qed.

Lemma digits2_bounds p :
  2 ^ (Zpos (digits2_pos p) - 1) <= Zpos p < 2 ^ Zpos (digits2_pos p).
Proof.
  rewrite digits2_log2.
  pose proof (Z.log2_spec (Zpos p) eq_refl) as H.
  replace (Z.log2 (Zpos p) + 1 - 1) with (Z.log2 (Zpos p)) by lia.
  exact H.
Qed.

Lemma digits2_unique p d :
  2 ^ (d - 1) <= Zpos p < 2 ^ d -> Zpos (digits2_pos p) = d.
Proof.
  intros H. rewrite digits2_log2.
  assert (0 < d).
  { destruct (Z.lt_trichotomy d 0) as [Hd | [-> | Hd]]; [| |exact Hd].
    - rewrite (Z.pow_neg_r 2 d Hd) in H. lia.
    - cbn in H. lia. }
  rewrite (Z.log2_unique (Zpos p) (d - 1)); [lia | lia |].
  replace (Z.succ (d - 1)) with d by lia. exact H.
Qed.

(** *** Right shifts *)

Lemma iter_pos_nat {A} (f : A -> A) p : forall x,
  iter_pos f p x = Nat.iter (Pos.to_nat p) f x.
Proof.
  induction p as [p IH | p IH |]; intros x; cbn [iter_pos].
  - rewrite !IH, Pos2Nat.inj_xI.
    replace (S (2 * Pos.to_nat p))%nat
      with (Pos.to_nat p + S (Pos.to_nat p))%nat by lia.
    rewrite Nat.iter_add, Nat.iter_succ_r. reflexivity.
  - rewrite !IH, Pos2Nat.inj_xO.
    replace (2 * Pos.to_nat p)%nat
      with (Pos.to_nat p + Pos.to_nat p)%nat by lia.
    rewrite Nat.iter_add. reflexivity.
  - reflexivity.
Qed.

Lemma shr_1_nonneg m r s :
  0 <= m ->
  shr_1 (Build_shr_record m r s)
  = Build_shr_record (m / 2) (Z.odd m) (r || s).
Proof.
  intros Hm. rewrite <- Z.div2_div.
  destruct m as [|[p|p|]|p]; try reflexivity. lia.
Qed.

(** [n >= 1] shifts leave the quotient by [2^n], the last bit shifted out
    and whether anything was shifted out before it. *)
Lemma shr_iter m r s (n : nat) :
  0 <= m ->
  Nat.iter (S n) shr_1 (Build_shr_record m r s)
  = Build_shr_record (m / 2 ^ Z.of_nat (S n))
      (Z.odd (m / 2 ^ Z.of_nat n))
      (negb (m mod 2 ^ Z.of_nat n =? 0) || r || s).
Proof.
  intros Hm. induction n as [|n IH].
  - cbn [Nat.iter]. rewrite shr_1_nonneg by exact Hm.
    change (2 ^ Z.of_nat 1) with 2. change (2 ^ Z.of_nat 0) with 1.
    rewrite Z.div_1_r, Z.mod_1_r. reflexivity.
  - rewrite Nat.iter_succ, IH.
    assert (Hp : 0 < 2 ^ Z.of_nat n) by (apply Z.pow_pos_nonneg; lia).
    assert (Hp' : 0 < 2 ^ Z.of_nat (S n)) by (apply Z.pow_pos_nonneg; lia).
    rewrite shr_1_nonneg by (apply Z.div_pos; lia).
    assert (E : 2 ^ Z.of_nat (S (S n)) = 2 ^ Z.of_nat (S n) * 2).
    { rewrite (Nat2Z.inj_succ (S n)), Z.pow_succ_r by lia. lia. }
    assert (E' : 2 ^ Z.of_nat (S n) = 2 ^ Z.of_nat n * 2).
    { rewrite (Nat2Z.inj_succ n), Z.pow_succ_r by lia. lia. }
    rewrite E, <- Z.div_div by lia.
    f_equal.
    rewrite E', Z.rem_mul_r by lia.
    pose proof (Z.mod_pos_bound m (2 ^ Z.of_nat n) Hp) as Hb.
    pose proof (Zdiv2_odd_eqn (m / 2 ^ Z.of_nat n)) as Ho.
    pose proof (Z.mod_pos_bound (m / 2 ^ Z.of_nat n) 2 eq_refl) as Hb2.
    assert (Hodd : (m / 2 ^ Z.of_nat n) mod 2
                   = if Z.odd (m / 2 ^ Z.of_nat n) then 1 else 0).
    { rewrite Zmod_odd. reflexivity. }
    rewrite Hodd.
    destruct (Z.odd (m / 2 ^ Z.of_nat n)); cbn [orb negb].
    + destruct (Z.eqb_spec (m mod 2 ^ Z.of_nat n + 2 ^ Z.of_nat n * 1) 0);
        [lia|]. cbn. destruct (negb _); reflexivity.
    + rewrite Z.mul_0_r, Z.add_0_r.
      destruct (m mod 2 ^ Z.of_nat n =? 0); reflexivity.
Qed.

(** *** Rounding a shifted mantissa *)

Lemma round_half_even_shift m (n : nat) :
  0 <= m ->
  let q := m / 2 ^ Z.of_nat (S n) in
  round_nearest_even q
    (loc_of_shr_record
       (Build_shr_record q (Z.odd (m / 2 ^ Z.of_nat n))
          (negb (m mod 2 ^ Z.of_nat n =? 0) || false || false)))
  = Py.round_half_even m (2 ^ Z.of_nat (S n)).
Proof.
  intros Hm q. unfold Py.round_half_even. fold q.
  assert (Hp : 0 < 2 ^ Z.of_nat n) by (apply Z.pow_pos_nonneg; lia).
  assert (E : 2 ^ Z.of_nat (S n) = 2 ^ Z.of_nat n * 2).
  { rewrite (Nat2Z.inj_succ n), Z.pow_succ_r by lia. lia. }
  rewrite E, Z.rem_mul_r by lia. rewrite Zmod_odd.
  pose proof (Z.mod_pos_bound m (2 ^ Z.of_nat n) Hp) as Hb.
  rewrite !orb_false_r.
  destruct (Z.odd (m / 2 ^ Z.of_nat n)).
  - destruct (Z.eqb_spec (m mod 2 ^ Z.of_nat n) 0) as [H0|H0]; cbn [negb].
    + rewrite H0. cbn [loc_of_shr_record round_nearest_even].
      replace (2 * (0 + 2 ^ Z.of_nat n * 1) ?= 2 ^ Z.of_nat n * 2) with Eq
        by (symmetry; apply Z.compare_eq_iff; lia).
      reflexivity.
    + cbn [loc_of_shr_record round_nearest_even].
      replace (2 * (m mod 2 ^ Z.of_nat n + 2 ^ Z.of_nat n * 1)
               ?= 2 ^ Z.of_nat n * 2) with Gt
        by (symmetry; apply Z.compare_gt_iff; lia).
      reflexivity.
  - replace (2 * (m mod 2 ^ Z.of_nat n + 2 ^ Z.of_nat n * 0)
             ?= 2 ^ Z.of_nat n * 2) with Lt
      by (symmetry; apply Z.compare_lt_iff; lia).
    destruct (negb (m mod 2 ^ Z.of_nat n =? 0)); reflexivity.
Qed.

(** [shr_fexp] on an exact positive mantissa: the quotient by [2^n], and
    the information to round it to nearest-even. *)
Lemma shr_fexp_exact (m : positive) e :
  let n := fexp64 (Zpos (digits2_pos m) + e) - e in
  0 <= n ->
  exists mrs,
    shr_fexp prec emax (Zpos m) e loc_Exact = (mrs, e + n)
    /\ shr_m mrs = Zpos m / 2 ^ n
    /\ round_nearest_even (shr_m mrs) (loc_of_shr_record mrs)
       = Py.round_half_even (Zpos m) (2 ^ n).
Proof.
  intros n Hn. unfold shr_fexp. cbn [Zdigits2 shr_record_of_loc]. fold n.
  destruct n as [|p|p] eqn:En; [| |lia].
  - eexists. split; [cbn [shr]; rewrite Z.add_0_r; reflexivity|].
    cbn [shr_m loc_of_shr_record round_nearest_even].
    unfold Py.round_half_even. change (2 ^ 0) with 1.
    rewrite Z.div_1_r, Z.mod_1_r. split; reflexivity.
  - cbn [shr]. rewrite iter_pos_nat.
    destruct (Pos2Nat.is_succ p) as [k Hk]. rewrite Hk.
    rewrite shr_iter by lia.
    eexists. split; [reflexivity|]. cbn [shr_m].
    rewrite round_half_even_shift by lia.
    rewrite <- Hk, positive_nat_Z. split; reflexivity.
Qed.

Lemma shr_fexp_zero e :
  exists e', shr_fexp prec emax 0 e loc_Exact
             = (Build_shr_record 0 false false, e').
Proof.
  unfold shr_fexp. cbn [Zdigits2 shr_record_of_loc].
  destruct (fexp64 (0 + e) - e) as [|p|p]; cbn [shr];
    try (eexists; reflexivity).
  rewrite iter_pos_nat. destruct (Pos2Nat.is_succ p) as [k ->].
  rewrite shr_iter by lia. rewrite Z.div_0_l, Z.mod_0_l.
  - eexists. reflexivity.
  - apply Z.pow_nonzero; lia.
  - apply Z.pow_nonzero; lia.
Qed.

(** *** Rounding to the nearest integer, ties to even *)

Lemma round_half_even_cases a b :
  0 < b ->
  let q := a / b in
  let r := a mod b in
  (Py.round_half_even a b = q /\ 2 * r <= b)
  \/ (Py.round_half_even a b = q + 1 /\ b <= 2 * r).
Proof.
  intros Hb q r. unfold Py.round_half_even. fold q. fold r.
  destruct (Z.compare_spec (2 * r) b) as [H|H|H].
  - destruct (Z.even q); [left | right]; split; lia.
  - left. split; lia.
  - right. split; lia.
Qed.

Lemma round_half_even_exact k b : 0 < b -> Py.round_half_even (k * b) b = k.
Proof.
  intros Hb. unfold Py.round_half_even.
  rewrite Z.div_mul, Z.mod_mul by lia.
  replace (2 * 0 ?= b) with Lt by (symmetry; apply Z.compare_lt_iff; lia).
  reflexivity.
Qed.

Lemma round_half_even_mono a1 a2 b :
  0 < b -> a1 <= a2 -> Py.round_half_even a1 b <= Py.round_half_even a2 b.
Proof.
  intros Hb Ha.
  assert (Hq : a1 / b <= a2 / b) by (apply Z.div_le_mono; lia).
  destruct (Z.eq_dec (a1 / b) (a2 / b)) as [Heq | Hne].
  - unfold Py.round_half_even. rewrite <- Heq.
    assert (Hr : a1 mod b <= a2 mod b).
    { rewrite !Z.mod_eq by lia. rewrite <- Heq. lia. }
    destruct (Z.compare_spec (2 * (a1 mod b)) b) as [H1|H1|H1];
      destruct (Z.compare_spec (2 * (a2 mod b)) b) as [H2|H2|H2];
      destruct (Z.even (a1 / b)); lia.
  - destruct (round_half_even_cases a1 b Hb) as [[-> _] | [-> _]];
      destruct (round_half_even_cases a2 b Hb) as [[-> _] | [-> _]]; lia.
Qed.

Lemma round_half_even_scale a b c :
  0 < b -> 0 < c ->
  Py.round_half_even (a * c) (b * c) = Py.round_half_even a b.
Proof.
  intros Hb Hc. unfold Py.round_half_even.
  rewrite Z.div_mul_cancel_r by lia.
  rewrite Zmult_mod_distr_r.
  replace (2 * (a mod b * c) ?= b * c) with (2 * (a mod b) ?= b);
    [reflexivity|].
  destruct (Z.compare_spec (2 * (a mod b)) b) as [H|H|H]; symmetry.
  - apply Z.compare_eq_iff. nia.
  - apply Z.compare_lt_iff. nia.
  - apply Z.compare_gt_iff. nia.
Qed.

Lemma round_half_even_lower a b k :
  0 < b -> k * b <= a -> k <= Py.round_half_even a b.
Proof.
  intros Hb H. rewrite <- (round_half_even_exact k b Hb).
  apply round_half_even_mono; assumption.
Qed.

Lemma round_half_even_upper a b k :
  0 < b -> a <= k * b -> Py.round_half_even a b <= k.
Proof.
  intros Hb H. rewrite <- (round_half_even_exact k b Hb).
  apply round_half_even_mono; assumption.
Qed.

(** *** The value of a float, in units of [2^-1074] *)

(** *** The last step of [binary_round_aux] *)

Lemma binary_round_aux_finish s mx ex lx :
  binary_round_aux prec emax s mx ex lx
  = let '(mrs, e1) := shr_fexp prec emax mx ex lx in
    finish64 s (round_nearest_even (shr_m mrs) (loc_of_shr_record mrs)) e1.
Proof. reflexivity. Qed.

Lemma fexp64_eq z : fexp64 z = Z.max (z - 53) (-1074).
Proof. reflexivity. Qed.

Lemma pow2_pos k : 0 <= k -> 0 < 2 ^ k.
Proof. intros. apply Z.pow_pos_nonneg; lia. Qed.

Lemma pow2_le a b : 0 <= a <= b -> 2 ^ a <= 2 ^ b.
Proof. intros. apply Z.pow_le_mono_r; lia. Qed.

Lemma pow2_split a b : 0 <= a -> 0 <= b -> 2 ^ (a + b) = 2 ^ a * 2 ^ b.
Proof. intros. apply Z.pow_add_r; assumption. Qed.

Lemma huge_split a : 0 <= a <= 2098 -> huge = 2 ^ a * 2 ^ (2098 - a).
Proof.
  intros H. unfold huge. rewrite <- pow2_split by lia. f_equal. lia.
Qed.

(** A rounded mantissa in the normal range ([2^52 <= m1 <= 2^53]) or in
    the subnormal range (exponent [-1074], [m1 <= 2^52]) is packed into a
    valid float of the same value, or overflows to infinity. *)
Lemma finish64_value s m1 E :
  (2 ^ 52 <= m1 <= 2 ^ 53 /\ -1074 <= E)
  \/ (0 <= m1 <= 2 ^ 52 /\ E = -1074) ->
  sval (finish64 s m1 E)
  = Some (sign_of s * Z.min (m1 * 2 ^ (E + 1074)) huge)
  /\ valid_binary (finish64 s m1 E) = true.
Proof.
  intros Hrange. unfold finish64.
  destruct m1 as [|p1|p1]; [| |lia].
  - destruct (shr_fexp_zero E) as (e' & ->). cbn [shr_m sval valid_binary].
    split; [|reflexivity]. rewrite Z.mul_0_l, Z.min_l by (unfold huge; lia).
    rewrite Z.mul_0_r. reflexivity.
  - pose proof (digits2_bounds p1) as Hd.
    destruct (Z.eq_dec (Zpos p1) (2 ^ 53)) as [Hcarry | Hnocarry].
    + (* the rounding carried into a 54th bit *)
      assert (HE : -1074 <= E) by (destruct Hrange as [[_ ?] | [[_ H] _]];
        [assumption | rewrite Hcarry in H; cbv in H; congruence]).
      assert (Hdig : Zpos (digits2_pos p1) = 54).
      { apply digits2_unique. rewrite Hcarry. cbv. split; congruence. }
      pose proof (shr_fexp_exact p1 E) as Hshr. cbv zeta in Hshr.
      rewrite Hdig, fexp64_eq in Hshr.
      replace (Z.max (54 + E - 53) (-1074) - E) with 1 in Hshr by lia.
      destruct (Hshr ltac:(lia)) as (mrs & -> & Hm & _).
      rewrite Hm, Hcarry. change (2 ^ 53 / 2 ^ 1) with (Zpos (2 ^ 52)%positive).
      cbv iota beta. change (emax - prec) with 971.
      destruct (Z.leb_spec (E + 1) 971) as [Hfin | Hinf].
      * cbn [sval valid_binary]. split.
        -- f_equal. f_equal. change (Zpos (2 ^ 52)%positive) with (2 ^ 52).
           replace (E + 1 + 1074) with (1 + (E + 1074)) by lia.
           rewrite pow2_split by lia.
           assert (2 ^ (E + 1074) <= 2 ^ 2044) by (apply pow2_le; lia).
           rewrite (huge_split 54) by lia. change (2098 - 54) with 2044.
           change (2 ^ 53) with (2 ^ 52 * 2 ^ 1).
           rewrite Z.min_l; [lia|].
           change (2 ^ 54) with (2 * (2 ^ 52 * 2 ^ 1)). nia.
        -- unfold bounded, canonical_mantissa.
           change (digits2_pos (2 ^ 52)) with 53%positive.
           rewrite fexp64_eq. change (emax - prec) with 971.
           apply andb_true_iff. split; [apply Z.eqb_eq | apply Z.leb_le]; lia.
      * cbn [sval valid_binary]. split; [|reflexivity].
        f_equal. f_equal. rewrite Z.min_r; [reflexivity|].
        assert (2 ^ 2045 <= 2 ^ (E + 1074)) by (apply pow2_le; lia).
        rewrite (huge_split 53) by lia. change (2098 - 53) with 2045.
        assert (0 < 2 ^ 53) by (apply pow2_pos; lia). nia.
    + (* the mantissa already is in canonical form *)
      assert (Hlt : Zpos p1 < 2 ^ 53) by (destruct Hrange as [[[_ ?] _] | [[_ ?] _]];
        [lia | assert (2 ^ 52 < 2 ^ 53) by (cbv; reflexivity); lia]).
      assert (Hdig : Zpos (digits2_pos p1) <= 53).
      { destruct (Z.le_gt_cases (Zpos (digits2_pos p1)) 53) as [?|Hgt];
          [assumption|].
        assert (2 ^ 53 <= 2 ^ (Zpos (digits2_pos p1) - 1))
          by (apply pow2_le; lia). lia. }
      assert (Hcanon : fexp64 (Zpos (digits2_pos p1) + E) = E).
      { rewrite fexp64_eq. destruct Hrange as [[[Hlo _] HE] | [_ ->]]; [|lia].
        assert (Zpos (digits2_pos p1) = 53); [|lia].
        destruct (Z.le_gt_cases 53 (Zpos (digits2_pos p1))) as [?|Hsmall];
          [lia|].
        assert (2 ^ Zpos (digits2_pos p1) <= 2 ^ 52) by (apply pow2_le; lia).
        lia. }
      pose proof (shr_fexp_exact p1 E) as Hshr. cbv zeta in Hshr.
      rewrite Hcanon, Z.sub_diag in Hshr.
      destruct (Hshr ltac:(lia)) as (mrs & -> & Hm & _).
      rewrite Hm. change (2 ^ 0) with 1. rewrite Z.div_1_r, Z.add_0_r.
      cbv iota beta. change (emax - prec) with 971.
      assert (HE : -1074 <= E) by (destruct Hrange as [[_ ?] | [_ ?]]; lia).
      destruct (Z.leb_spec E 971) as [Hfin | Hinf].
      * cbn [sval valid_binary]. split.
        -- f_equal. f_equal. rewrite Z.min_l; [reflexivity|].
           assert (2 ^ (E + 1074) <= 2 ^ 2045) by (apply pow2_le; lia).
           assert (0 < 2 ^ (E + 1074)) by (apply pow2_pos; lia).
           rewrite (huge_split 53) by lia. change (2098 - 53) with 2045.
           nia.
        -- unfold bounded, canonical_mantissa. rewrite Hcanon.
           change (emax - prec) with 971.
           apply andb_true_iff. split; [apply Z.eqb_eq | apply Z.leb_le]; lia.
      * cbn [sval valid_binary]. split; [|reflexivity].
        f_equal. f_equal. rewrite Z.min_r; [reflexivity|].
        destruct Hrange as [[[Hlo _] _] | [_ ->]]; [|lia].
        assert (2 ^ 2046 <= 2 ^ (E + 1074)) by (apply pow2_le; lia).
        rewrite (huge_split 52) by lia. change (2098 - 52) with 2046.
        assert (0 < 2 ^ 52) by (apply pow2_pos; lia). nia.
Qed.

(** *** [binary_round_aux] on an exact mantissa *)

(** The mantissa [m] at exponent [e] is the quantity [N] in units of
    [2^-(1074+B)]; rounding it gives [round53 B N], or infinity. *)
Lemma binary_round_aux_value s (m : positive) e B :
  0 <= B -> 0 <= e + 1074 + B ->
  0 <= fexp64 (Zpos (digits2_pos m) + e) - e ->
  let N := Zpos m * 2 ^ (e + 1074 + B) in
  let R := binary_round_aux prec emax s (Zpos m) e loc_Exact in
  sval R = Some (sign_of s * Z.min (round53 B N) huge)
  /\ valid_binary R = true.
Proof.
  intros HB He Hn N R. subst R. rewrite binary_round_aux_finish.
  destruct (shr_fexp_exact m e Hn) as (mrs & -> & _ & ->).
  set (d := Zpos (digits2_pos m)) in *.
  set (E := fexp64 (d + e)) in *.
  replace (e + (E - e)) with E by lia.
  set (m1 := Py.round_half_even (Zpos m) (2 ^ (E - e))).
  pose proof (digits2_bounds m) as Hd. fold d in Hd.
  assert (Hd1 : 1 <= d) by (unfold d; lia).
  assert (HE : E = Z.max (d + e - 53) (-1074)) by reflexivity.
  assert (Hlog : Z.log2 (Zpos m) + 1 = d)
    by (unfold d; rewrite digits2_log2; reflexivity).
  clearbody E d.
  assert (Hc : 0 < 2 ^ (e + 1074 + B)) by (apply pow2_pos; lia).
  assert (Hpn : 0 < 2 ^ (E - e)) by (apply pow2_pos; lia).
  (* the scaled quantity rounds to the same mantissa *)
  assert (Hround : round53 B N = m1 * 2 ^ (E + 1074)).
  { unfold round53, N.
    rewrite Z.log2_mul_pow2 by lia.
    replace (e + 1074 + B + Z.log2 (Zpos m) + 1 - 53)
      with (d + e - 53 + 1074 + B) by lia.
    replace (Z.max (d + e - 53 + 1074 + B) B) with (E - e + (e + 1074 + B))
      by (clear - HE; lia).
    rewrite (pow2_split (E - e) (e + 1074 + B)) by lia.
    rewrite round_half_even_scale by assumption.
    fold m1. f_equal. f_equal. lia. }
  rewrite Hround.
  apply finish64_value.
  destruct (Z.le_gt_cases (-1074) (d + e - 53)) as [Hnormal | Hsub].
  - left. assert (En : E - e = d - 53) by lia.
    assert (Hd53 : 53 <= d) by lia.
    split; [|lia]. unfold m1. rewrite En. split.
    + apply round_half_even_lower; [apply pow2_pos; lia|].
      rewrite <- pow2_split by lia.
      replace (52 + (d - 53)) with (d - 1) by lia. lia.
    + apply round_half_even_upper; [apply pow2_pos; lia|].
      rewrite <- pow2_split by lia.
      replace (53 + (d - 53)) with d by lia. lia.
  - right. assert (E = -1074) by lia. split; [|assumption]. split.
    + unfold m1. replace 0 with (Py.round_half_even (0 * 2 ^ (E - e)) (2 ^ (E - e)))
        by (apply round_half_even_exact; assumption).
      apply round_half_even_mono; [assumption | lia].
    + unfold m1. apply round_half_even_upper; [assumption|].
      rewrite <- pow2_split by lia.
      assert (2 ^ d <= 2 ^ (52 + (E - e))) by (apply pow2_le; lia). lia.
Qed.

(** *** [binary_round] and [binary_normalize] *)

Lemma iter_xO_value (m d : positive) :
  Zpos (Pos.iter xO m d) = Zpos m * 2 ^ Zpos d.
Proof.
  change (Pos.iter xO m d) with (shift_pos d m).
  rewrite shift_pos_correct, Zpower_pos_powerRZ || rewrite shift_pos_correct.
  rewrite Z.mul_comm. reflexivity.
Qed.

Lemma binary_round_value s (m : positive) e :
  -1074 <= e ->
  let R := binary_round prec emax s m e in
  sval R = Some (sign_of s * Z.min (round53 0 (Zpos m * 2 ^ (e + 1074))) huge)
  /\ valid_binary R = true.
Proof.
  intros He R. subst R. unfold binary_round, shl_align.
  set (d := Zpos (digits2_pos m)).
  set (E := fexp64 (d + e)).
  assert (HE : E = Z.max (d + e - 53) (-1074)) by reflexivity.
  destruct (E - e) as [|k|k] eqn:Hk.
  - (* already at the target exponent *)
    pose proof (binary_round_aux_value s m e 0) as H. cbv zeta in H.
    rewrite Z.add_0_r in H. apply H; [lia | lia |]. fold d. fold E. lia.
  - pose proof (binary_round_aux_value s m e 0) as H. cbv zeta in H.
    rewrite Z.add_0_r in H. apply H; [lia | lia |]. fold d. fold E. lia.
  - (* the mantissa is shifted left to the target exponent *)
    assert (Hshift : e - E = Zpos k) by lia.
    pose proof (binary_round_aux_value s (Pos.iter xO m k) E 0) as H.
    cbv zeta in H. rewrite Z.add_0_r in H.
    assert (Hdig : Zpos (digits2_pos (Pos.iter xO m k)) = d + Zpos k).
    { rewrite digits2_log2, iter_xO_value, Z.log2_mul_pow2 by lia.
      unfold d. rewrite digits2_log2. lia. }
    rewrite Hdig in H.
    replace (d + Zpos k + E) with (d + e) in H by lia. fold E in H.
    rewrite Z.sub_diag in H.
    replace (Zpos (Pos.iter xO m k) * 2 ^ (E + 1074))
      with (Zpos m * 2 ^ (e + 1074)) in H.
    + apply H; lia.
    + rewrite iter_xO_value, <- Hshift, <- Z.mul_assoc.
      rewrite <- pow2_split by lia. f_equal. f_equal. lia.
Qed.

Lemma binary_normalize_value (N : Z) e szero :
  -1074 <= e ->
  let R := binary_normalize prec emax N e szero in
  sval R = Some (round_scaled (N * 2 ^ (e + 1074)))
  /\ valid_binary R = true.
Proof.
  intros He R. subst R.
  assert (Hp : 0 < 2 ^ (e + 1074)) by (apply pow2_pos; lia).
  destruct N as [|p|p]; cbn [binary_normalize].
  - split; reflexivity.
  - destruct (binary_round_value false p e He) as [Hv Hvalid].
    split; [|exact Hvalid]. rewrite Hv. f_equal.
    destruct (Zpos p * 2 ^ (e + 1074)) as [|q|q] eqn:Hq; try lia.
    cbn [round_scaled sign_of]. lia.
  - destruct (binary_round_value true p e He) as [Hv Hvalid].
    split; [|exact Hvalid]. rewrite Hv. f_equal.
    destruct (Zneg p * 2 ^ (e + 1074)) as [|q|q] eqn:Hq; try lia.
    cbn [round_scaled sign_of].
    replace (Zpos q) with (Zpos p * 2 ^ (e + 1074)) by lia. lia.
Qed.

(** *** Rounding is monotone and keeps doubles fixed *)

Lemma round53_nonneg B N : 0 <= B -> 0 < N -> 0 <= round53 B N.
Proof.
  intros HB HN. unfold round53.
  set (K := Z.max (Z.log2 N + 1 - 53) B).
  assert (HK : 0 <= K) by (unfold K; lia).
  apply Z.mul_nonneg_nonneg; [|apply Z.lt_le_incl, pow2_pos; unfold K; lia].
  apply (round_half_even_lower N (2 ^ K) 0); [apply pow2_pos; lia | lia].
Qed.

Lemma round53_mono B N1 N2 :
  0 <= B -> 0 < N1 <= N2 -> round53 B N1 <= round53 B N2.
Proof.
  intros HB [H1 H12]. unfold round53.
  set (K1 := Z.max (Z.log2 N1 + 1 - 53) B).
  set (K2 := Z.max (Z.log2 N2 + 1 - 53) B).
  pose proof (Z.log2_le_mono N1 N2 H12) as Hlog.
  pose proof (Z.log2_spec N1 H1) as Hs1.
  pose proof (Z.log2_spec N2 ltac:(lia)) as Hs2.
  pose proof (Z.log2_nonneg N1) as Hn1.
  assert (HK : K1 <= K2) by (unfold K1, K2; lia).
  assert (HK1 : B <= K1) by (unfold K1; lia).
  assert (Hp1 : 0 < 2 ^ K1) by (apply pow2_pos; lia).
  assert (Hp2 : 0 < 2 ^ K2) by (apply pow2_pos; lia).
  destruct (Z.eq_dec K1 K2) as [Heq | Hne].
  - rewrite <- Heq. apply Z.mul_le_mono_nonneg_r.
    + apply Z.lt_le_incl, pow2_pos. lia.
    + apply round_half_even_mono; assumption.
  - assert (HK2 : K2 = Z.log2 N2 + 1 - 53) by (unfold K1, K2 in *; lia).
    assert (Hup : Py.round_half_even N1 (2 ^ K1) <= 2 ^ 53).
    { apply round_half_even_upper; [assumption|].
      rewrite <- pow2_split by lia.
      assert (2 ^ Z.succ (Z.log2 N1) <= 2 ^ (53 + K1))
        by (apply pow2_le; unfold K1; lia).
      lia. }
    assert (Hlo : 2 ^ 52 <= Py.round_half_even N2 (2 ^ K2)).
    { apply round_half_even_lower; [assumption|].
      rewrite <- pow2_split by lia.
      replace (52 + K2) with (Z.log2 N2) by lia. lia. }
    assert (Hpow : 2 * 2 ^ (K1 - B) <= 2 ^ (K2 - B)).
    { replace (2 * 2 ^ (K1 - B)) with (2 ^ (1 + (K1 - B)))
        by (rewrite pow2_split by lia; reflexivity).
      apply pow2_le. lia. }
    assert (Hq1 : 0 < 2 ^ (K1 - B)) by (apply pow2_pos; lia).
    change (2 ^ 53) with (2 * 2 ^ 52) in Hup.
    assert (H52 : 0 < 2 ^ 52) by (apply pow2_pos; lia).
    clearbody K1 K2. clear - Hup Hlo Hpow Hq1 H52. nia.
Qed.

(** A canonical mantissa and exponent are left as they are. *)
Lemma round53_canonical (m : positive) e :
  fexp64 (Zpos (digits2_pos m) + e) = e ->
  round53 0 (Zpos m * 2 ^ (e + 1074)) = Zpos m * 2 ^ (e + 1074).
Proof.
  intros Hcanon. rewrite fexp64_eq in Hcanon.
  unfold round53. rewrite Z.log2_mul_pow2 by lia.
  replace (Z.max (e + 1074 + Z.log2 (Zpos m) + 1 - 53) 0) with (e + 1074)
    by (rewrite digits2_log2 in Hcanon; lia).
  rewrite round_half_even_exact by (apply pow2_pos; lia).
  rewrite Z.sub_0_r. reflexivity.
Qed.

Lemma round_scaled_opp N : round_scaled (- N) = - round_scaled N.
Proof. destruct N; cbn; lia. Qed.

Lemma round_scaled_sign N :
  (0 < N -> 0 <= round_scaled N) /\ (N < 0 -> round_scaled N <= 0).
Proof.
  assert (Hh : 0 < huge) by (apply pow2_pos; lia).
  destruct N as [|p|p]; cbn [round_scaled]; split; intros; try lia.
  - pose proof (round53_nonneg 0 (Zpos p)). lia.
  - pose proof (round53_nonneg 0 (Zpos p)). lia.
Qed.

Lemma round_scaled_mono N1 N2 :
  N1 <= N2 -> round_scaled N1 <= round_scaled N2.
Proof.
  intros H.
  pose proof (round_scaled_sign N1) as [Hp1 Hn1].
  pose proof (round_scaled_sign N2) as [Hp2 Hn2].
  destruct N1 as [|p1|p1], N2 as [|p2|p2]; try lia;
    try (cbn [round_scaled] in *; lia).
  - cbn [round_scaled].
    pose proof (round53_mono 0 (Zpos p1) (Zpos p2)). lia.
  - cbn [round_scaled].
    pose proof (round53_mono 0 (Zpos p2) (Zpos p1)). lia.
Qed.

Lemma round_scaled_bound N : - huge <= round_scaled N <= huge.
Proof.
  assert (Hh : 0 < huge) by (apply pow2_pos; lia).
  pose proof (round_scaled_sign N) as [Hp Hn].
  destruct N as [|p|p]; cbn [round_scaled] in *; lia.
Qed.

(** *** Valid floats and their order *)

Lemma some_inj {A : Type} (a b : A) : Some a = Some b -> a = b.
Proof. congruence. Qed.

Lemma valid_finite s m e :
  valid_binary (S754_finite s m e) = true ->
  fexp64 (Zpos (digits2_pos m) + e) = e
  /\ -1074 <= e <= 971
  /\ 0 < Zpos m * 2 ^ (e + 1074) < huge
  /\ Zpos m < 2 ^ 53
  /\ (-1074 < e -> 2 ^ 52 <= Zpos m).
Proof.
  cbn [valid_binary]. unfold bounded, canonical_mantissa.
  rewrite andb_true_iff, Z.eqb_eq, Z.leb_le. change (emax - prec) with 971.
  intros [Hcanon Hmax]. pose proof Hcanon as Hc. rewrite fexp64_eq in Hc.
  pose proof (digits2_bounds m) as Hd.
  set (d := Zpos (digits2_pos m)) in *.
  assert (Hd53 : d <= 53) by lia.
  assert (Hlt : Zpos m < 2 ^ 53).
  { assert (2 ^ d <= 2 ^ 53) by (apply pow2_le; unfold d; lia). lia. }
  assert (Hpos : 0 < 2 ^ (e + 1074)) by (apply pow2_pos; lia).
  split; [exact Hcanon|]. split; [lia|]. split; [|split; [exact Hlt|]].
  - split; [lia|].
    assert (2 ^ (e + 1074) <= 2 ^ 2045) by (apply pow2_le; lia).
    rewrite (huge_split 53) by lia. change (2098 - 53) with 2045.
    clearbody d. clear - Hlt Hpos H. nia.
  - intros He. assert (d = 53) by lia. subst d.
    replace 52 with (Zpos (digits2_pos m) - 1) by lia. lia.
Qed.

Lemma sval_bound x a :
  valid_binary x = true -> sval x = Some a -> - huge <= a <= huge.
Proof.
  assert (Hh : 0 < huge) by (apply pow2_pos; lia).
  destruct x as [s|s| |s m e]; unfold sval; intros Hv Ha; try discriminate Ha;
    apply some_inj in Ha; subst;
    try (destruct s; unfold sign_of; lia).
  apply valid_finite in Hv as (_ & _ & Hb & _).
  set (v := Zpos m * 2 ^ (e + 1074)) in *. clearbody v.
  destruct s; unfold sign_of; lia.
Qed.

Ltac compare_values :=
  f_equal; symmetry;
  first [ apply Z.compare_eq_iff; lia
        | apply Z.compare_lt_iff; lia
        | apply Z.compare_gt_iff; lia ].

(** On valid floats [SFcompare] compares values. *)
Lemma sval_compare x y :
  valid_binary x = true -> valid_binary y = true ->
  SFcompare x y
  = match sval x, sval y with
    | Some a, Some b => Some (a ?= b)
    | _, _ => None
    end.
Proof.
  assert (Hh : 0 < huge) by (apply pow2_pos; lia).
  intros Hx Hy.
  destruct x as [sx|sx| |sx mx ex], y as [sy|sy| |sy my ey];
    unfold SFcompare, sval; try reflexivity.
  - destruct sy; unfold sign_of; compare_values.
  - apply valid_finite in Hy as (_ & _ & Hb & _).
    destruct sy; unfold sign_of; compare_values.
  - destruct sx; unfold sign_of; compare_values.
  - destruct sx, sy; unfold sign_of; compare_values.
  - apply valid_finite in Hy as (_ & _ & Hb & _).
    destruct sx, sy; unfold sign_of; compare_values.
  - apply valid_finite in Hx as (_ & _ & Hb & _).
    destruct sx; unfold sign_of; compare_values.
  - apply valid_finite in Hx as (_ & _ & Hb & _).
    destruct sx, sy; unfold sign_of; compare_values.
  - (* finite, finite *)
    apply valid_finite in Hx as (_ & Hex & Hbx & Hmx & Hnx).
    apply valid_finite in Hy as (_ & Hey & Hby & Hmy & Hny).
    assert (Hcmp : (match ex ?= ey with
                    | Eq => Pos.compare_cont Eq mx my
                    | Lt => Lt
                    | Gt => Gt
                    end)
                   = (Zpos mx * 2 ^ (ex + 1074) ?= Zpos my * 2 ^ (ey + 1074))).
    { assert (Hstep : forall m1 e1 m2 e2,
                -1074 <= e1 -> e1 < e2 -> Zpos m1 < 2 ^ 53 ->
                2 ^ 52 <= Zpos m2 ->
                Zpos m1 * 2 ^ (e1 + 1074) < Zpos m2 * 2 ^ (e2 + 1074)).
      { intros m1 e1 m2 e2 H1 H12 Hm1 Hm2.
        assert (Hp : 0 < 2 ^ (e1 + 1074)) by (apply pow2_pos; lia).
        assert (Hq : 2 * 2 ^ (e1 + 1074) <= 2 ^ (e2 + 1074)).
        { replace (2 * 2 ^ (e1 + 1074)) with (2 ^ (1 + (e1 + 1074)))
            by (rewrite pow2_split by lia; reflexivity).
          apply pow2_le. lia. }
        change (2 ^ 53) with (2 * 2 ^ 52) in Hm1.
        assert (0 < 2 ^ 52) by (apply pow2_pos; lia). nia. }
      destruct (Z.compare_spec ex ey) as [-> | Hlt | Hgt]; symmetry.
      - change (Pos.compare_cont Eq mx my) with (Zpos mx ?= Zpos my).
        symmetry. apply Zmult_compare_compat_r; lia.
      - apply Z.compare_lt_iff. apply Hstep; lia.
      - apply Z.compare_gt_iff. apply Hstep; lia. }
    set (vx := Zpos mx * 2 ^ (ex + 1074)) in *.
    set (vy := Zpos my * 2 ^ (ey + 1074)) in *.
    destruct sx, sy; unfold sign_of.
    + replace (-1 * vx) with (- vx) by lia.
      replace (-1 * vy) with (- vy) by lia.
      rewrite Z.compare_opp, (Z.compare_antisym vx vy), <- Hcmp.
      destruct (ex ?= ey); reflexivity.
    + compare_values.
    + compare_values.
    + rewrite Hcmp, !Z.mul_1_l. reflexivity.
Qed.

(** Valid floats are fixed points of rounding. *)
Lemma round_scaled_fixed x a :
  valid_binary x = true -> sval x = Some a -> round_scaled a = a.
Proof.
  intros Hv. destruct x as [s|s| |s m e]; unfold sval; intros Ha;
    try apply some_inj in Ha; subst; try discriminate.
  - reflexivity.
  - destruct s; vm_compute; reflexivity.
  - apply valid_finite in Hv as (Hcanon & _ & Hb & _).
    pose proof (round53_canonical m e Hcanon) as Hr.
    destruct s; unfold sign_of.
    + replace (-1 * (Zpos m * 2 ^ (e + 1074)))
        with (- (Zpos m * 2 ^ (e + 1074))) by lia.
      rewrite round_scaled_opp.
      destruct (Zpos m * 2 ^ (e + 1074)) as [|p|p] eqn:Hp; try lia.
      cbn [round_scaled]. lia.
    + rewrite Z.mul_1_l.
      destruct (Zpos m * 2 ^ (e + 1074)) as [|p|p] eqn:Hp; try lia.
      cbn [round_scaled]. lia.
Qed.

(** *** Primitive floats by value *)

Lemma fval_bound x a : fval x = Some a -> - huge <= a <= huge.
Proof. apply sval_bound. apply Prim2SF_valid. Qed.

Lemma fval_fixed x a : fval x = Some a -> round_scaled a = a.
Proof. apply round_scaled_fixed. apply Prim2SF_valid. Qed.

Lemma fval_compare x y :
  SFcompare (Prim2SF x) (Prim2SF y)
  = match fval x, fval y with
    | Some a, Some b => Some (a ?= b)
    | _, _ => None
    end.
Proof. apply sval_compare; apply Prim2SF_valid. Qed.

Lemma ltb_fval x y :
  (x <? y)%float
  = match fval x, fval y with
    | Some a, Some b => a <? b
    | _, _ => false
    end.
Proof.
  rewrite ltb_spec. unfold SFltb. rewrite fval_compare.
  destruct (fval x) as [a|], (fval y) as [b|]; reflexivity.
Qed.

Lemma leb_fval x y :
  (x <=? y)%float
  = match fval x, fval y with
    | Some a, Some b => a <=? b
    | _, _ => false
    end.
Proof.
  rewrite leb_spec. unfold SFleb. rewrite fval_compare.
  destruct (fval x) as [a|], (fval y) as [b|]; reflexivity.
Qed.

Lemma eqb_fval x y :
  (x =? y)%float
  = match fval x, fval y with
    | Some a, Some b => a =? b
    | _, _ => false
    end.
Proof.
  rewrite eqb_spec. unfold SFeqb. rewrite fval_compare.
  destruct (fval x) as [a|], (fval y) as [b|]; try reflexivity.
  destruct (Z.eqb_spec a b) as [-> | Hne].
  - rewrite Z.compare_refl. reflexivity.
  - destruct (Z.compare_spec a b); [contradiction | reflexivity..].
Qed.

Lemma ltb_true x y :
  (x <? y)%float = true <->
  exists a b, fval x = Some a /\ fval y = Some b /\ a < b.
Proof.
  rewrite ltb_fval. split.
  - destruct (fval x) as [a|], (fval y) as [b|]; try discriminate.
    intros H. exists a, b. repeat split. lia.
  - intros (a & b & -> & -> & H). apply Z.ltb_lt. exact H.
Qed.

Lemma leb_true x y :
  (x <=? y)%float = true <->
  exists a b, fval x = Some a /\ fval y = Some b /\ a <= b.
Proof.
  rewrite leb_fval. split.
  - destruct (fval x) as [a|], (fval y) as [b|]; try discriminate.
    intros H. exists a, b. repeat split. lia.
  - intros (a & b & -> & -> & H). apply Z.leb_le. exact H.
Qed.

Lemma shl_align_value m ex ez :
  ez <= ex -> Zpos (fst (shl_align m ex ez)) = Zpos m * 2 ^ (ex - ez).
Proof.
  intros H. unfold shl_align.
  destruct (ez - ex) as [|k|k] eqn:Hk; cbn [fst].
  - replace (ex - ez) with 0 by lia. lia.
  - lia.
  - rewrite iter_xO_value. f_equal. f_equal. lia.
Qed.

Lemma huge_pos : 0 < huge.
Proof. apply pow2_pos. lia. Qed.

Lemma cond_Zopp_sign s v : cond_Zopp s v = sign_of s * v.
Proof. destruct s; unfold cond_Zopp, sign_of; lia. Qed.

Lemma aligned_value s m ex ez :
  -1074 <= ez -> ez <= ex ->
  cond_Zopp s (Zpos (fst (shl_align m ex ez))) * 2 ^ (ez + 1074)
  = sign_of s * (Zpos m * 2 ^ (ex + 1074)).
Proof.
  intros H1 H2. rewrite cond_Zopp_sign, shl_align_value by assumption.
  replace (ex + 1074) with (ex - ez + (ez + 1074)) by lia.
  rewrite (pow2_split (ex - ez) (ez + 1074)) by lia. ring.
Qed.

Lemma ext_add_finite a b :
  - huge < a < huge -> - huge < b < huge ->
  ext_add a b = Some (round_scaled (a + b)).
Proof.
  intros Ha Hb. unfold ext_add.
  repeat match goal with |- context [?u =? ?v] =>
    destruct (Z.eqb_spec u v); try lia end.
  reflexivity.
Qed.

Lemma ext_add_inf_r a s :
  - huge < a < huge -> ext_add a (sign_of s * huge) = Some (sign_of s * huge).
Proof.
  pose proof huge_pos as Hh. intros Ha. unfold ext_add.
  destruct s; unfold sign_of;
    repeat match goal with |- context [?u =? ?v] =>
      destruct (Z.eqb_spec u v); try lia end;
    f_equal; lia.
Qed.

Lemma ext_add_inf_l b s :
  - huge < b < huge -> ext_add (sign_of s * huge) b = Some (sign_of s * huge).
Proof.
  pose proof huge_pos as Hh. intros Hb. unfold ext_add.
  destruct s; unfold sign_of;
    repeat match goal with |- context [?u =? ?v] =>
      destruct (Z.eqb_spec u v); try lia end;
    f_equal; lia.
Qed.

Lemma finite_value_range s m e :
  valid_binary (S754_finite s m e) = true ->
  - huge < sign_of s * (Zpos m * 2 ^ (e + 1074)) < huge.
Proof.
  intros Hv. apply valid_finite in Hv as (_ & _ & Hb & _).
  set (v := Zpos m * 2 ^ (e + 1074)) in *. clearbody v.
  destruct s; unfold sign_of; lia.
Qed.

Lemma SFadd_value x y a b :
  valid_binary x = true -> valid_binary y = true ->
  sval x = Some a -> sval y = Some b ->
  sval (SFadd prec emax x y) = ext_add a b.
Proof.
  intros Hx Hy Ha Hb.
  pose proof (round_scaled_fixed x a Hx Ha) as Hfa.
  pose proof (round_scaled_fixed y b Hy Hb) as Hfb.
  destruct x as [sx|sx| |sx mx ex], y as [sy|sy| |sy my ey];
    unfold sval in Ha, Hb; try discriminate;
    apply some_inj in Ha; apply some_inj in Hb.
  - subst. destruct sx, sy; vm_compute; reflexivity.
  - subst. destruct sx, sy; vm_compute; reflexivity.
  - (* zero, finite *)
    pose proof (finite_value_range _ _ _ Hy) as Hr. rewrite Hb in Hr.
    subst a. rewrite ext_add_finite by (pose proof huge_pos; lia).
    rewrite Z.add_0_l, Hfb, <- Hb. reflexivity.
  - subst. destruct sx, sy; vm_compute; reflexivity.
  - subst. destruct sx, sy; vm_compute; reflexivity.
  - (* infinity, finite *)
    pose proof (finite_value_range _ _ _ Hy) as Hr. rewrite Hb in Hr.
    subst a. rewrite ext_add_inf_l by exact Hr. reflexivity.
  - (* finite, zero *)
    pose proof (finite_value_range _ _ _ Hx) as Hr. rewrite Ha in Hr.
    subst b. rewrite ext_add_finite by (pose proof huge_pos; lia).
    rewrite Z.add_0_r, Hfa, <- Ha. reflexivity.
  - (* finite, infinity *)
    pose proof (finite_value_range _ _ _ Hx) as Hr. rewrite Ha in Hr.
    subst b. rewrite ext_add_inf_r by exact Hr. reflexivity.
  - (* finite, finite *)
    pose proof (finite_value_range _ _ _ Hx) as Hrx. rewrite Ha in Hrx.
    pose proof (finite_value_range _ _ _ Hy) as Hry. rewrite Hb in Hry.
    apply valid_finite in Hx as (_ & Hex & _).
    apply valid_finite in Hy as (_ & Hey & _).
    cbn [SFadd].
    destruct (binary_normalize_value
                (cond_Zopp sx (Zpos (fst (shl_align mx ex (Z.min ex ey))))
                 + cond_Zopp sy (Zpos (fst (shl_align my ey (Z.min ex ey)))))
                (Z.min ex ey) false ltac:(lia)) as [Hv _].
    rewrite Hv, Z.mul_add_distr_r, !aligned_value by lia.
    rewrite Ha, Hb, ext_add_finite by assumption. reflexivity.
Qed.

Lemma sign_of_negb s v : sign_of (negb s) * v = - (sign_of s * v).
Proof. destruct s; unfold sign_of; cbn [negb]; lia. Qed.

Lemma SFsub_value x y a b :
  valid_binary x = true -> valid_binary y = true ->
  sval x = Some a -> sval y = Some b ->
  sval (SFsub prec emax x y) = ext_sub a b.
Proof.
  intros Hx Hy Ha Hb. unfold ext_sub.
  pose proof (round_scaled_fixed x a Hx Ha) as Hfa.
  pose proof (round_scaled_fixed y b Hy Hb) as Hfb.
  destruct x as [sx|sx| |sx mx ex], y as [sy|sy| |sy my ey];
    unfold sval in Ha, Hb; try discriminate;
    apply some_inj in Ha; apply some_inj in Hb.
  - subst. destruct sx, sy; vm_compute; reflexivity.
  - subst. destruct sx, sy; vm_compute; reflexivity.
  - (* zero, finite *)
    pose proof (finite_value_range _ _ _ Hy) as Hr. rewrite Hb in Hr.
    subst a. rewrite ext_add_finite by (pose proof huge_pos; lia).
    rewrite Z.add_0_l, round_scaled_opp, Hfb, <- Hb.
    cbn [SFsub]. unfold sval. rewrite sign_of_negb. reflexivity.
  - subst. destruct sx, sy; vm_compute; reflexivity.
  - subst. destruct sx, sy; vm_compute; reflexivity.
  - (* infinity, finite *)
    pose proof (finite_value_range _ _ _ Hy) as Hr. rewrite Hb in Hr.
    subst a. rewrite ext_add_inf_l by lia. reflexivity.
  - (* finite, zero *)
    pose proof (finite_value_range _ _ _ Hx) as Hr. rewrite Ha in Hr.
    subst b. rewrite ext_add_finite by (pose proof huge_pos; lia).
    rewrite Z.add_0_r, Hfa, <- Ha. reflexivity.
  - (* finite, infinity *)
    pose proof (finite_value_range _ _ _ Hx) as Hr. rewrite Ha in Hr.
    subst b. rewrite <- sign_of_negb, ext_add_inf_r by exact Hr.
    reflexivity.
  - (* finite, finite *)
    pose proof (finite_value_range _ _ _ Hx) as Hrx. rewrite Ha in Hrx.
    pose proof (finite_value_range _ _ _ Hy) as Hry. rewrite Hb in Hry.
    apply valid_finite in Hx as (_ & Hex & _).
    apply valid_finite in Hy as (_ & Hey & _).
    cbn [SFsub].
    destruct (binary_normalize_value
                (cond_Zopp sx (Zpos (fst (shl_align mx ex (Z.min ex ey))))
                 - cond_Zopp sy (Zpos (fst (shl_align my ey (Z.min ex ey)))))
                (Z.min ex ey) false ltac:(lia)) as [Hv _].
    rewrite Hv, Z.mul_sub_distr_r, !aligned_value by lia.
    rewrite Ha, Hb, ext_add_finite by lia. reflexivity.
Qed.

Lemma add_fval x y :
  fval (x + y)
  = match fval x, fval y with
    | Some a, Some b => ext_add a b
    | _, _ => None
    end.
Proof.
  unfold fval. rewrite add_spec.
  destruct (sval (Prim2SF x)) as [a|] eqn:Ha.
  - destruct (sval (Prim2SF y)) as [b|] eqn:Hb.
    + apply SFadd_value; auto using Prim2SF_valid.
    + destruct (Prim2SF y); try discriminate.
      destruct (Prim2SF x); reflexivity.
  - destruct (Prim2SF x); try discriminate. reflexivity.
Qed.

Lemma sub_fval x y :
  fval (x - y)
  = match fval x, fval y with
    | Some a, Some b => ext_sub a b
    | _, _ => None
    end.
Proof.
  unfold fval. rewrite sub_spec.
  destruct (sval (Prim2SF x)) as [a|] eqn:Ha.
  - destruct (sval (Prim2SF y)) as [b|] eqn:Hb.
    + apply SFsub_value; auto using Prim2SF_valid.
    + destruct (Prim2SF y); try discriminate.
      destruct (Prim2SF x); reflexivity.
  - destruct (Prim2SF x); try discriminate. reflexivity.
Qed.

(** *** The clamped payment *)

Ltac decide_eqb :=
  repeat match goal with
         | |- context [?u =? ?v] => destruct (Z.eqb_spec u v); try lia
         | H : context [?u =? ?v] |- _ => destruct (Z.eqb_spec u v); try lia
         end.

Lemma ext_add_huge_l b : b <> - huge -> ext_add huge b = Some huge.
Proof.
  pose proof huge_pos. intros Hb. unfold ext_add. decide_eqb. reflexivity.
Qed.

Lemma ext_add_neg_huge_l b : b <> huge -> ext_add (- huge) b = Some (- huge).
Proof.
  pose proof huge_pos. intros Hb. unfold ext_add. decide_eqb. reflexivity.
Qed.

Lemma ext_add_huge_r a : - huge < a < huge -> ext_add a huge = Some huge.
Proof.
  pose proof huge_pos. intros Ha. unfold ext_add. decide_eqb. reflexivity.
Qed.

Lemma ext_add_neg_huge_r a :
  - huge < a < huge -> ext_add a (- huge) = Some (- huge).
Proof.
  pose proof huge_pos. intros Ha. unfold ext_add. decide_eqb. reflexivity.
Qed.

Lemma ext_add_cases a b s :
  - huge <= a <= huge -> - huge <= b <= huge ->
  ext_add a b = Some s ->
  (a = huge /\ b <> - huge /\ s = huge)
  \/ (a = - huge /\ b <> huge /\ s = - huge)
  \/ (- huge < a < huge /\ b = huge /\ s = huge)
  \/ (- huge < a < huge /\ b = - huge /\ s = - huge)
  \/ (- huge < a < huge /\ - huge < b < huge
      /\ s = round_scaled (a + b)).
Proof.
  pose proof huge_pos. intros Ha Hb. unfold ext_add.
  destruct (Z.eqb_spec a huge).
  { destruct (Z.eqb_spec b (- huge)); [discriminate|].
    intros Hs. apply some_inj in Hs. lia. }
  destruct (Z.eqb_spec a (- huge)).
  { destruct (Z.eqb_spec b huge); [discriminate|].
    intros Hs. apply some_inj in Hs. lia. }
  destruct (Z.eqb_spec b huge).
  { intros Hs. apply some_inj in Hs. lia. }
  destruct (Z.eqb_spec b (- huge)).
  { intros Hs. apply some_inj in Hs. lia. }
  intros Hs. apply some_inj in Hs. lia.
Qed.

(** When the unclamped principal component [payment - i] exceeds the
    balance [b], interest plus balance does not exceed the payment. *)
Lemma clamped_payment_le (payment i b : float) :
  (b <? payment - i)%float = true -> (i + b <=? payment)%float = true.
Proof.
  pose proof huge_pos as Hh.
  intros H. apply ltb_true in H as (vb & vpc & Hb & Hpc & Hlt).
  rewrite sub_fval in Hpc.
  destruct (fval payment) as [vp|] eqn:Hp; [|discriminate].
  destruct (fval i) as [vi|] eqn:Hi; [|discriminate].
  pose proof (fval_bound _ _ Hp) as Bp.
  pose proof (fval_bound _ _ Hi) as Bi.
  pose proof (fval_bound _ _ Hb) as Bb.
  pose proof (fval_fixed _ _ Hp) as Fp.
  pose proof (fval_fixed _ _ Hb) as Fb.
  apply leb_true. rewrite add_fval, Hi, Hb.
  assert (Hgoal : exists s, ext_add vi vb = Some s /\ s <= vp).
  { unfold ext_sub in Hpc.
    apply ext_add_cases in Hpc
      as [(Ep & Ei & Es) | [(Ep & Ei & Es) | [(Ep & Ei & Es)
          | [(Ep & Ei & Es) | (Ep & Ei & Es)]]]]; try lia.
    - (* an infinite payment *)
      destruct (Z.eq_dec vi (- huge)) as [-> | Hi1].
      + exists (- huge). split; [apply ext_add_neg_huge_l | ]; lia.
      + destruct (Z.eq_dec vb (- huge)) as [-> | Hb1].
        * exists (- huge). split; [apply ext_add_neg_huge_r | ]; lia.
        * exists (round_scaled (vi + vb)).
          split; [apply ext_add_finite; lia|].
          pose proof (round_scaled_bound (vi + vb)). lia.
    - (* interest is minus infinity *)
      exists (- huge). split; [|lia].
      replace vi with (- huge) by lia. apply ext_add_neg_huge_l. lia.
    - (* payment and interest are finite *)
      destruct (Z.eq_dec vb (- huge)) as [-> | Hb1].
      + exists (- huge). split; [apply ext_add_neg_huge_r | ]; lia.
      + exists (round_scaled (vi + vb)).
        pose proof (round_scaled_bound (vp + - vi)).
        split; [apply ext_add_finite; lia|].
        assert (Hexact : vb < vp - vi).
        { destruct (Z.lt_ge_cases vb (vp - vi)) as [?|Hge]; [assumption|].
          pose proof (round_scaled_mono (vp + - vi) vb ltac:(lia)). lia. }
        pose proof (round_scaled_mono (vi + vb) vp ltac:(lia)). lia. }
  destruct Hgoal as (s & Hs & Hle). exists s, vp. repeat split; assumption.
Qed.

(** ** Float comparisons *)

Lemma eqb_zero_not_pos (x : float) :
  (x =? 0)%float = true -> (0 <? x)%float = false.
Proof.
  rewrite eqb_spec, ltb_spec.
  change (Prim2SF 0) with (S754_zero false).
  destruct (Prim2SF x) as [s|s| |s m e]; cbn; try discriminate; try reflexivity.
  - destruct s; discriminate.
  - destruct s; discriminate.
Qed.


Lemma pos_not_leb_zero (x : float) :
  (0 <? x)%float = true -> (x <=? 0)%float = false.
Proof.
  rewrite ltb_spec, leb_spec. change (Prim2SF 0) with (S754_zero false).
  destruct (Prim2SF x) as [s|s| |s m e]; cbn; try discriminate;
    destruct s; try discriminate; reflexivity.
Qed.

Lemma nonneg_not_ltb_zero (x : float) :
  (0 <=? x)%float = true -> (x <? 0)%float = false.
Proof.
  rewrite ltb_spec, leb_spec. change (Prim2SF 0) with (S754_zero false).
  destruct (Prim2SF x) as [s|s| |s m e]; cbn; try discriminate;
    destruct s; try discriminate; reflexivity.
Qed.

(** *** Signs *)







(** *** [float(n)] *)

Lemma round_scaled_pos N : 0 < N -> 0 < round_scaled N.
Proof.
  intros HN. destruct N as [|p|p]; try lia. cbn [round_scaled].
  pose proof huge_pos.
  assert (0 < round53 0 (Zpos p)); [|lia].
  unfold round53. set (K := Z.max (Z.log2 (Zpos p) + 1 - 53) 0).
  pose proof (Z.log2_spec (Zpos p) eq_refl) as [Hlo _].
  assert (HK : 0 <= K <= Z.log2 (Zpos p))
    by (pose proof (Z.log2_nonneg (Zpos p)); unfold K; lia).
  assert (Hp : 0 < 2 ^ K) by (apply pow2_pos; lia).
  assert (Hle : 2 ^ K <= 2 ^ Z.log2 (Zpos p)) by (apply pow2_le; lia).
  assert (1 <= Py.round_half_even (Zpos p) (2 ^ K))
    by (apply round_half_even_lower; lia).
  rewrite Z.sub_0_r. clearbody K. nia.
Qed.

Lemma ok_inj {A : Type} (a b : A) : Ok a = Ok b -> a = b.
Proof. congruence. Qed.

Lemma float_of_int_value n nf :
  Py.float_of_int n = Ok nf ->
  fval nf = Some (round_scaled (n * 2 ^ 1074))
  /\ - huge < round_scaled (n * 2 ^ 1074) < huge.
Proof.
  unfold Py.float_of_int.
  destruct (binary_normalize_value n 0 false ltac:(lia)) as [Hv Hvalid].
  change (0 + 1074) with 1074 in Hv.
  set (N := round_scaled (n * 2 ^ 1074)) in *. clearbody N.
  destruct (binary_normalize prec emax n 0 false) as [s|s| |s m e] eqn:HR;
    try discriminate; intros H; apply ok_inj in H; subst nf;
    unfold fval; rewrite Prim2SF_SF2Prim by exact Hvalid;
    (split; [exact Hv|]).
  - unfold sval in Hv. apply some_inj in Hv. pose proof huge_pos. lia.
  - pose proof (finite_value_range _ _ _ Hvalid) as Hr.
    unfold sval in Hv. apply some_inj in Hv. rewrite Hv in Hr. exact Hr.
Qed.

Lemma float_of_int_pos n nf :
  0 < n -> Py.float_of_int n = Ok nf ->
  exists v, fval nf = Some v /\ 0 < v < huge.
Proof.
  intros Hn H. apply float_of_int_value in H as [Hv Hr].
  exists (round_scaled (n * 2 ^ 1074)). split; [exact Hv|].
  split; [|lia]. apply round_scaled_pos.
  assert (0 < 2 ^ 1074) by (apply pow2_pos; lia). nia.
Qed.

(** *** Multiplication *)

Lemma round_product_sign P :
  (0 <= P -> 0 <= round_product P) /\ (P <= 0 -> round_product P <= 0).
Proof.
  pose proof huge_pos.
  destruct P as [|p|p]; cbn [round_product]; split; intros; try lia;
    pose proof (round53_nonneg 1074 (Zpos p)); lia.
Qed.

Lemma round_product_mono P1 P2 :
  P1 <= P2 -> round_product P1 <= round_product P2.
Proof.
  intros H.
  pose proof (round_product_sign P1) as [Hp1 Hn1].
  pose proof (round_product_sign P2) as [Hp2 Hn2].
  destruct P1 as [|p1|p1], P2 as [|p2|p2]; try lia;
    try (cbn [round_product] in *; lia).
  - cbn [round_product].
    pose proof (round53_mono 1074 (Zpos p1) (Zpos p2)). lia.
  - cbn [round_product].
    pose proof (round53_mono 1074 (Zpos p2) (Zpos p1)). lia.
Qed.

Lemma round_product_bound P : - huge <= round_product P <= huge.
Proof.
  pose proof huge_pos.
  pose proof (round_product_sign P) as [Hp Hn].
  destruct P as [|p|p]; cbn [round_product] in *; lia.
Qed.

Lemma SFmul_value x y a b :
  valid_binary x = true -> valid_binary y = true ->
  sval x = Some a -> sval y = Some b ->
  - huge < a < huge -> - huge < b < huge ->
  sval (SFmul prec emax x y) = Some (round_product (a * b)).
Proof.
  pose proof huge_pos as Hh.
  intros Hx Hy Ha Hb Ra Rb.
  destruct x as [sx|sx| |sx mx ex], y as [sy|sy| |sy my ey];
    unfold sval in Ha, Hb; try discriminate;
    apply some_inj in Ha; apply some_inj in Hb;
    try (exfalso; subst; destruct sx; unfold sign_of in *; lia);
    try (exfalso; subst; destruct sy; unfold sign_of in *; lia).
  - subst. reflexivity.
  - subst a. rewrite Z.mul_0_l. reflexivity.
  - subst b. rewrite Z.mul_0_r. reflexivity.
  - (* finite, finite *)
    pose proof (valid_finite _ _ _ Hx) as (Hcx & Hex & Hbx & _).
    pose proof (valid_finite _ _ _ Hy) as (Hcy & Hey & Hby & _).
    rewrite fexp64_eq in Hcx, Hcy.
    cbn [SFmul].
    assert (Hdig : Zpos (digits2_pos mx) + Zpos (digits2_pos my) - 1
                   <= Zpos (digits2_pos (mx * my))).
    { rewrite !digits2_log2, Pos2Z.inj_mul.
      pose proof (Z.log2_mul_below (Zpos mx) (Zpos my) eq_refl eq_refl).
      lia. }
    destruct (binary_round_aux_value (xorb sx sy) (mx * my) (ex + ey) 1074)
      as [Hv _]; [lia | lia | rewrite fexp64_eq; lia |].
    rewrite Hv. f_equal.
    set (vx := Zpos mx * 2 ^ (ex + 1074)) in *.
    set (vy := Zpos my * 2 ^ (ey + 1074)) in *.
    assert (HN : Zpos (mx * my) * 2 ^ (ex + ey + 1074 + 1074) = vx * vy).
    { unfold vx, vy. rewrite Pos2Z.inj_mul.
      replace (ex + ey + 1074 + 1074) with ((ex + 1074) + (ey + 1074)) by lia.
      rewrite pow2_split by lia. ring. }
    rewrite HN.
    assert (Hpos : 0 < vx * vy) by (clearbody vx vy; nia).
    subst a b.
    destruct (vx * vy) as [|p|p] eqn:Hp; try lia.
    destruct sx, sy; unfold sign_of; cbn [xorb].
    + replace (-1 * vx * (-1 * vy)) with (vx * vy) by ring.
      rewrite Hp. cbn [round_product]. lia.
    + replace (-1 * vx * (1 * vy)) with (- (vx * vy)) by ring.
      rewrite Hp. cbn [round_product Z.opp]. lia.
    + replace (1 * vx * (-1 * vy)) with (- (vx * vy)) by ring.
      rewrite Hp. cbn [round_product Z.opp]. lia.
    + replace (1 * vx * (1 * vy)) with (vx * vy) by ring.
      rewrite Hp. cbn [round_product]. lia.
Qed.

Lemma mul_fval x y a b :
  fval x = Some a -> fval y = Some b ->
  - huge < a < huge -> - huge < b < huge ->
  fval (x * y) = Some (round_product (a * b)).
Proof.
  intros Ha Hb Ra Rb. unfold fval. rewrite mul_spec.
  apply SFmul_value; auto using Prim2SF_valid.
Qed.

(** *** Rounding a ratio *)

Lemma round_half_even_ratio a b a' b' :
  0 < b -> 0 < b' -> a * b' = a' * b ->
  Py.round_half_even a b = Py.round_half_even a' b'.
Proof.
  intros Hb Hb' H.
  rewrite <- (round_half_even_scale a b b'), <- (round_half_even_scale a' b' b)
    by assumption.
  rewrite H. f_equal. lia.
Qed.

Lemma log2_succ_le Q : 0 <= Q -> Q + 1 <= 2 ^ (Z.log2 Q + 1).
Proof.
  intros HQ. destruct (Z.eq_dec Q 0) as [-> | Hne].
  - cbn. lia.
  - pose proof (Z.log2_spec Q ltac:(lia)) as [_ H].
    replace (Z.succ (Z.log2 Q)) with (Z.log2 Q + 1) in H by lia. lia.
Qed.

Lemma round53q_mono B N1 N2 D :
  0 <= B -> 0 < D -> 0 <= N1 <= N2 -> round53q B N1 D <= round53q B N2 D.
Proof.
  intros HB HD [H1 H12]. unfold round53q.
  set (Q1 := N1 / D). set (Q2 := N2 / D).
  assert (HQ1 : 0 <= Q1) by (apply Z.div_pos; lia).
  assert (HQ12 : Q1 <= Q2) by (apply Z.div_le_mono; lia).
  assert (HN1 : N1 < D * (Q1 + 1)).
  { unfold Q1. pose proof (Z.mod_pos_bound N1 D HD).
    rewrite (Z.div_mod N1 D) at 1 by lia. lia. }
  assert (HN2 : D * Q2 <= N2).
  { unfold Q2. pose proof (Z.mod_pos_bound N2 D HD).
    rewrite (Z.div_mod N2 D) at 2 by lia. lia. }
  set (K1 := Z.max (Z.log2 Q1 + 1 - 53) B).
  set (K2 := Z.max (Z.log2 Q2 + 1 - 53) B).
  pose proof (Z.log2_le_mono Q1 Q2 HQ12) as Hlog.
  pose proof (Z.log2_nonneg Q1) as Hn1.
  pose proof (log2_succ_le Q1 HQ1) as Hs1.
  assert (HK : K1 <= K2) by (unfold K1, K2; lia).
  assert (HK1 : B <= K1) by (unfold K1; lia).
  assert (Hp1 : 0 < 2 ^ K1) by (apply pow2_pos; lia).
  assert (Hp2 : 0 < 2 ^ K2) by (apply pow2_pos; lia).
  destruct (Z.eq_dec K1 K2) as [Heq | Hne].
  - rewrite <- Heq. apply Z.mul_le_mono_nonneg_r.
    + apply Z.lt_le_incl, pow2_pos. lia.
    + apply round_half_even_mono; [nia | assumption].
  - assert (HK2 : K2 = Z.log2 Q2 + 1 - 53) by (unfold K1, K2 in *; lia).
    assert (HQ2 : 0 < Q2).
    { destruct (Z.eq_dec Q2 0) as [E | ?]; [|lia].
      rewrite E in HK2. cbn in HK2. unfold K1 in *. lia. }
    pose proof (Z.log2_spec Q2 HQ2) as [Hs2 _].
    assert (Hup : Py.round_half_even N1 (D * 2 ^ K1) <= 2 ^ 53).
    { apply round_half_even_upper; [nia|].
      assert (2 ^ (Z.log2 Q1 + 1) <= 2 ^ (53 + K1))
        by (apply pow2_le; unfold K1; lia).
      rewrite (pow2_split 53 K1) in H by lia.
      assert (D * (Q1 + 1) <= D * (2 ^ 53 * 2 ^ K1))
        by (apply Z.mul_le_mono_nonneg_l; lia).
      lia. }
    assert (Hlo : 2 ^ 52 <= Py.round_half_even N2 (D * 2 ^ K2)).
    { apply round_half_even_lower; [nia|].
      assert (E : 2 ^ 52 * 2 ^ K2 = 2 ^ Z.log2 Q2).
      { rewrite <- pow2_split by lia. f_equal. lia. }
      assert (D * 2 ^ Z.log2 Q2 <= D * Q2)
        by (apply Z.mul_le_mono_nonneg_l; lia).
      lia. }
    assert (Hpow : 2 * 2 ^ (K1 - B) <= 2 ^ (K2 - B)).
    { replace (2 * 2 ^ (K1 - B)) with (2 ^ (1 + (K1 - B)))
        by (rewrite pow2_split by lia; reflexivity).
      apply pow2_le. lia. }
    assert (Hq1 : 0 < 2 ^ (K1 - B)) by (apply pow2_pos; lia).
    change (2 ^ 53) with (2 * 2 ^ 52) in Hup.
    assert (H52 : 0 < 2 ^ 52) by (apply pow2_pos; lia).
    clearbody K1 K2. clear - Hup Hlo Hpow Hq1 H52. nia.
Qed.

(** The same ratio in coarser units rounds to the same double. *)
Lemma round53q_rescale B N D N' D' :
  0 <= B -> 0 < D -> 0 < D' -> 0 <= N' ->
  N * D' = N' * D * 2 ^ B ->
  round53q B N D = round53q 0 N' D'.
Proof.
  intros HB HD HD' HN' Hratio. unfold round53q.
  assert (HpB : 0 < 2 ^ B) by (apply pow2_pos; lia).
  set (Q := N / D). set (Q' := N' / D').
  assert (HQ' : 0 <= Q') by (apply Z.div_pos; lia).
  assert (HN : 0 <= N) by nia.
  assert (HQ : 0 <= Q) by (apply Z.div_pos; lia).
  assert (Hlo' : Q' * D' <= N' < (Q' + 1) * D').
  { unfold Q'. pose proof (Z.mod_pos_bound N' D' HD').
    pose proof (Z.div_mod N' D' ltac:(lia)). lia. }
  assert (Hlo : Q * D <= N < (Q + 1) * D).
  { unfold Q. pose proof (Z.mod_pos_bound N D HD).
    pose proof (Z.div_mod N D ltac:(lia)). lia. }
  assert (Hbetween : Q' * 2 ^ B <= Q < (Q' + 1) * 2 ^ B).
  { clearbody Q Q'.
    assert (HDD : 0 < D * D') by (apply Z.mul_pos_pos; assumption).
    assert (HDB : 0 < D * 2 ^ B) by (apply Z.mul_pos_pos; assumption).
    assert (H1 : Q' * D' * (D * 2 ^ B) <= N' * (D * 2 ^ B))
      by (apply Z.mul_le_mono_nonneg_r; lia).
    assert (H2 : N' * (D * 2 ^ B) < (Q' + 1) * D' * (D * 2 ^ B))
      by (apply Z.mul_lt_mono_pos_r; lia).
    assert (H3 : Q * D * D' <= N * D')
      by (apply Z.mul_le_mono_nonneg_r; lia).
    assert (H4 : N * D' < (Q + 1) * D * D')
      by (apply Z.mul_lt_mono_pos_r; lia).
    split.
    - assert (Q' * 2 ^ B < Q + 1); [|lia].
      apply (Z.mul_lt_mono_pos_r (D * D')); [assumption|]. lia.
    - apply (Z.mul_lt_mono_pos_r (D * D')); [assumption|]. lia. }
  assert (HK : Z.max (Z.log2 Q + 1 - 53) B
               = Z.max (Z.log2 Q' + 1 - 53) 0 + B).
  { destruct (Z.eq_dec Q' 0) as [E | Hne].
    - rewrite E in *. cbn [Z.log2]. 
      assert (Z.log2 Q < B \/ Q = 0) as [Hl | ->]; [| lia | cbn [Z.log2]; lia].
      destruct (Z.eq_dec Q 0) as [? | HQne]; [right; assumption | left].
      apply Z.log2_lt_pow2; lia.
    - pose proof (Z.log2_spec Q' ltac:(lia)) as [Hs1 Hs2].
      pose proof (Z.log2_nonneg Q').
      assert (Z.log2 Q = Z.log2 Q' + B); [|lia].
      apply Z.log2_unique; [lia|].
      replace (Z.succ (Z.log2 Q' + B)) with (Z.succ (Z.log2 Q') + B) by lia.
      rewrite !pow2_split by lia. clearbody Q Q'. nia. }
  rewrite HK. set (K' := Z.max (Z.log2 Q' + 1 - 53) 0).
  assert (HK' : 0 <= K') by (unfold K'; lia).
  replace (K' + B - B) with (K' - 0) by lia. f_equal.
  assert (Hp : 0 < 2 ^ K') by (apply pow2_pos; lia).
  apply round_half_even_ratio; [nia | nia |].
  rewrite pow2_split by lia. clearbody K' Q Q'. nia.
Qed.

(** *** Rounding with a remainder *)

(** The location [new_location D R] of a remainder [R] of a division by
    [D], as the two flags of a shift record. *)
Lemma new_location_flags q R D :
  0 <= R < D ->
  exists r0 s0,
    shr_record_of_loc q (new_location D R) = Build_shr_record q r0 s0
    /\ r0 || s0 = negb (R =? 0)
    /\ round_nearest_even q (new_location D R)
       = Py.round_half_even (q * D + R) D.
Proof.
  intros HR. unfold Py.round_half_even.
  rewrite Z.div_add_l, Z.div_small, Z.add_0_r by lia.
  rewrite Z.add_comm, Z.mod_add, Z.mod_small by lia.
  unfold new_location.
  destruct (Z.even D) eqn:Heven;
    unfold new_location_even, new_location_odd;
    destruct (Z.eqb_spec R 0) as [-> | HR0].
  - exists false, false.
    replace (2 * 0 ?= D) with Lt by (symmetry; apply Z.compare_lt_iff; lia).
    repeat split; reflexivity.
  - destruct (2 * R ?= D) eqn:Hc; cbn [shr_record_of_loc round_nearest_even];
      eexists _, _; repeat split; reflexivity.
  - exists false, false.
    replace (2 * 0 ?= D) with Lt by (symmetry; apply Z.compare_lt_iff; lia).
    repeat split; reflexivity.
  - assert (Hodd : Z.odd D = true)
      by (rewrite <- Z.negb_even, Heven; reflexivity).
    apply Z.odd_spec in Hodd as [k Hk].
    destruct (Z.compare_spec (2 * R + 1) D) as [H|H|H];
      cbn [shr_record_of_loc round_nearest_even].
    + replace (2 * R ?= D) with Lt
        by (symmetry; apply Z.compare_lt_iff; lia).
      eexists _, _; repeat split; reflexivity.
    + replace (2 * R ?= D) with Lt
        by (symmetry; apply Z.compare_lt_iff; lia).
      eexists _, _; repeat split; reflexivity.
    + replace (2 * R ?= D) with Gt
        by (symmetry; apply Z.compare_gt_iff; lia).
      eexists _, _; repeat split; reflexivity.
Qed.

(** Shifting a quotient with its remainder's location and rounding to
    nearest-even rounds the exact ratio. *)
Lemma round_shift_loc q R D (k : nat) :
  0 <= q -> 0 <= R < D ->
  let mrs := Nat.iter (S k) shr_1 (shr_record_of_loc q (new_location D R)) in
  round_nearest_even (shr_m mrs) (loc_of_shr_record mrs)
  = Py.round_half_even (q * D + R) (D * 2 ^ Z.of_nat (S k)).
Proof.
  intros Hq HR mrs. subst mrs.
  destruct (new_location_flags q R D HR) as (r0 & s0 & -> & Hflags & _).
  rewrite shr_iter by exact Hq. cbn [shr_m].
  rewrite <- orb_assoc, Hflags.
  assert (Hp : 0 < 2 ^ Z.of_nat k) by (apply pow2_pos; lia).
  assert (E : 2 ^ Z.of_nat (S k) = 2 ^ Z.of_nat k * 2).
  { rewrite (Nat2Z.inj_succ k), Z.pow_succ_r by lia. lia. }
  assert (Hp' : 0 < 2 ^ Z.of_nat (S k)) by lia.
  unfold Py.round_half_even.
  rewrite <- Z.div_div by lia.
  rewrite Z.div_add_l, (Z.div_small R D), Z.add_0_r by lia.
  rewrite Z.rem_mul_r by lia.
  rewrite Z.div_add_l, (Z.div_small R D), Z.add_0_r by lia.
  rewrite (Z.add_comm (q * D) R), Z.mod_add, (Z.mod_small R D) by lia.
  replace (q mod 2 ^ Z.of_nat (S k))
    with (q mod 2 ^ Z.of_nat k
          + 2 ^ Z.of_nat k * ((q / 2 ^ Z.of_nat k) mod 2))
    by (rewrite E; symmetry; apply Z.rem_mul_r; lia).
  rewrite Zmod_odd.
  set (L := q mod 2 ^ Z.of_nat k).
  assert (HL : 0 <= L < 2 ^ Z.of_nat k) by (apply Z.mod_pos_bound; exact Hp).
  set (q' := q / 2 ^ Z.of_nat (S k)).
  rewrite E. clearbody L q'.
  set (T := 2 ^ Z.of_nat k) in *. clearbody T.
  assert (HDL : 0 <= D * L <= D * (T - 1))
    by (split; [apply Z.mul_nonneg_nonneg | apply Z.mul_le_mono_nonneg_l]; lia).
  destruct (Z.odd (q / T)).
  - destruct (Z.eqb_spec L 0) as [-> | HL0]; cbn [negb orb].
    + destruct (Z.eqb_spec R 0) as [-> | HR0];
        cbn [negb loc_of_shr_record round_nearest_even].
      * replace (2 * (0 + D * (0 + T * 1)) ?= D * (T * 2)) with Eq
          by (symmetry; apply Z.compare_eq_iff; lia).
        reflexivity.
      * replace (2 * (R + D * (0 + T * 1)) ?= D * (T * 2)) with Gt
          by (symmetry; apply Z.compare_gt_iff; lia).
        reflexivity.
    + cbn [loc_of_shr_record round_nearest_even].
      replace (2 * (R + D * (L + T * 1)) ?= D * (T * 2)) with Gt;
        [reflexivity|].
      symmetry. apply Z.compare_gt_iff.
      assert (0 < D * L) by (apply Z.mul_pos_pos; lia). lia.
  - replace (2 * (R + D * (L + T * 0)) ?= D * (T * 2)) with Lt
      by (symmetry; apply Z.compare_lt_iff; lia).
    destruct (negb (L =? 0) || negb (R =? 0)); reflexivity.
Qed.

Lemma Zdigits2_nonneg q : 0 <= Zdigits2 q.
Proof. destruct q; cbn; lia. Qed.

(** [shr_fexp] on a quotient [q] with remainder [R] of a division by
    [D]: the information to round the exact ratio to nearest-even. *)
Lemma shr_fexp_loc q e R D :
  0 <= q -> 0 <= R < D ->
  let n := fexp64 (Zdigits2 q + e) - e in
  0 <= n ->
  exists mrs,
    shr_fexp prec emax q e (new_location D R) = (mrs, e + n)
    /\ round_nearest_even (shr_m mrs) (loc_of_shr_record mrs)
       = Py.round_half_even (q * D + R) (D * 2 ^ n).
Proof.
  intros Hq HR n Hn. unfold shr_fexp. fold n.
  destruct n as [|p|p] eqn:En; [| |lia].
  - eexists. split; [cbn [shr]; rewrite Z.add_0_r; reflexivity|].
    destruct (new_location_flags q R D HR) as (r0 & s0 & _ & _ & Hround).
    change (2 ^ 0) with 1. rewrite Z.mul_1_r, <- Hround.
    destruct (new_location D R) as [|[| |]]; reflexivity.
  - cbn [shr]. rewrite iter_pos_nat.
    destruct (Pos2Nat.is_succ p) as [k Hk]. rewrite Hk.
    eexists. split; [reflexivity|].
    rewrite round_shift_loc by assumption.
    rewrite <- Hk, positive_nat_Z. reflexivity.
Qed.

(** *** [binary_round_aux] on a quotient *)

(** The quotient [q] at exponent [e], with remainder [R] of a division
    by [D], stands for the ratio [N / D] in units of [2^-(1074+B)];
    rounding it gives [round53q B N D], or infinity. *)
Lemma binary_round_aux_ratio s q e R D B :
  0 <= q -> 0 <= R < D -> 0 <= B -> 0 <= e + 1074 + B ->
  0 <= fexp64 (Zdigits2 q + e) - e ->
  (q = 0 -> e <= -1074) ->
  let N := (q * D + R) * 2 ^ (e + 1074 + B) in
  let X := binary_round_aux prec emax s q e (new_location D R) in
  sval X = Some (sign_of s * Z.min (round53q B N D) huge)
  /\ valid_binary X = true.
Proof.
  intros Hq HR HB He Hn Hzero N X. subst X. rewrite binary_round_aux_finish.
  destruct (shr_fexp_loc q e R D Hq HR Hn) as (mrs & -> & ->).
  set (d := Zdigits2 q) in *.
  set (E := fexp64 (d + e)) in *.
  replace (e + (E - e)) with E by lia.
  set (c := e + 1074 + B) in *.
  set (m1 := Py.round_half_even (q * D + R) (D * 2 ^ (E - e))).
  assert (HE : E = Z.max (d + e - 53) (-1074)) by reflexivity.
  assert (Hc : 0 < 2 ^ c) by (apply pow2_pos; lia).
  assert (Hpn : 0 < 2 ^ (E - e)) by (apply pow2_pos; lia).
  assert (HDn : 0 < D * 2 ^ (E - e)) by (apply Z.mul_pos_pos; lia).
  (* the digits of the quotient *)
  assert (Hd : (q = 0 /\ d = 0)
               \/ (0 < q /\ 1 <= d /\ 2 ^ (d - 1) <= q < 2 ^ d
                   /\ Z.log2 q + 1 = d)).
  { unfold d. destruct q as [|p|p]; [left; split; reflexivity | right | lia].
    cbn [Zdigits2]. pose proof (digits2_bounds p).
    rewrite digits2_log2 in *. pose proof (Z.log2_nonneg (Zpos p)).
    repeat split; lia. }
  (* the floor of the ratio *)
  assert (Hfloor : q * 2 ^ c <= N / D < (q + 1) * 2 ^ c).
  { unfold N. split.
    - apply Z.div_le_lower_bound; [lia|].
      assert (q * D * 2 ^ c <= (q * D + R) * 2 ^ c)
        by (apply Z.mul_le_mono_nonneg_r; lia).
      lia.
    - apply Z.div_lt_upper_bound; [lia|].
      assert ((q * D + R) * 2 ^ c < (q * D + D) * 2 ^ c)
        by (apply Z.mul_lt_mono_pos_r; lia).
      lia. }
  assert (HK : Z.max (Z.log2 (N / D) + 1 - 53) B = E - e + c).
  { destruct Hd as [[-> ->] | (Hqpos & Hd1 & Hdb & Hlog)].
    - specialize (Hzero eq_refl).
      assert (Hc0 : c = 0 \/ c < 0 \/ 0 < c) by lia.
      assert (HND : N / D < 2 ^ c) by lia.
      assert (Z.log2 (N / D) < c \/ N / D = 0) as [Hl | Hl].
      { destruct (Z.eq_dec (N / D) 0); [right; assumption | left].
        apply Z.log2_lt_pow2; lia. }
      + unfold c in *. lia.
      + rewrite Hl. cbn [Z.log2]. unfold c in *. lia.
    - assert (Z.log2 (N / D) = Z.log2 q + c); [|unfold c in *; lia].
      apply Z.log2_unique; [pose proof (Z.log2_nonneg q); lia|].
      replace (Z.succ (Z.log2 q + c)) with (d + c) by lia.
      replace (Z.log2 q) with (d - 1) by lia.
      rewrite !pow2_split by lia.
      destruct Hdb as [Hlo Hhi].
      assert (2 ^ (d - 1) * 2 ^ c <= q * 2 ^ c)
        by (apply Z.mul_le_mono_nonneg_r; lia).
      assert ((q + 1) * 2 ^ c <= 2 ^ d * 2 ^ c)
        by (apply Z.mul_le_mono_nonneg_r; lia).
      lia. }
  assert (Hround : round53q B N D = m1 * 2 ^ (E + 1074)).
  { unfold round53q. cbv zeta. rewrite HK.
    replace (E - e + c - B) with (E + 1074) by (unfold c; lia). f_equal.
    unfold m1, N. rewrite (pow2_split (E - e) c) by lia.
    rewrite Z.mul_assoc. apply round_half_even_scale; lia. }
  rewrite Hround.
  apply finish64_value.
  assert (Hm0 : 0 <= m1).
  { unfold m1.
    replace 0 with (Py.round_half_even (0 * (D * 2 ^ (E - e)))
                      (D * 2 ^ (E - e)))
      by (apply round_half_even_exact; assumption).
    apply round_half_even_mono; [assumption|].
    assert (0 <= q * D) by (apply Z.mul_nonneg_nonneg; lia). lia. }
  assert (Hqd : q < 2 ^ d).
  { destruct Hd as [[-> ->] | (_ & _ & [_ H] & _)]; [cbn; lia | exact H]. }
  assert (Hd0 : 0 <= d) by (destruct Hd as [[_ ->] | (_ & ? & _)]; lia).
  assert (Hnum : q * D + R < D * 2 ^ d).
  { assert (D * (q + 1) <= D * 2 ^ d)
      by (apply Z.mul_le_mono_nonneg_l; lia).
    lia. }
  destruct (Z.le_gt_cases (-1074) (d + e - 53)) as [Hnormal | Hsub].
  - left. assert (En : E - e = d - 53) by lia.
    assert (Hd53 : 53 <= d) by lia.
    destruct Hd as [[_ ->] | (Hqpos & Hd1 & [Hlo Hhi] & Hlog)]; [lia|].
    split; [|lia]. unfold m1. rewrite En. split.
    + apply round_half_even_lower; [rewrite <- En; assumption|].
      replace (2 ^ 52 * (D * 2 ^ (d - 53))) with (D * 2 ^ (d - 1)).
      * assert (D * 2 ^ (d - 1) <= D * q)
          by (apply Z.mul_le_mono_nonneg_l; lia).
        lia.
      * replace (d - 1) with (52 + (d - 53)) by lia.
        rewrite pow2_split by lia. lia.
    + apply round_half_even_upper; [rewrite <- En; assumption|].
      replace (2 ^ 53 * (D * 2 ^ (d - 53))) with (D * 2 ^ d); [lia|].
      replace d with (53 + (d - 53)) at 1 by lia.
      rewrite pow2_split by lia. lia.
  - right. assert (HE' : E = -1074) by lia. split; [|assumption].
    split; [exact Hm0|].
    unfold m1. apply round_half_even_upper; [assumption|].
    assert (Hle : 2 ^ d <= 2 ^ (52 + (E - e))) by (apply pow2_le; lia).
    rewrite pow2_split in Hle by lia.
    assert (D * 2 ^ d <= D * (2 ^ 52 * 2 ^ (E - e)))
      by (apply Z.mul_le_mono_nonneg_l; lia).
    lia.
Qed.

(** *** Division *)

Lemma digits2_large q : 2 ^ 52 <= q -> 53 <= Zdigits2 q.
Proof.
  intros Hq. destruct q as [|p|p]; try (cbv in Hq; congruence).
  cbn [Zdigits2]. pose proof (digits2_bounds p) as [_ Hd].
  destruct (Z.le_gt_cases 53 (Zpos (digits2_pos p))) as [?|Hsmall];
    [assumption|].
  assert (2 ^ Zpos (digits2_pos p) <= 2 ^ 52) by (apply pow2_le; lia). lia.
Qed.

Lemma SFdiv_finite_value sx mx ex sy my ey :
  -1074 <= ex -> -1074 <= ey ->
  let X := SFdiv prec emax (S754_finite sx mx ex) (S754_finite sy my ey) in
  sval X = Some (sign_of (xorb sx sy)
                 * round_quotient (Zpos mx * 2 ^ (ex + 1074))
                                  (Zpos my * 2 ^ (ey + 1074)))
  /\ valid_binary X = true.
Proof.
  intros Hex Hey X. subst X. cbn [SFdiv]. unfold SFdiv_core_binary.
  cbn [Zdigits2].
  pose proof (digits2_bounds mx) as Hd1. pose proof (digits2_bounds my) as Hd2.
  set (d1 := Zpos (digits2_pos mx)) in *.
  set (d2 := Zpos (digits2_pos my)) in *.
  assert (Hd1' : 1 <= d1) by (unfold d1; lia).
  assert (Hd2' : 1 <= d2) by (unfold d2; lia).
  rewrite fexp64_eq.
  set (e' := Z.min (Z.max (d1 + ex - (d2 + ey) - 53) (-1074)) (ex - ey)).
  set (s := ex - ey - e').
  assert (Hs : 0 <= s) by (unfold s, e'; lia).
  set (m' := match s with
             | 0 => Zpos mx
             | Zpos _ => Z.shiftl (Zpos mx) s
             | Zneg _ => 0
             end).
  assert (Hm' : m' = Zpos mx * 2 ^ s).
  { unfold m'. destruct s as [|p|p] eqn:Es; [cbn; lia | | lia].
    apply Z.shiftl_mul_pow2. lia. }
  assert (Hps : 0 < 2 ^ s) by (apply pow2_pos; lia).
  pose proof (Z_div_mod m' (Zpos my) eq_refl) as Hdiv.
  destruct (Z.div_eucl m' (Zpos my)) as [q r]. destruct Hdiv as [Hqr Hr].
  assert (Hm'pos : 0 < m') by (rewrite Hm'; apply Z.mul_pos_pos; lia).
  assert (Hq : 0 <= q) by nia.
  clearbody m' d1 d2.
  (* a quotient at an exponent above the smallest has 53 bits *)
  assert (Hbig : -1074 < e' -> 2 ^ 52 <= q).
  { intros He'.
    assert (Hs' : 53 - d1 + d2 <= s) by (unfold s, e' in *; lia).
    assert (Hlow : 2 ^ (52 + d2) <= m').
    { rewrite Hm'.
      assert (2 ^ (52 + d2) <= 2 ^ (d1 - 1 + s)) by (apply pow2_le; lia).
      rewrite (pow2_split (d1 - 1) s) in H by lia.
      assert (2 ^ (d1 - 1) * 2 ^ s <= Zpos mx * 2 ^ s)
        by (apply Z.mul_le_mono_nonneg_r; lia).
      lia. }
    rewrite (pow2_split 52 d2) in Hlow by lia.
    assert (H52 : 0 < 2 ^ 52) by (apply pow2_pos; lia).
    assert (2 ^ 52 * (Zpos my + 1) <= 2 ^ 52 * 2 ^ d2)
      by (apply Z.mul_le_mono_nonneg_l; lia).
    destruct (Z.le_gt_cases (2 ^ 52) q) as [?|Hsmall]; [assumption|].
    assert (Zpos my * q <= Zpos my * (2 ^ 52 - 1))
      by (apply Z.mul_le_mono_nonneg_l; lia).
    lia. }
  set (B := Z.max 0 (- (e' + 1074))).
  destruct (binary_round_aux_ratio (xorb sx sy) q e' r (Zpos my) B)
    as [Hv Hvalid]; try (unfold B; lia).
  - assert (0 < 2 ^ 52) by (apply pow2_pos; lia).
    rewrite fexp64_eq.
    destruct (Z.le_gt_cases e' (-1074)) as [?|He']; [lia|].
    pose proof (digits2_large q (Hbig He')). lia.
  - split; [|exact Hvalid]. rewrite Hv. f_equal. f_equal.
    unfold round_quotient. f_equal.
    assert (HpB : 0 < 2 ^ B) by (apply pow2_pos; unfold B; lia).
    assert (Hpx : 0 < 2 ^ (ex + 1074)) by (apply pow2_pos; lia).
    assert (Hpy : 0 < 2 ^ (ey + 1074)) by (apply pow2_pos; lia).
    assert (Hp0 : 0 < 2 ^ 1074) by (apply pow2_pos; lia).
    apply round53q_rescale.
    + unfold B; lia.
    + lia.
    + apply Z.mul_pos_pos; lia.
    + apply Z.mul_nonneg_nonneg; [apply Z.mul_nonneg_nonneg|]; lia.
    + replace (q * Zpos my + r) with m' by lia. rewrite Hm'.
      assert (Hpow : 2 ^ s * 2 ^ (e' + 1074 + B) * 2 ^ (ey + 1074)
                     = 2 ^ (ex + 1074) * 2 ^ 1074 * 2 ^ B).
      { rewrite <- !pow2_split by (unfold B, s; lia). f_equal.
        unfold s. lia. }
      transitivity (Zpos mx * Zpos my
                    * (2 ^ s * 2 ^ (e' + 1074 + B) * 2 ^ (ey + 1074)));
        [ring|]. rewrite Hpow. ring.
Qed.

(** A quotient is rounded below any double above it. *)
Lemma round_quotient_upper a b v :
  0 <= a -> 0 < b -> 0 <= v -> round_scaled v = v -> a * 2 ^ 1074 <= v * b ->
  round_quotient a b <= v.
Proof.
  intros Ha Hb Hv Hfix Hle. unfold round_quotient.
  assert (Hp0 : 0 < 2 ^ 1074) by (apply pow2_pos; lia).
  destruct v as [|p|p]; [| |lia].
  - assert (round53q 0 (a * 2 ^ 1074) b <= 0); [|lia].
    assert (a = 0) by nia. subst a. unfold round53q.
    change (0 * 2 ^ 1074) with 0. cbv zeta.
    set (K := Z.max _ 0). assert (HK : 0 <= K) by (unfold K; lia).
    assert (0 < 2 ^ K) by (apply pow2_pos; lia).
    pose proof (round_half_even_exact 0 (b * 2 ^ K) ltac:(nia)) as E.
    change (0 * (b * 2 ^ K)) with 0 in E. rewrite E. lia.
  - pose proof (round53q_mono 0 (a * 2 ^ 1074) (Zpos p * b) b ltac:(lia) Hb
                  ltac:(nia)) as Hm.
    assert (E : round53q 0 (Zpos p * b) b = round53 0 (Zpos p)).
    { unfold round53q, round53. rewrite Z.div_mul by lia.
      rewrite (Z.mul_comm b), round_half_even_scale; [reflexivity| |lia].
      apply pow2_pos. pose proof (Z.log2_nonneg (Zpos p)). lia. }
    rewrite E in Hm. cbn [round_scaled] in Hfix.
    pose proof huge_pos. lia.
Qed.

Lemma round_quotient_pos a b : 0 < a -> 0 < b -> 0 <= round_quotient a b.
Proof.
  intros Ha Hb. unfold round_quotient. pose proof huge_pos.
  assert (0 <= round53q 0 (a * 2 ^ 1074) b); [|lia].
  unfold round53q.
  set (K := Z.max _ 0). assert (HK : 0 <= K) by (unfold K; lia).
  assert (0 < 2 ^ K) by (apply pow2_pos; lia).
  assert (0 < 2 ^ 1074) by (apply pow2_pos; lia).
  apply Z.mul_nonneg_nonneg; [|apply Z.lt_le_incl, pow2_pos; lia].
  apply (round_half_even_lower _ _ 0); nia.
Qed.

(** The quotient of two positive finite floats. *)
Lemma div_fval x y a b :
  fval x = Some a -> fval y = Some b -> 0 < a < huge -> 0 < b < huge ->
  fval (x / y) = Some (round_quotient a b).
Proof.
  intros Ha Hb Ra Rb. unfold fval in *. rewrite div_spec.
  pose proof (Prim2SF_valid x) as Hvx. pose proof (Prim2SF_valid y) as Hvy.
  pose proof huge_pos as Hh.
  destruct (Prim2SF x) as [sx|sx| |sx mx ex]; unfold sval in Ha;
    try discriminate Ha; apply some_inj in Ha;
    try (destruct sx; unfold sign_of in Ha; lia).
  destruct (Prim2SF y) as [sy|sy| |sy my ey]; unfold sval in Hb;
    try discriminate Hb; apply some_inj in Hb;
    try (destruct sy; unfold sign_of in Hb; lia).
  pose proof (valid_finite _ _ _ Hvx) as (_ & Hex & Hbx & _).
  pose proof (valid_finite _ _ _ Hvy) as (_ & Hey & Hby & _).
  destruct sx; [unfold sign_of in Ha; lia|].
  destruct sy; [unfold sign_of in Hb; lia|].
  unfold sign_of in Ha, Hb.
  destruct (SFdiv_finite_value false mx ex false my ey) as [Hv _]; try lia.
  unfold SF64div. rewrite Hv. cbn [xorb sign_of]. f_equal.
  replace a with (Zpos mx * 2 ^ (ex + 1074)) by lia.
  replace b with (Zpos my * 2 ^ (ey + 1074)) by lia. lia.
Qed.

(** *** [round(x, 2)] *)

Lemma cents_nonneg v : 0 <= v -> 0 <= cents v.
Proof.
  intros Hv. unfold cents.
  assert (Hp : 0 < 2 ^ 1074) by (apply pow2_pos; lia).
  apply (round_half_even_lower _ _ 0); lia.
Qed.

Lemma cents_mono v1 v2 : v1 <= v2 -> cents v1 <= cents v2.
Proof.
  intros H. unfold cents. apply round_half_even_mono; [|lia].
  apply pow2_pos. lia.
Qed.

Lemma cents_val_range q : 0 <= cents_val q <= huge.
Proof.
  pose proof huge_pos. destruct q as [|p|p]; cbn [cents_val]; try lia.
  assert (Hp : 0 < 2 ^ 1074) by (apply pow2_pos; lia).
  split.
  - apply round_quotient_pos; lia.
  - unfold round_quotient. lia.
Qed.

Lemma cents_val_mono q1 q2 : q1 <= q2 -> cents_val q1 <= cents_val q2.
Proof.
  intros H. pose proof (cents_val_range q2) as [H2 _].
  destruct q1 as [|p1|p1]; cbn [cents_val]; try exact H2.
  destruct q2 as [|p2|p2]; try lia. cbn [cents_val].
  unfold round_quotient.
  assert (Hp : 0 < 2 ^ 1074) by (apply pow2_pos; lia).
  assert (round53q 0 (Zpos p1 * 2 ^ 1074 * 2 ^ 1074) (100 * 2 ^ 1074)
          <= round53q 0 (Zpos p2 * 2 ^ 1074 * 2 ^ 1074) (100 * 2 ^ 1074));
    [|lia].
  apply round53q_mono; [lia | lia |].
  split; [nia|]. apply Z.mul_le_mono_nonneg_r; [lia|].
  apply Z.mul_le_mono_nonneg_r; lia.
Qed.

Lemma round2_val_range v : - huge <= v <= huge -> - huge <= round2_val v <= huge.
Proof.
  intros Hv. unfold round2_val. pose proof huge_pos.
  destruct ((v =? huge) || (v =? - huge)); [exact Hv|].
  destruct v as [|p|p]; try lia.
  - pose proof (cents_val_range (cents (Zpos p))). lia.
  - pose proof (cents_val_range (cents (Zpos p))). lia.
Qed.

Lemma round2_val_sign v :
  (0 <= v -> 0 <= round2_val v) /\ (v <= 0 -> round2_val v <= 0).
Proof.
  unfold round2_val. pose proof huge_pos.
  destruct ((v =? huge) || (v =? - huge)); [lia|].
  destruct v as [|p|p]; try lia.
  - pose proof (cents_val_range (cents (Zpos p))). lia.
  - pose proof (cents_val_range (cents (Zpos p))). lia.
Qed.

Lemma round2_val_mono v1 v2 :
  - huge <= v1 -> v1 <= v2 -> v2 <= huge ->
  round2_val v1 <= round2_val v2.
Proof.
  intros Hlo Hle Hhi. pose proof huge_pos as Hh.
  pose proof (round2_val_range v1 ltac:(lia)) as R1.
  pose proof (round2_val_range v2 ltac:(lia)) as R2.
  destruct (Z.eq_dec v1 (- huge)) as [E1 | N1].
  { replace (round2_val v1) with (- huge); [lia|].
    unfold round2_val. rewrite E1, Z.eqb_refl, orb_true_r. reflexivity. }
  destruct (Z.eq_dec v2 huge) as [E2 | N2].
  { replace (round2_val v2) with huge; [lia|].
    unfold round2_val. rewrite E2, Z.eqb_refl. reflexivity. }
  pose proof (round2_val_sign v1) as [P1 M1].
  pose proof (round2_val_sign v2) as [P2 M2].
  destruct (Z.le_gt_cases v1 0) as [Hn1 | Hp1];
    destruct (Z.le_gt_cases 0 v2) as [Hp2 | Hn2]; try lia.
  - (* both negative *)
    unfold round2_val.
    replace ((v1 =? huge) || (v1 =? - huge)) with false
      by (symmetry; apply orb_false_iff; split; apply Z.eqb_neq; lia).
    replace ((v2 =? huge) || (v2 =? - huge)) with false
      by (symmetry; apply orb_false_iff; split; apply Z.eqb_neq; lia).
    destruct v1 as [|p1|p1], v2 as [|p2|p2]; try lia.
    assert (cents_val (cents (Zpos p2)) <= cents_val (cents (Zpos p1)));
      [|lia].
    apply cents_val_mono, cents_mono. lia.
  - (* both positive *)
    unfold round2_val.
    replace ((v1 =? huge) || (v1 =? - huge)) with false
      by (symmetry; apply orb_false_iff; split; apply Z.eqb_neq; lia).
    replace ((v2 =? huge) || (v2 =? - huge)) with false
      by (symmetry; apply orb_false_iff; split; apply Z.eqb_neq; lia).
    destruct v1 as [|p1|p1], v2 as [|p2|p2]; try lia.
    apply cents_val_mono, cents_mono. lia.
Qed.

(** [round(x, 2)] rounds the value of [x]. *)
Lemma round_fval x v :
  fval x = Some v -> fval (Py.round x 2) = Some (round2_val v).
Proof.
  pose proof huge_pos as Hh.
  unfold fval, Py.round. pose proof (Prim2SF_valid x) as Hvalid.
  destruct (Prim2SF x) as [s|s| |s m e] eqn:Hx; unfold sval at 1;
    intros Hv; try discriminate Hv; apply some_inj in Hv.
  - rewrite Hx. cbn [sval]. subst v. reflexivity.
  - rewrite Hx. cbn [sval]. subst v. f_equal. unfold round2_val.
    destruct s; unfold sign_of.
    + replace (-1 * huge) with (- huge) by lia.
      rewrite Z.eqb_refl, orb_true_r. reflexivity.
    + replace (1 * huge) with huge by lia.
      rewrite Z.eqb_refl. reflexivity.
  - pose proof (valid_finite _ _ _ Hvalid) as (_ & He & Hb & _).
    set (N := Zpos m * 2 ^ (e + 1074)) in *.
    assert (Hc : Py.round_half_even (Zpos m * 10 ^ 2 * 2 ^ Z.max e 0)
                                    (2 ^ Z.max (- e) 0)
                 = cents N).
    { unfold cents, N. apply round_half_even_ratio;
        [apply pow2_pos; lia | apply pow2_pos; lia |].
      change (10 ^ 2) with 100.
      assert (Hpow : 2 ^ Z.max e 0 * 2 ^ 1074
                     = 2 ^ (e + 1074) * 2 ^ Z.max (- e) 0).
      { rewrite <- !pow2_split by lia. f_equal. lia. }
      transitivity (Zpos m * 100 * (2 ^ Z.max e 0 * 2 ^ 1074)); [ring|].
      rewrite Hpow. ring. }
    rewrite Hc.
    assert (Hround : round2_val v = sign_of s * cents_val (cents N)).
    { unfold round2_val.
      replace ((v =? huge) || (v =? - huge)) with false
        by (symmetry; apply orb_false_iff; split; apply Z.eqb_neq;
            destruct s; unfold sign_of in Hv; lia).
      destruct s; unfold sign_of in Hv |- *.
      - destruct v as [|p|p]; try lia.
        replace (Zpos p) with N by lia. lia.
      - destruct v as [|p|p]; try lia.
        replace (Zpos p) with N by lia. lia. }
    rewrite Hround.
    destruct (cents N) as [|q|q] eqn:Hq.
    + cbn [cents_val]. rewrite Z.mul_0_r. destruct s; reflexivity.
    + unfold Py.nearest_decimal. change (Z.to_pos (10 ^ 2)) with 100%positive.
      destruct (SFdiv_finite_value s q 0 false 100 0) as [Hval Hvd];
        [lia | lia |].
      rewrite Prim2SF_SF2Prim by exact Hvd.
      rewrite Hval, xorb_false_r. reflexivity.
    + cbn [cents_val]. rewrite Z.mul_0_r. destruct s; reflexivity.
Qed.

(** [round(x, 2)] is monotone. *)
Lemma round_le x y :
  (x <=? y)%float = true -> (Py.round x 2 <=? Py.round y 2)%float = true.
Proof.
  intros H. apply leb_true in H as (a & b & Ha & Hb & Hle).
  apply leb_true. exists (round2_val a), (round2_val b).
  pose proof (fval_bound _ _ Ha). pose proof (fval_bound _ _ Hb).
  split; [apply round_fval; exact Ha|].
  split; [apply round_fval; exact Hb|].
  apply round2_val_mono; lia.
Qed.

(** *** Finite floats *)

Lemma finite_fval x :
  finite x = true <-> exists v, fval x = Some v /\ - huge < v < huge.
Proof.
  unfold finite. rewrite andb_true_iff, !ltb_fval.
  change (fval infinity) with (Some huge).
  change (fval neg_infinity) with (Some (- huge)).
  split.
  - destruct (fval x) as [v|]; [|intros [? ?]; discriminate].
    intros [H1 H2]. exists v. split; [reflexivity | lia].
  - intros (v & -> & H). split; apply Z.ltb_lt; lia.
Qed.

Lemma fval_zero : fval 0 = Some 0.
Proof. reflexivity. Qed.

Lemma pos_fval x :
  (0 <? x)%float = true <-> exists v, fval x = Some v /\ 0 < v.
Proof.
  rewrite ltb_true, fval_zero. split.
  - intros (a & b & Ha & Hb & Hlt). apply some_inj in Ha. subst a.
    exists b. split; assumption.
  - intros (v & Hv & Hpos). exists 0, v. repeat split; assumption.
Qed.

(** *** One month, by value *)

Section MonthByValue.

Variables (r payment b : float) (vr vp vb : Z).

Hypothesis rate_value : fval r = Some vr.
Hypothesis rate_positive : 0 < vr < huge.
Hypothesis payment_value : fval payment = Some vp.
Hypothesis payment_finite : - huge < vp < huge.
Hypothesis balance_value : fval b = Some vb.
Hypothesis balance_range : 0 <= vb < huge.

Lemma interest_val :
  fval (interest_component r b) = Some (round_product (vb * vr))
  /\ 0 <= round_product (vb * vr) <= huge.
Proof using rate_value rate_positive balance_value balance_range.
  unfold interest_component.
  pose proof huge_pos as Hh.
  rewrite (mul_fval b r vb vr)
    by (assumption || (clear - rate_positive balance_range Hh; lia)).
  split; [reflexivity|]. split.
  - apply round_product_sign. clear - rate_positive balance_range. nia.
  - apply round_product_bound.
Qed.

Lemma rate_is_positive : (0 <? r)%float = true.
Proof using rate_value rate_positive. apply pos_fval. exists vr. split; [assumption | lia]. Qed.

(** The guard passes exactly when the principal component, computed
    from a finite interest, is positive. *)
Lemma guard_val :
  guard_fires r payment b = false <->
  round_product (vb * vr) < huge /\ 0 < principal_val vr vp vb.
Proof using All.
  pose proof huge_pos as Hh.
  destruct interest_val as [Hi Ri].
  unfold guard_fires, principal_component. rewrite rate_is_positive.
  rewrite andb_true_r, leb_fval, sub_fval, Hi, payment_value, fval_zero.
  unfold ext_sub, principal_val.
  set (vi := round_product (vb * vr)) in *. clearbody vi.
  destruct (Z.eq_dec vi huge) as [-> | Hfin].
  - rewrite ext_add_neg_huge_r by lia. split.
    + intros H. apply Z.leb_gt in H. lia.
    + lia.
  - rewrite ext_add_finite by lia.
    replace (vp + - vi) with (vp - vi) by lia.
    rewrite Z.leb_gt. split; [intros; split; lia | intros [_ ?]; assumption].
Qed.

Lemma principal_fval :
  guard_fires r payment b = false ->
  fval (principal_component r payment b) = Some (principal_val vr vp vb).
Proof using All.
  intros Hg. apply guard_val in Hg as [Hfin _].
  destruct interest_val as [Hi Ri].
  unfold principal_component.
  rewrite sub_fval, Hi, payment_value. unfold ext_sub, principal_val.
  rewrite ext_add_finite by lia. reflexivity.
Qed.

(** The balance a passing month leaves is [next_balance_val], between 0
    and the balance before. *)
Lemma next_balance_fval :
  guard_fires r payment b = false ->
  fval (mf_balance (figures r payment b))
  = Some (next_balance_val vr vp vb)
  /\ 0 <= next_balance_val vr vp vb <= vb.
Proof using All.
  pose proof huge_pos as Hh.
  intros Hg. pose proof (principal_fval Hg) as Hpc.
  apply guard_val in Hg as [Hfin Hpos].
  unfold figures, next_balance_val.
  rewrite ltb_fval, balance_value, Hpc.
  set (vpc := principal_val vr vp vb) in *. clearbody vpc.
  pose proof (fval_fixed _ _ balance_value) as Hfix.
  destruct (Z.ltb_spec vb vpc) as [Hclamp | Hno]; cbn [mf_balance].
  - rewrite sub_fval, balance_value. unfold ext_sub.
    rewrite ext_add_finite by lia.
    replace (vb + - vb) with 0 by lia. split; [reflexivity | lia].
  - rewrite sub_fval, balance_value, Hpc. unfold ext_sub.
    rewrite ext_add_finite by lia.
    replace (vb + - vpc) with (vb - vpc) by lia.
    split; [reflexivity|].
    pose proof (round_scaled_mono 0 (vb - vpc) ltac:(lia)) as H0.
    pose proof (round_scaled_mono (vb - vpc) vb ltac:(lia)) as H1.
    change (round_scaled 0) with 0 in H0. lia.
Qed.

End MonthByValue.

(** A larger payment and a smaller balance leave a larger principal
    component and a smaller balance. *)
Lemma next_balance_val_mono vr vp1 vp2 vb1 vb2 :
  0 <= vr -> vp1 <= vp2 -> 0 <= vb2 <= vb1 ->
  principal_val vr vp1 vb1 <= principal_val vr vp2 vb2
  /\ (0 < principal_val vr vp1 vb1 ->
      next_balance_val vr vp2 vb2 <= next_balance_val vr vp1 vb1).
Proof.
  intros Hr Hp Hb.
  assert (Hi : round_product (vb2 * vr) <= round_product (vb1 * vr))
    by (apply round_product_mono; nia).
  assert (Hpc : principal_val vr vp1 vb1 <= principal_val vr vp2 vb2)
    by (apply round_scaled_mono; lia).
  split; [exact Hpc|]. intros Hpos. unfold next_balance_val.
  set (pc1 := principal_val vr vp1 vb1) in *.
  set (pc2 := principal_val vr vp2 vb2) in *. clearbody pc1 pc2.
  destruct (Z.ltb_spec vb1 pc1), (Z.ltb_spec vb2 pc2); try lia.
  - pose proof (round_scaled_mono 0 (vb1 - pc1) ltac:(lia)) as Hz.
    change (round_scaled 0) with 0 in Hz. exact Hz.
  - apply round_scaled_mono. lia.
Qed.

(** *** Two runs of the loop, side by side *)

Lemma acc_val_spec x t vi :
  fval x = Some t -> 0 <= t <= huge -> 0 <= vi < huge ->
  ext_add t vi = Some (acc_val t vi) /\ t <= acc_val t vi <= huge.
Proof.
  intros Hx Ht Hvi. pose proof huge_pos as Hh. unfold acc_val.
  destruct (Z.eqb_spec t huge) as [-> | Hne].
  - rewrite ext_add_huge_l by lia. split; [reflexivity | lia].
  - rewrite ext_add_finite by lia. split; [reflexivity|].
    pose proof (round_scaled_mono t (t + vi) ltac:(lia)) as Hm.
    rewrite (fval_fixed _ _ Hx) in Hm.
    pose proof (round_scaled_bound (t + vi)). lia.
Qed.

Lemma acc_val_mono t1 t2 vi1 vi2 :
  0 <= t2 <= t1 -> t1 <= huge -> vi2 <= vi1 ->
  acc_val t2 vi2 <= acc_val t1 vi1.
Proof.
  intros Ht Hh Hvi. unfold acc_val.
  destruct (Z.eqb_spec t2 huge), (Z.eqb_spec t1 huge); try lia.
  - apply round_scaled_bound.
  - apply round_scaled_mono. lia.
Qed.

Section SideBySide.

Variables (r : float) (safety_cap : Z) (vr : Z).

Hypothesis rate_value : fval r = Some vr.
Hypothesis rate_positive : 0 < vr < huge.

(** A passing month keeps the balance and the interest tracked; the
    interest does not shrink. *)
Lemma body_tracked payment vp st st' vb t :
  fval payment = Some vp -> - huge < vp < huge ->
  tracked st vb t -> body r payment st = Ok st' ->
  tracked st' (next_balance_val vr vp vb)
              (acc_val t (round_product (vb * vr)))
  /\ st_month st' = st_month st + 1
  /\ t <= acc_val t (round_product (vb * vr))
  /\ round_product (vb * vr) < huge
  /\ 0 < principal_val vr vp vb.
Proof using rate_value rate_positive.
  intros Hp Hpf (Hb & Hbr & Ht & Htr) Hbody.
  apply body_ok in Hbody as [Hg ->]. unfold tracked.
  cbn [st_balance st_total_interest st_month].
  destruct (next_balance_fval r payment (st_balance st) vr vp vb
              rate_value rate_positive Hp Hpf Hb Hbr Hg) as [Hnext Hrange].
  destruct (interest_val r (st_balance st) vr vb rate_value rate_positive
              Hb Hbr) as [Hi Hir].
  apply (guard_val r payment (st_balance st) vr vp vb
           rate_value rate_positive Hp Hpf Hb Hbr) in Hg as [Hfin Hpos].
  assert (Hint : mf_interest (figures r payment (st_balance st))
                 = interest_component r (st_balance st)).
  { unfold figures. destruct (_ <? _)%float; reflexivity. }
  destruct (acc_val_spec _ t (round_product (vb * vr)) Ht Htr
              ltac:(lia)) as [Hacc Haccr].
  repeat split; try lia; try assumption.
  rewrite add_fval, Ht, Hint, Hi. exact Hacc.
Qed.

Variables (pay1 pay2 : float) (vp1 vp2 : Z).

Hypothesis pay1_value : fval pay1 = Some vp1.
Hypothesis pay2_value : fval pay2 = Some vp2.
Hypothesis pay1_finite : - huge < vp1 < huge.
Hypothesis pay2_finite : - huge < vp2 < huge.
Hypothesis pay_le : vp1 <= vp2.

Lemma open_ahead st1 st2 :
  ahead st1 st2 -> balance_open st1 = false -> balance_open st2 = false.
Proof using Type.
  intros (_ & vb1 & t1 & vb2 & t2 & (Hb1 & _) & (Hb2 & _) & Hle & _).
  unfold balance_open. rewrite !ltb_fval, Hb1, Hb2.
  destruct (fval 0.005) as [c|]; [|reflexivity].
  rewrite !Z.ltb_ge. lia.
Qed.

Lemma below_cap_ahead st1 st2 :
  ahead st1 st2 -> below_cap safety_cap st2 = below_cap safety_cap st1.
Proof using Type.
  intros [Hm _]. unfold below_cap. rewrite Hm. reflexivity.
Qed.

(** When the first run passes a month, so does the second, and it stays
    ahead. *)
Lemma body_ahead st1 st2 st1' :
  ahead st1 st2 -> body r pay1 st1 = Ok st1' ->
  exists st2', body r pay2 st2 = Ok st2' /\ ahead st1' st2'.
Proof using All.
  intros (Hm & vb1 & t1 & vb2 & t2 & Ht1 & Ht2 & Hvb & Ht) Hbody.
  destruct (body_tracked pay1 vp1 st1 st1' vb1 t1 pay1_value pay1_finite
              Ht1 Hbody) as (Ht1' & Hm1 & _ & Hfin1 & Hpos1).
  pose proof Ht2 as (Hb2 & Hbr2 & _).
  pose proof Ht1 as (_ & Hbr1 & _ & Htr1).
  destruct (next_balance_val_mono vr vp1 vp2 vb1 vb2 ltac:(lia) pay_le
              ltac:(lia)) as [Hpc Hnext].
  assert (Hi : round_product (vb2 * vr) <= round_product (vb1 * vr))
    by (apply round_product_mono; nia).
  assert (Hg2 : guard_fires r pay2 (st_balance st2) = false).
  { apply (guard_val r pay2 (st_balance st2) vr vp2 vb2
             rate_value rate_positive pay2_value pay2_finite Hb2 Hbr2).
    split; lia. }
  assert (Hbody2 : body r pay2 st2 = Ok
            (LoopState (mf_balance (figures r pay2 (st_balance st2)))
               (st_schedule st2
                ++ [entry (st_month st2 + 1)
                          (figures r pay2 (st_balance st2))])
               (st_total_interest st2
                + mf_interest (figures r pay2 (st_balance st2)))%float
               (st_month st2 + 1))).
  { unfold body. rewrite Hg2. reflexivity. }
  eexists. split; [exact Hbody2|].
  destruct (body_tracked pay2 vp2 st2 _ vb2 t2 pay2_value pay2_finite
              Ht2 Hbody2) as (Ht2' & Hm2 & _).
  split; [lia|].
  exists (next_balance_val vr vp1 vb1), (acc_val t1 (round_product (vb1 * vr))),
         (next_balance_val vr vp2 vb2), (acc_val t2 (round_product (vb2 * vr))).
  destruct Ht2 as (_ & _ & _ & Htr2).
  split; [exact Ht1'|]. split; [exact Ht2'|]. split.
  - apply Hnext. exact Hpos1.
  - apply acc_val_mono; lia.
Qed.

(** A run that ends has not lost a month, and has not lost interest. *)
Lemma while_loop_grows payment vp :
  fval payment = Some vp -> - huge < vp < huge ->
  forall fuel st st' ex vb t,
    tracked st vb t ->
    while_loop r payment safety_cap fuel st = Some (Ok (st', ex)) ->
    st_month st <= st_month st'
    /\ exists vb' t', tracked st' vb' t' /\ t <= t'.
Proof using rate_value rate_positive.
  intros Hp Hpf.
  assert (Hstay : forall st vb t, tracked st vb t ->
            st_month st <= st_month st
            /\ exists vb' t', tracked st vb' t' /\ t <= t').
  { intros st vb t Ht. split; [lia|]. exists vb, t. split; [exact Ht | lia]. }
  induction fuel as [|fuel IH]; intros st st' ex vb t Ht; cbn.
  - destruct (balance_open st); cbn.
    + destruct (below_cap safety_cap st); cbn; [discriminate|].
      intros [= <- _]. eapply Hstay; eassumption.
    + intros [= <- _]. eapply Hstay; eassumption.
  - destruct (balance_open st); cbn.
    + destruct (below_cap safety_cap st); cbn.
      * destruct (body r payment st) as [st1|e] eqn:Hbody; [|discriminate].
        destruct (body_tracked payment vp st st1 vb t Hp Hpf Ht Hbody)
          as (Ht1 & Hm1 & Hgrow & _).
        destruct (3600 <? st_month st1).
        -- intros [= <- _]. split; [lia|].
           eexists _, _. split; [exact Ht1 | exact Hgrow].
        -- intros H. destruct (IH _ _ _ _ _ Ht1 H) as (Hm & vb' & t' & Ht' & Hle).
           split; [lia|]. exists vb', t'. split; [exact Ht' | lia].
      * intros [= <- _]. eapply Hstay; eassumption.
    + intros [= <- _]. eapply Hstay; eassumption.
Qed.

(** The second run ends no later than the first, having paid no more
    interest. *)
Lemma while_loop_ahead fuel : forall st1 st2 st1' ex1,
  ahead st1 st2 ->
  while_loop r pay1 safety_cap fuel st1 = Some (Ok (st1', ex1)) ->
  exists st2' ex2,
    while_loop r pay2 safety_cap fuel st2 = Some (Ok (st2', ex2))
    /\ st_month st2' <= st_month st1'
    /\ (st_total_interest st2' <=? st_total_interest st1')%float = true.
Proof using All.
  assert (Hstop : forall fuel' st1 st2 st1' ex1 (ex2 : loop_exit),
            ahead st1 st2 ->
            while_loop r pay1 safety_cap fuel' st1 = Some (Ok (st1', ex1)) ->
            exists st2' ex2',
              Some (Ok (st2, ex2)) = Some (Ok (st2', ex2'))
              /\ st_month st2' <= st_month st1'
              /\ (st_total_interest st2' <=? st_total_interest st1')%float
                 = true).
  { intros fuel' st1 st2 st1' ex1 ex2
           (Hm & vb1 & t1 & vb2 & t2 & Ht1 & Ht2 & Hvb & Ht) Hrun.
    destruct (while_loop_grows pay1 vp1 pay1_value pay1_finite
                _ _ _ _ _ _ Ht1 Hrun) as (Hmon & vb' & t' & Ht' & Hle).
    exists st2, ex2. split; [reflexivity|]. split; [lia|].
    apply leb_true. exists t2, t'.
    destruct Ht2 as (_ & _ & Hx & _). destruct Ht' as (_ & _ & Hy & _).
    repeat split; try assumption. lia. }
  induction fuel as [|fuel IH]; intros st1 st2 st1' ex1 Ha Hrun.
  - pose proof Hrun as Hrun0. cbn in Hrun |- *.
    destruct (balance_open st1) eqn:Ho1; cbn in Hrun.
    + destruct (below_cap safety_cap st1) eqn:Hc1; cbn in Hrun;
        [discriminate|].
      rewrite (below_cap_ahead _ _ Ha), Hc1.
      destruct (balance_open st2); cbn; eapply Hstop; eassumption.
    + rewrite (open_ahead _ _ Ha Ho1). cbn. eapply Hstop; eassumption.
  - pose proof Hrun as Hrun0. cbn in Hrun |- *.
    destruct (balance_open st1) eqn:Ho1; cbn in Hrun.
    + destruct (below_cap safety_cap st1) eqn:Hc1; cbn in Hrun.
      * rewrite (below_cap_ahead _ _ Ha), Hc1.
        destruct (balance_open st2); cbn; [|eapply Hstop; eassumption].
        destruct (body r pay1 st1) as [st1a|e] eqn:Hbody1; [|discriminate].
        destruct (body_ahead _ _ _ Ha Hbody1) as (st2a & Hbody2 & Ha').
        rewrite Hbody2. pose proof Ha' as [Hm' _]. rewrite <- Hm'.
        destruct (3600 <? st_month st1a) eqn:Hbrk.
        -- injection Hrun as <- _.
           destruct Ha' as (_ & vb1 & t1 & vb2 & t2 & Ht1 & Ht2 & Hvb & Ht).
           exists st2a, HardStop. split; [reflexivity|]. split; [lia|].
           apply leb_true. exists t2, t1.
           destruct Ht1 as (_ & _ & Hx & _). destruct Ht2 as (_ & _ & Hy & _).
           repeat split; assumption.
        -- apply (IH _ _ _ _ Ha' Hrun).
      * rewrite (below_cap_ahead _ _ Ha), Hc1.
        destruct (balance_open st2); cbn; eapply Hstop; eassumption.
    + rewrite (open_ahead _ _ Ha Ho1). cbn. eapply Hstop; eassumption.
Qed.

End SideBySide.

(** ** Validation and the scheduled payment *)

Section Calculate.

Variable libm_pow : float -> float -> float.

Local Abbreviation calculate_loan := (calculate_loan libm_pow).
Local Abbreviation scheduled_payment := (scheduled_payment libm_pow).

Lemma float_of_int_raise n e : Py.float_of_int n = Raise e -> e = OverflowError.
Proof.
  unfold Py.float_of_int.
  destruct (binary_normalize prec emax n 0 false); congruence.
Qed.

Lemma truediv_raise x y e : Py.truediv x y = Raise e -> e = ZeroDivisionError.
Proof. unfold Py.truediv. destruct (y =? 0)%float; congruence. Qed.

Lemma float_pow_raise iv n e :
  Py.float_pow libm_pow iv n = Raise e -> e = OverflowError.
Proof.
  unfold Py.float_pow.
  destruct (Py.float_of_int n) as [iw|e'] eqn:Hn; cbn.
  - repeat match goal with
           | |- context [if ?b then _ else _] => destruct b
           end; congruence.
  - intros [= <-]. eapply float_of_int_raise; eassumption.
Qed.

Lemma base_payment_raise P r n e :
  base_payment libm_pow P r n = Raise e ->
  e = ZeroDivisionError \/ e = OverflowError.
Proof.
  unfold base_payment. destruct (r =? 0)%float.
  - destruct (Py.float_of_int n) as [nf|e'] eqn:Hn; cbn.
    + intros H. left. eapply truediv_raise; eassumption.
    + intros [= <-]. right. eapply float_of_int_raise; eassumption.
  - destruct (Py.float_pow libm_pow (1 + r) n) as [x|e'] eqn:Hx; cbn.
    + intros H. left. eapply truediv_raise; eassumption.
    + intros [= <-]. right. eapply float_pow_raise; eassumption.
Qed.

(** Before the loop only [InvalidInput] and Python's arithmetic errors
    can be raised. *)
Lemma scheduled_payment_raise payload e :
  scheduled_payment payload = Raise e ->
  (e = InvalidInput /\ invalid payload = true)
  \/ (invalid payload = false
      /\ (e = ZeroDivisionError \/ e = OverflowError)).
Proof.
  unfold Engine.scheduled_payment. destruct (invalid payload).
  - intros [= <-]. left. split; reflexivity.
  - destruct (base_payment _ _ _ _) as [b|e'] eqn:Hb; cbn; [discriminate|].
    intros [= <-]. right. split; [reflexivity|].
    eapply base_payment_raise; eassumption.
Qed.

Lemma scheduled_payment_valid payload payment :
  scheduled_payment payload = Ok payment -> invalid payload = false.
Proof.
  unfold Engine.scheduled_payment. destruct (invalid payload);
    [discriminate | reflexivity].
Qed.

(** The loop always returns with the fuel [calculate_loan] gives it. *)
Lemma run_loop_total payload payment :
  run_loop payload payment <> None.
Proof. unfold run_loop. apply while_loop_total. cbn. lia. Qed.

Lemma run_loop_result payload payment o :
  run_loop payload payment = Some o <->
  loop_result (monthly_rate payload) payment
              (LoanInput.term_months payload + 600)
              (initial_state (LoanInput.principal payload)) o.
Proof.
  split.
  - apply while_loop_sound.
  - intros H. apply while_loop_complete; [exact H | apply run_loop_total].
Qed.

(** [calculate_loan] is total: it returns a result or raises. *)
Lemma calculate_loan_total payload : calculate_loan payload <> None.
Proof.
  unfold Engine.calculate_loan.
  destruct (scheduled_payment payload) as [payment|e]; [|discriminate].
  pose proof (run_loop_total payload payment) as Ht.
  destruct (run_loop payload payment) as [[[st ex]|e]|];
    [discriminate | discriminate | contradiction].
Qed.

(** A successful call is a successful loop on the scheduled payment. *)
Lemma calculate_loan_ok payload res :
  calculate_loan payload = Some (Ok res) <->
  exists payment st ex,
    scheduled_payment payload = Ok payment /\
    run_loop payload payment = Some (Ok (st, ex)) /\
    res = build_result payload payment st.
Proof.
  unfold Engine.calculate_loan. split.
  - destruct (scheduled_payment payload) as [payment|e]; [|discriminate].
    destruct (run_loop payload payment) as [[[st ex]|e]|] eqn:Hr;
      try discriminate.
    intros [= <-]. exists payment, st, ex. repeat split. exact Hr.
  - intros (payment & st & ex & -> & -> & ->). reflexivity.
Qed.

(** A raised exception comes from before the loop or from its guard. *)
Lemma calculate_loan_raise payload e :
  calculate_loan payload = Some (Raise e) <->
  scheduled_payment payload = Raise e
  \/ exists payment,
       scheduled_payment payload = Ok payment /\
       run_loop payload payment = Some (Raise e).
Proof.
  unfold Engine.calculate_loan. split.
  - destruct (scheduled_payment payload) as [payment|e'].
    + destruct (run_loop payload payment) as [[[st ex]|e']|] eqn:Hr;
        try discriminate.
      intros [= <-]. right. exists payment. split; [reflexivity | exact Hr].
    + intros [= <-]. left. reflexivity.
  - intros [-> | (payment & -> & ->)]; reflexivity.
Qed.

End Calculate.

(** ** Input rejection *)

(** C6: [calculate_loan] raises [InvalidInput] whenever the principal is
    [<= 0], the term is [<= 0] or the annual rate is [< 0]; the check comes
    before the payment formula and the loop (it is the first thing
    [scheduled_payment] does), and no result, hence no schedule, is
    returned. *)
Theorem invalid_input_rejected
    (libm_pow : float -> float -> float) (payload : LoanInput.t) :
  (LoanInput.principal payload <=? 0)%float = true
  \/ LoanInput.term_months payload <= 0
  \/ (LoanInput.annual_rate payload <? 0)%float = true ->
  scheduled_payment libm_pow payload = Raise InvalidInput
  /\ calculate_loan libm_pow payload = Some (Raise InvalidInput)
  /\ forall res, calculate_loan libm_pow payload <> Some (Ok res).
Proof.
  intros H.
  assert (Hinv : invalid payload = true).
  { unfold invalid. destruct H as [H | [H | H]].
    - rewrite H. reflexivity.
    - apply Z.leb_le in H. rewrite H. apply orb_true_iff. left.
      apply orb_true_r.
    - rewrite H. apply orb_true_r. }
  assert (Hs : scheduled_payment libm_pow payload = Raise InvalidInput).
  { unfold scheduled_payment. rewrite Hinv. reflexivity. }
  split; [exact Hs|].
  assert (Hc : calculate_loan libm_pow payload = Some (Raise InvalidInput)).
  { apply calculate_loan_raise. left. exact Hs. }
  split; [exact Hc|]. intros res. rewrite Hc. discriminate.
Qed.

Lemma invalid_input_rejected_witness :
  Reference.calculate_loan (LoanInput.Build 0 5 12 0)
  = Some (Raise InvalidInput).
Proof.
  refine (proj1 (proj2 (invalid_input_rejected Libm.pow
                          (LoanInput.Build 0 5 12 0) _))).
  left. reflexivity.
Defined.

(** ** The non-amortization guard *)

(** C1: [calculate_loan] raises [NonAmortizingPayment] exactly when the
    loop reaches a month (a state [st] in which its condition holds) whose
    principal component is [<= 0] while the monthly rate is [> 0].  That
    month is the first and only such month the loop reaches, the call
    returns no result (so no partial schedule), and with a zero monthly
    rate the guard never fires. *)
Theorem non_amortizing_guard
    (libm_pow : float -> float -> float) (payload : LoanInput.t) :
  let r := monthly_rate payload in
  let cap := LoanInput.term_months payload + 600 in
  let st0 := initial_state (LoanInput.principal payload) in
  let starved payment st :=
    scheduled_payment libm_pow payload = Ok payment
    /\ runs r payment cap st0 st
    /\ loop_continues cap st = true
    /\ (principal_component r payment (st_balance st) <=? 0)%float = true
    /\ (0 <? r)%float = true in
  (calculate_loan libm_pow payload = Some (Raise NonAmortizingPayment)
   <-> exists payment st, starved payment st)
  /\ (forall payment st st',
        starved payment st -> starved payment st' -> st' = st)
  /\ (calculate_loan libm_pow payload = Some (Raise NonAmortizingPayment) ->
      forall res, calculate_loan libm_pow payload <> Some (Ok res))
  /\ ((r =? 0)%float = true ->
      (forall payment balance, guard_fires r payment balance = false)
      /\ calculate_loan libm_pow payload
         <> Some (Raise NonAmortizingPayment)).
Proof.
  intros r cap st0 starved.
  assert (Hguard : forall payment st,
            (principal_component r payment (st_balance st) <=? 0)%float = true
            /\ (0 <? r)%float = true
            <-> guard_fires r payment (st_balance st) = true).
  { intros payment st. unfold guard_fires. rewrite andb_true_iff. tauto. }
  assert (Hiff :
    calculate_loan libm_pow payload = Some (Raise NonAmortizingPayment)
    <-> exists payment st, starved payment st).
  { rewrite calculate_loan_raise. split.
    - intros [Hs | (payment & Hs & Hl)].
      + apply scheduled_payment_raise in Hs as [[He _] | [_ [He | He]]];
          discriminate He.
      + apply run_loop_result in Hl. inversion Hl as [| | |st Hruns Hc Hg].
        subst. exists payment, st. unfold starved.
        apply Hguard in Hg. tauto.
    - intros (payment & st & Hs & Hruns & Hc & Hg).
      right. exists payment. split; [exact Hs|].
      apply run_loop_result. apply result_raise with (st := st);
        [exact Hruns | exact Hc | apply Hguard; exact Hg]. }
  split; [exact Hiff|]. split; [|split].
  - intros payment st st' (Hs & Hruns & _ & Hg) (Hs' & Hruns' & _ & Hg').
    apply Hguard in Hg. apply Hguard in Hg'.
    destruct (runs_chain _ _ _ _ _ _ Hruns Hruns') as [H | H].
    + eapply guard_stops; eassumption.
    + symmetry. eapply guard_stops; eassumption.
  - intros H res. rewrite H. discriminate.
  - intros Hr0.
    assert (Hnever : forall payment balance,
              guard_fires r payment balance = false).
    { intros payment balance. unfold guard_fires.
      rewrite (eqb_zero_not_pos _ Hr0). apply andb_false_r. }
    split; [exact Hnever|].
    intros H. apply Hiff in H as (payment & st & _ & _ & _ & _ & Hpos).
    rewrite (eqb_zero_not_pos _ Hr0) in Hpos. discriminate.
Qed.

(** ** Bounds on the number of months *)

Lemma run_loop_months
    (payload : LoanInput.t) (payment : float) st ex :
  0 < LoanInput.term_months payload ->
  run_loop payload payment = Some (Ok (st, ex)) ->
  st_month st = Z.of_nat (List.length (st_schedule st))
  /\ st_month st <= LoanInput.term_months payload + 600
  /\ st_month st <= 3601
  /\ (ex = HardStop ->
      st_month st = 3601 /\ 3000 < LoanInput.term_months payload).
Proof.
  intros Hn H. apply run_loop_result in H.
  set (cap := LoanInput.term_months payload + 600) in *.
  assert (Hruns : forall st1,
            runs (monthly_rate payload) payment cap
                 (initial_state (LoanInput.principal payload)) st1 ->
            st_month st1 = Z.of_nat (List.length (st_schedule st1))
            /\ st_month st1 <= cap /\ st_month st1 <= 3600).
  { intros st1 Hr. apply runs_month in Hr. cbn in Hr. lia. }
  inversion H as [st1 Hr Hb | st1 Hr Hb Hc | st1 st2 Hr [Hc Hbody] Hbrk |];
    subst.
  - apply Hruns in Hr. repeat split; try lia; discriminate.
  - apply Hruns in Hr. repeat split; try lia; discriminate.
  - apply Hruns in Hr. apply continues_inv in Hc as [_ Hc].
    pose proof (body_month _ _ _ _ Hbody) as Hm.
    pose proof (body_length _ _ _ _ Hbody) as Hl.
    apply Z.ltb_lt in Hbrk. fold cap in Hc. repeat split; intros; lia.
Qed.

(** C4: the loop makes at most 3601 passes, so a returned schedule has at
    most 3601 entries, and never more than [term_months + 600]; the break
    of line 105 is taken only when [term_months > 3000], and then the
    schedule has exactly 3601 entries. *)
Theorem iteration_bound
    (libm_pow : float -> float -> float) (payload : LoanInput.t)
    (res : LoanResult.t) :
  calculate_loan libm_pow payload = Some (Ok res) ->
  LoanResult.payoff_months res
  = Z.of_nat (List.length (LoanResult.schedule res))
  /\ LoanResult.payoff_months res <= 3601
  /\ LoanResult.payoff_months res <= LoanInput.term_months payload + 600
  /\ (LoanInput.term_months payload <= 3000 ->
      LoanResult.payoff_months res <= 3600)
  /\ (forall payment st,
        scheduled_payment libm_pow payload = Ok payment ->
        run_loop payload payment = Some (Ok (st, HardStop)) ->
        3000 < LoanInput.term_months payload
        /\ LoanResult.payoff_months res = 3601).
Proof.
  intros H. apply calculate_loan_ok in H as (payment & st & ex & Hs & Hl & ->).
  assert (Hn : 0 < LoanInput.term_months payload).
  { apply scheduled_payment_valid in Hs. unfold invalid in Hs.
    apply orb_false_iff in Hs as [Hs _]. apply orb_false_iff in Hs as [_ Hs].
    apply Z.leb_gt in Hs. exact Hs. }
  pose proof (run_loop_months _ _ _ _ Hn Hl) as (Hm & Hcap & Hmax & Hhard).
  unfold build_result.
  cbn [LoanResult.payoff_months LoanResult.schedule].
  split; [|split; [|split; [|split]]]; try lia.
  intros payment' st' Hs' Hl'.
  rewrite Hs in Hs'. injection Hs' as <-.
  rewrite Hl in Hl'. injection Hl' as <- ->.
  destruct (Hhard eq_refl). split; lia.
Qed.

Lemma observe_ok {A : Type} (f : LoanResult.t -> A) payload (a : A) :
  Reference.observe f payload = Some a ->
  exists res, Reference.calculate_loan payload = Some (Ok res) /\ f res = a.
Proof.
  unfold Reference.observe.
  destruct (Reference.calculate_loan payload) as [[res|e]|];
    try discriminate.
  intros [= <-]. exists res. split; reflexivity.
Defined.

Lemma standard_loan_observed :
  Reference.observe
    (fun res => (LoanResult.monthly_payment res, LoanResult.total_payment res,
                 LoanResult.total_interest res, LoanResult.payoff_months res,
                 ScheduleItem.balance (Reference.last_entry res)))
    Reference.standard_loan
  = Some (856.07%float, 10272.84%float, 272.9%float, 12, 0%float).
Proof. vm_compute. reflexivity. Defined.

Lemma long_term_loan_observed :
  Reference.observe
    (fun res => (LoanResult.payoff_months res,
                 List.length (LoanResult.schedule res),
                 ScheduleItem.balance (Reference.last_entry res)))
    Reference.long_term_loan
  = Some (3601, 3601%nat, 279800%float).
Proof. vm_compute. reflexivity. Qed.

Lemma long_term_loan_valid : LoanInput.valid Reference.long_term_loan.
Proof. repeat split. Qed.

Lemma iteration_bound_witness :
  exists res,
    Reference.calculate_loan Reference.standard_loan = Some (Ok res)
    /\ LoanResult.payoff_months res <= 3601.
Proof.
  destruct (observe_ok _ _ _ standard_loan_observed) as (res & Hres & _).
  exists res. split; [exact Hres|].
  exact (proj1 (proj2 (iteration_bound Libm.pow _ res Hres))).
Defined.

(** C4, as stated: a schedule never has more than 3600 entries.  A
    5000-month interest-free loan of 1,000,000 pays 200 a month and is
    stopped by the break after month 3601. *)
Lemma long_term_loan_has_3601_entries :
  LoanInput.valid Reference.long_term_loan
  /\ exists res,
       Reference.calculate_loan Reference.long_term_loan = Some (Ok res)
       /\ List.length (LoanResult.schedule res) = 3601%nat
       /\ ~ LoanResult.payoff_months res <= 3600.
Proof.
  split; [exact long_term_loan_valid|].
  destruct (observe_ok _ _ _ long_term_loan_observed) as (res & Hres & Hobs).
  exists res. injection Hobs as Hp Hl Hb.
  split; [exact Hres|]. split; [exact Hl|]. lia.
Qed.

(** ** What the schedule records *)

Section ScheduleFacts.

Variables (r payment : float) (safety_cap : Z).

Local Abbreviation body := (body r payment).
Local Abbreviation pass := (pass r payment safety_cap).
Local Abbreviation runs := (runs r payment safety_cap).
Local Abbreviation figures := (figures r payment).
Local Abbreviation month_entry := (month_entry r payment).

Lemma pass_appends st st' :
  pass st st' ->
  (0.005 <? st_balance st)%float = true
  /\ guard_fires r payment (st_balance st) = false
  /\ st_balance st' = mf_balance (figures (st_balance st))
  /\ st_schedule st'
     = st_schedule st ++ [entry (st_month st + 1) (figures (st_balance st))].
Proof.
  intros [Hc Hb]. apply continues_inv in Hc as [Hopen _].
  apply body_ok in Hb as [Hg ->]. repeat split; assumption.
Qed.

(** Every entry a run appends was computed by [figures] from a balance
    above the threshold, and rounded as [entry] does. *)
Lemma runs_entries st st' :
  runs st st' ->
  exists new, st_schedule st' = st_schedule st ++ new
              /\ Forall month_entry new.
Proof.
  induction 1 as [st | st st1 st' Hp Hbrk _ (new & Hnew & Hall)].
  - exists []. split; [symmetry; apply app_nil_r | constructor].
  - apply pass_appends in Hp as (Hopen & Hg & _ & Hs).
    exists (entry (st_month st + 1) (figures (st_balance st)) :: new).
    split.
    + rewrite Hnew, Hs, <- app_assoc. reflexivity.
    + constructor; [|exact Hall].
      exists (st_month st + 1), (st_balance st). repeat split; assumption.
Qed.

Lemma pass_tracks_balance st st' :
  pass st st' -> schedule_tracks_balance st -> schedule_tracks_balance st'.
Proof.
  intros Hp. apply pass_appends in Hp as (Hopen & _ & Hb & Hs).
  unfold schedule_tracks_balance. rewrite Hs, rev_app_distr. cbn [rev app].
  intros Hold. split.
  - unfold records_balance. rewrite Hb. reflexivity.
  - destruct (rev (st_schedule st)) as [|e before]; [constructor|].
    destruct Hold as [He Hbefore]. constructor; [|exact Hbefore].
    exists (st_balance st). split; assumption.
Qed.

Lemma runs_tracks_balance st st' :
  runs st st' -> schedule_tracks_balance st -> schedule_tracks_balance st'.
Proof.
  induction 1 as [st | st st1 st' Hp _ _ IH]; [trivial|].
  intros H. apply IH. eapply pass_tracks_balance; eassumption.
Qed.

(** Rounding the actual payments entry by entry gives the recorded
    payments. *)
Lemma actual_payments_recorded fuel : forall st st' ex,
  while_loop r payment safety_cap fuel st = Some (Ok (st', ex)) ->
  exists new,
    st_schedule st' = st_schedule st ++ new
    /\ map ScheduleItem.payment new
       = map (fun a => Py.round a 2)
             (actual_payments r payment safety_cap fuel st).
Proof.
  induction fuel as [|fuel IH]; intros st st' ex;
    cbn [while_loop actual_payments]; unfold loop_continues.
  - destruct (balance_open st); cbn [negb andb].
    + destruct (below_cap safety_cap st); cbn [negb]; [discriminate|].
      intros [= <- <-]. exists []. rewrite app_nil_r. split; reflexivity.
    + intros [= <- <-]. exists []. rewrite app_nil_r. split; reflexivity.
  - destruct (balance_open st); cbn [negb andb].
    + destruct (below_cap safety_cap st); cbn [negb].
      * destruct (body st) as [st1|e] eqn:Hbody; [|discriminate].
        apply body_ok in Hbody as [_ Hst1].
        assert (Hs1 : st_schedule st1
                      = st_schedule st
                        ++ [entry (st_month st + 1) (figures (st_balance st))])
          by (rewrite Hst1; reflexivity).
        destruct (3600 <? st_month st1).
        -- intros [= <- <-]. eexists. split; [exact Hs1 | reflexivity].
        -- intros H. apply IH in H as (new & Happ & Hmap).
           exists (entry (st_month st + 1) (figures (st_balance st)) :: new).
           split.
           ++ rewrite Happ, Hs1, <- app_assoc. reflexivity.
           ++ cbn [map]. rewrite Hmap. reflexivity.
      * intros [= <- <-]. exists []. rewrite app_nil_r. split; reflexivity.
    + intros [= <- <-]. exists []. rewrite app_nil_r. split; reflexivity.
Qed.

End ScheduleFacts.

(** ** The final-month clamp *)

(** C7: in a pass whose unclamped principal component exceeds the balance,
    the recorded principal is the (rounded) balance, the recorded payment
    is the rounded sum of interest and balance, which is at most the
    scheduled payment, and the balance left is [b - b]; in every other
    pass the recorded payment is the rounded scheduled payment. *)
Theorem final_month_clamp (r payment : float) (safety_cap : Z)
    (st st' : loop_state) :
  pass r payment safety_cap st st' ->
  let b := st_balance st in
  let interest := interest_component r b in
  let unclamped := principal_component r payment b in
  exists e,
    st_schedule st' = st_schedule st ++ [e]
    /\ ScheduleItem.month e = st_month st + 1
    /\ ScheduleItem.interest e = Py.round interest 2
    /\ if (b <? unclamped)%float
       then ScheduleItem.principal e = Py.round b 2
            /\ ScheduleItem.payment e = Py.round (interest + b) 2
            /\ (interest + b <=? payment)%float = true
            /\ st_balance st' = (b - b)%float
       else ScheduleItem.principal e = Py.round unclamped 2
            /\ ScheduleItem.payment e = Py.round payment 2
            /\ st_balance st' = (b - unclamped)%float.
Proof.
  intros Hp b interest unclamped.
  apply pass_appends in Hp as (_ & _ & Hb & Hs).
  exists (entry (st_month st + 1) (figures r payment (st_balance st))).
  split; [exact Hs|]. rewrite Hb. unfold entry, figures.
  fold b. fold interest. fold unclamped.
  destruct (b <? unclamped)%float eqn:Hclamp; cbn; repeat split;
    try reflexivity.
  apply clamped_payment_le. exact Hclamp.
Qed.

Lemma final_month_clamp_witness :
  exists st' e,
    pass 0 100 603 (initial_state 50) st'
    /\ st_schedule st' = [e]
    /\ ScheduleItem.principal e = 50%float
    /\ ScheduleItem.payment e = 50%float
    /\ st_balance st' = 0%float.
Proof.
  assert (Hp : pass 0 100 603 (initial_state 50)
                 (LoopState 0 [ScheduleItem.Build 1 50 0 50 0] 0 1)).
  { split; vm_compute; reflexivity. }
  destruct (final_month_clamp 0 100 603 _ _ Hp) as (e & Hs & _ & _ & Hc).
  exists (LoopState 0 [ScheduleItem.Build 1 50 0 50 0] 0 1), e.
  split; [exact Hp|]. split; [exact Hs|].
  change (ScheduleItem.principal e = Py.round 50 2
          /\ ScheduleItem.payment e = Py.round (0 + 50) 2
          /\ true = true
          /\ 0%float = 0%float) in Hc.
  destruct Hc as (H1 & H2 & _).
  split; [exact H1|]. split; [exact H2 | reflexivity].
Defined.

(** ** Totals and rounding *)

Lemma run_loop_entries payload payment st ex :
  run_loop payload payment = Some (Ok (st, ex)) ->
  Forall (month_entry (monthly_rate payload) payment) (st_schedule st)
  /\ schedule_tracks_balance st.
Proof.
  intros H. apply run_loop_result in H.
  assert (Hruns : forall st1,
            runs (monthly_rate payload) payment
                 (LoanInput.term_months payload + 600)
                 (initial_state (LoanInput.principal payload)) st1 ->
            Forall (month_entry (monthly_rate payload) payment)
                   (st_schedule st1)
            /\ schedule_tracks_balance st1).
  { intros st1 Hr. split.
    - apply runs_entries in Hr as (new & -> & Hall). exact Hall.
    - eapply runs_tracks_balance; [exact Hr | exact I]. }
  inversion H as [st1 Hr Hb | st1 Hr Hb Hc | st1 st2 Hr Hp Hbrk |]; subst.
  - apply Hruns; assumption.
  - apply Hruns; assumption.
  - apply Hruns in Hr as [Hall Htr]. split.
    + pose proof (pass_appends _ _ _ _ _ Hp) as (Hopen & Hg & _ & ->).
      apply Forall_app. split; [exact Hall|].
      constructor; [|constructor].
      exists (st_month st1 + 1), (st_balance st1). repeat split; assumption.
    + eapply pass_tracks_balance; eassumption.
Qed.



(** The order of rounding and summing shows: on the standard loan the
    rounded payments add up to 10272.84, the unrounded ones to 10272.90. *)
Lemma standard_loan_rounding_order :
  Reference.observe LoanResult.total_payment Reference.standard_loan
  = Some 10272.84%float
  /\ Reference.total_of_unrounded Reference.standard_loan
     = Some 10272.9%float.
Proof. split; vm_compute; reflexivity. Qed.

(** ** The component sum *)





(** ** Balance depletion *)

Lemma round_half_cent : Py.round 0.005 2 = 0.01%float.
Proof. vm_compute. reflexivity. Qed.

Lemma round_zero : Py.round 0 2 = 0%float.
Proof. reflexivity. Qed.

(** A balance on which the loop goes on is recorded as at least one
    cent. *)
Lemma open_balance_recorded b :
  (0.005 <? b)%float = true ->
  (0.01 <=? Py.round (Py.max b 0) 2)%float = true.
Proof.
  intros H. pose proof H as Hlt.
  apply ltb_true in H as (c & vb & Hc & Hb & Hcb).
  assert (Hc0 : 0 < c) by (vm_compute in Hc; apply some_inj in Hc; lia).
  unfold Py.max. rewrite ltb_fval, Hb, fval_zero.
  destruct (Z.ltb_spec vb 0) as [?|_]; [lia|].
  rewrite <- round_half_cent. apply round_le.
  apply leb_true. exists c, vb. repeat split; (assumption || lia).
Qed.

(** A balance of at most half a cent is recorded as 0.00 or 0.01. *)
Lemma closed_balance_recorded b :
  (b <=? 0.005)%float = true ->
  (Py.round (Py.max b 0) 2 =? 0)%float = true
  \/ (Py.round (Py.max b 0) 2 =? 0.01)%float = true.
Proof.
  intros H. apply leb_true in H as (vb & c & Hb & Hc & Hbc).
  unfold Py.max. rewrite ltb_fval, Hb, fval_zero.
  destruct (Z.ltb_spec vb 0) as [Hneg | Hpos]; [left; reflexivity|].
  rewrite !eqb_fval, (round_fval b vb Hb), fval_zero.
  pose proof (fval_bound _ _ Hc) as Hcr.
  assert (Hc1 : cents c = 1)
    by (vm_compute in Hc; apply some_inj in Hc; subst c; vm_compute;
        reflexivity).
  assert (Hfin : c < huge)
    by (vm_compute in Hc; apply some_inj in Hc; subst c; vm_compute;
        reflexivity).
  pose proof (cents_mono _ _ Hbc) as Hup. rewrite Hc1 in Hup.
  pose proof (cents_nonneg vb Hpos) as Hlo.
  assert (Hval : round2_val vb = cents_val (cents vb)).
  { unfold round2_val. pose proof huge_pos.
    replace ((vb =? huge) || (vb =? - huge)) with false
      by (symmetry; apply orb_false_iff; split; apply Z.eqb_neq; lia).
    destruct vb as [|p|p]; [reflexivity | reflexivity | lia]. }
  rewrite Hval.
  assert (Hq : cents vb = 0 \/ cents vb = 1) by lia.
  destruct Hq as [-> | ->].
  - left. reflexivity.
  - right. vm_compute. reflexivity.
Qed.

(** C3, as amended: the final entry records [round2(max(b, 0))] of the
    balance [b] the loop ended on, and [b] is not above 0.005 when the
    loop ended on its balance test (rather than at the safety cap or the
    break); every entry before the final one records a balance above
    0.005. *)
Theorem balance_depletion
    (libm_pow : float -> float -> float) (payload : LoanInput.t)
    (res : LoanResult.t) :
  calculate_loan libm_pow payload = Some (Ok res) ->
  exists payment st ex,
    scheduled_payment libm_pow payload = Ok payment
    /\ run_loop payload payment = Some (Ok (st, ex))
    /\ (ex = BalanceDepleted -> (0.005 <? st_balance st)%float = false)
    /\ match rev (LoanResult.schedule res) with
       | [] => True
       | final :: before =>
           ScheduleItem.balance final
           = Py.round (Py.max (st_balance st) 0) 2
           /\ Forall (fun e => exists b,
                          (0.005 <? b)%float = true
                          /\ ScheduleItem.balance e
                             = Py.round (Py.max b 0) 2) before
       end.
Proof.
  intros H. apply calculate_loan_ok in H as (payment & st & ex & Hs & Hl & ->).
  exists payment, st, ex. split; [exact Hs|]. split; [exact Hl|]. split.
  - intros ->. apply run_loop_result in Hl.
    inversion Hl as [st1 Hr Hb | | |]; subst. exact Hb.
  - apply run_loop_entries in Hl as [_ Htr]. exact Htr.
Qed.

Lemma balance_depletion_witness :
  exists res,
    Reference.calculate_loan Reference.standard_loan = Some (Ok res)
    /\ exists payment st ex,
         scheduled_payment Libm.pow Reference.standard_loan = Ok payment
         /\ run_loop Reference.standard_loan payment = Some (Ok (st, ex))
         /\ (ex = BalanceDepleted -> (0.005 <? st_balance st)%float = false).
Proof.
  destruct (observe_ok _ _ _ standard_loan_observed) as (res & Hres & _).
  exists res. split; [exact Hres|].
  destruct (balance_depletion Libm.pow _ res Hres)
    as (payment & st & ex & Hs & Hl & Hb & _).
  exists payment, st, ex. repeat split; assumption.
Defined.

(** C3, as stated: the final entry of a successful non-empty schedule
    records a balance of 0.00.  The 5000-month loan is stopped by the
    break with 279,800 still owed, and its final entry says so. *)
Lemma long_term_loan_ends_with_balance :
  LoanInput.valid Reference.long_term_loan
  /\ exists res,
       Reference.calculate_loan Reference.long_term_loan = Some (Ok res)
       /\ LoanResult.schedule res <> []
       /\ ScheduleItem.balance (Reference.last_entry res) = 279800%float
       /\ (ScheduleItem.balance (Reference.last_entry res) =? 0)%float
          = false.
Proof.
  split; [exact long_term_loan_valid|].
  destruct (observe_ok _ _ _ long_term_loan_observed) as (res & Hres & Hobs).
  exists res. injection Hobs as Hp Hl Hb.
  split; [exact Hres|]. split; [|split; [exact Hb|]].
  - intros Hnil. rewrite Hnil in Hl. discriminate.
  - rewrite Hb. reflexivity.
Qed.

(** ** Reaching the safety cap *)

Section Stalled.

Variables (r payment : float) (safety_cap : Z) (b : float).

Hypothesis balance_stalls : mf_balance (figures r payment b) = b.
Hypothesis guard_passes : guard_fires r payment b = false.
Hypothesis balance_is_open : (0.005 <? b)%float = true.

Lemma stalled_pass st :
  st_balance st = b -> st_month st < safety_cap ->
  exists st', pass r payment safety_cap st st'
              /\ st_balance st' = b /\ st_month st' = st_month st + 1.
Proof.
  intros Hb Hm.
  exists (LoopState (mf_balance (figures r payment b))
            (st_schedule st ++ [entry (st_month st + 1) (figures r payment b)])
            (st_total_interest st + mf_interest (figures r payment b))%float
            (st_month st + 1)).
  split; [|split; [exact balance_stalls | reflexivity]].
  split.
  - unfold loop_continues, balance_open, below_cap.
    rewrite Hb, balance_is_open. apply Z.ltb_lt. exact Hm.
  - unfold body. rewrite Hb, guard_passes. reflexivity.
Qed.

(** A balance the month's arithmetic leaves unchanged keeps the loop
    going for as many months as the caps allow. *)
Lemma stalled_runs (k : nat) : forall st,
  st_balance st = b ->
  st_month st + Z.of_nat k <= safety_cap ->
  st_month st + Z.of_nat k <= 3600 ->
  exists st', runs r payment safety_cap st st'
              /\ st_balance st' = b
              /\ st_month st' = st_month st + Z.of_nat k.
Proof.
  induction k as [|k IH]; intros st Hb Hcap Hmax.
  - exists st. split; [constructor | split; [exact Hb | lia]].
  - destruct (stalled_pass st Hb) as (st1 & Hp & Hb1 & Hm1); [lia|].
    destruct (IH st1 Hb1) as (st' & Hr & Hb' & Hm'); [lia | lia |].
    exists st'. split; [|split; [exact Hb' | lia]].
    econstructor; [exact Hp | apply Z.ltb_ge; lia | exact Hr].
Qed.

Lemma stalled_balance st st' :
  runs r payment safety_cap st st' -> st_balance st = b -> st_balance st' = b.
Proof.
  induction 1 as [st | st st1 st' Hp _ _ IH]; [trivial|].
  intros Hb. apply IH. apply pass_appends in Hp as (_ & _ & -> & _).
  rewrite Hb. exact balance_stalls.
Qed.

End Stalled.

Lemma stalled_loan_payment (libm_pow : float -> float -> float) :
  Reference.pow_saturates libm_pow ->
  scheduled_payment libm_pow Reference.stalled_loan
  = Ok 0x1.0000000000001p0%float.
Proof.
  intros (Hfin & Hden & Hbase).
  unfold scheduled_payment.
  change (invalid Reference.stalled_loan) with false. cbv iota.
  change (monthly_rate Reference.stalled_loan) with 0.125%float.
  change (LoanInput.principal Reference.stalled_loan) with 8%float.
  change (LoanInput.term_months Reference.stalled_loan) with 360.
  change (extra Reference.stalled_loan) with 0x1p-52%float.
  assert (Hpow : Py.float_pow libm_pow (1 + 0.125) 360
                 = Ok (libm_pow 1.125%float 360%float)).
  { change (Py.float_pow libm_pow (1 + 0.125) 360)
      with (if is_infinity (libm_pow 1.125%float 360%float)
            then @Raise float OverflowError
            else Ok (libm_pow 1.125%float 360%float)).
    rewrite Hfin. reflexivity. }
  unfold base_payment. change (0.125 =? 0)%float with false. cbv iota.
  rewrite Hpow. cbn [bind]. unfold Py.truediv.
  rewrite Hden, Hbase. reflexivity.
Qed.

(** C10: there is a valid input, with a payment above every month's
    interest, on which the loop stops at the safety cap with the balance
    still above 0.005: [calculate_loan] raises nothing and returns a
    result whose [payoff_months] is [term_months + 600] and whose final
    entry records a positive balance.  The input is [stalled_loan]: the
    payment exceeds the 12.5% interest on 8 by one unit in the last place,
    which is too little to change the balance when subtracted from it. *)
Theorem cap_reached_with_balance (libm_pow : float -> float -> float) :
  Reference.pow_saturates libm_pow ->
  exists payload payment st res,
    LoanInput.valid payload
    /\ scheduled_payment libm_pow payload = Ok payment
    /\ (forall st1,
          runs (monthly_rate payload) payment
               (LoanInput.term_months payload + 600)
               (initial_state (LoanInput.principal payload)) st1 ->
          (interest_component (monthly_rate payload) (st_balance st1)
           <? payment)%float = true)
    /\ run_loop payload payment = Some (Ok (st, SafetyCapReached))
    /\ (0.005 <? st_balance st)%float = true
    /\ calculate_loan libm_pow payload = Some (Ok res)
    /\ LoanResult.payoff_months res = LoanInput.term_months payload + 600
    /\ (0 <? ScheduleItem.balance (Reference.last_entry res))%float = true.
Proof.
  intros Hpow. apply stalled_loan_payment in Hpow.
  set (payload := Reference.stalled_loan) in *.
  set (payment := 0x1.0000000000001p0%float) in *.
  assert (Hstall : mf_balance (figures 0.125 payment 8) = 8%float)
    by reflexivity.
  assert (Hguard : guard_fires 0.125 payment 8 = false) by reflexivity.
  assert (Hopen : (0.005 <? 8)%float = true) by reflexivity.
  destruct (stalled_runs 0.125 payment 960 8 Hstall Hguard Hopen 960
              (initial_state 8) eq_refl)
    as (st & Hruns & Hb & Hm); [cbn; lia | cbn; lia |].
  cbn in Hm.
  assert (Hloop : run_loop payload payment = Some (Ok (st, SafetyCapReached))).
  { apply run_loop_result. apply result_cap.
    - exact Hruns.
    - unfold balance_open. rewrite Hb. reflexivity.
    - unfold below_cap. rewrite Hm. reflexivity. }
  exists payload, payment, st, (build_result payload payment st).
  split; [repeat split|]. split; [exact Hpow|]. split; [|split; [exact Hloop|]].
  - intros st1 Hr.
    rewrite (stalled_balance 0.125 payment 960 8 Hstall _ _ Hr eq_refl).
    reflexivity.
  - split; [rewrite Hb; reflexivity|]. split.
    + apply calculate_loan_ok. exists payment, st, SafetyCapReached.
      repeat split; assumption.
    + pose proof (runs_month _ _ _ _ _ Hruns) as (_ & Hlen & _).
      cbn in Hlen. split.
      * cbn [build_result LoanResult.payoff_months]. rewrite Hm in Hlen.
        change (LoanInput.term_months payload + 600) with 960. lia.
      * pose proof (run_loop_entries _ _ _ _ Hloop) as [_ Htr].
        unfold schedule_tracks_balance, records_balance in Htr.
        unfold Reference.last_entry.
        cbn [build_result LoanResult.schedule].
        destruct (st_schedule st) as [|e l] eqn:Hsch using rev_ind.
        -- cbn in Hlen. lia.
        -- rewrite rev_app_distr in Htr. cbn in Htr. destruct Htr as [He _].
           rewrite last_last, He, Hb. reflexivity.
Qed.

Lemma pow_saturates_reference : Reference.pow_saturates Libm.pow.
Proof. repeat split; vm_compute; reflexivity. Defined.

Lemma cap_reached_with_balance_witness :
  exists payload res,
    LoanInput.valid payload
    /\ Reference.calculate_loan payload = Some (Ok res)
    /\ LoanResult.payoff_months res = LoanInput.term_months payload + 600
    /\ (0 <? ScheduleItem.balance (Reference.last_entry res))%float = true.
Proof.
  destruct (cap_reached_with_balance Libm.pow pow_saturates_reference)
    as (payload & payment & st & res & Hv & _ & _ & _ & _ & Hc & Hp & Hb).
  exists payload, res. repeat split; try assumption; apply Hv.
Defined.

(** ** Zero interest *)



Lemma valid_not_invalid payload :
  LoanInput.valid payload -> invalid payload = false.
Proof.
  intros (HP & Hrate & Hn & _). unfold invalid.
  rewrite (pos_not_leb_zero _ HP), (nonneg_not_ltb_zero _ Hrate).
  destruct (Z.leb_spec (LoanInput.term_months payload) 0); [lia | reflexivity].
Qed.



Lemma straight_line_loan_observed :
  Reference.observe
    (fun res => (LoanResult.monthly_payment res, LoanResult.payoff_months res,
                 LoanResult.total_interest res))
    Reference.straight_line_loan
  = Some (100%float, 12, 0%float).
Proof. vm_compute. reflexivity. Qed.




(** ** Extra payments *)

Lemma scheduled_payment_ok libm_pow payload payment :
  scheduled_payment libm_pow payload = Ok payment ->
  invalid payload = false
  /\ exists base,
       base_payment libm_pow (LoanInput.principal payload)
                    (monthly_rate payload)
                    (LoanInput.term_months payload) = Ok base
       /\ payment = (base + extra payload)%float.
Proof.
  unfold scheduled_payment. destruct (invalid payload); [discriminate|].
  destruct (base_payment _ _ _ _) as [base|e]; cbn [bind]; [|discriminate].
  intros H. apply ok_inj in H. split; [reflexivity|].
  exists base. split; [reflexivity | symmetry; exact H].
Qed.

Lemma extra_fval payload :
  fval (extra payload) = fval (LoanInput.extra_payment payload).
Proof.
  unfold extra.
  destruct (LoanInput.extra_payment payload =? 0)%float eqn:H; [|reflexivity].
  rewrite eqb_fval, fval_zero in H.
  destruct (fval (LoanInput.extra_payment payload)) as [v|]; [|discriminate].
  apply Z.eqb_eq in H. subst v. reflexivity.
Qed.

(** A finite sum with the larger of two non-negative addends bounds the
    sum with the smaller, which is finite as well. *)
Lemma add_le_finite (base e1 e2 : float) :
  (0 <=? e1)%float = true -> (e1 <=? e2)%float = true ->
  finite (base + e2) = true ->
  exists v1 v2,
    fval (base + e1) = Some v1 /\ fval (base + e2) = Some v2
    /\ - huge < v1 < huge /\ - huge < v2 < huge /\ v1 <= v2.
Proof.
  pose proof huge_pos as Hh.
  intros H0 Hle Hfin.
  apply leb_true in H0 as (z & a1 & Hz & Ha1 & Hpos).
  rewrite fval_zero in Hz. apply some_inj in Hz. subst z.
  apply leb_true in Hle as (a1' & a2 & Ha1' & Ha2 & Hle).
  rewrite Ha1 in Ha1'. apply some_inj in Ha1'. subst a1'.
  apply finite_fval in Hfin as (v2 & Hv2 & Hv2r).
  rewrite !add_fval, Ha1, Ha2 in *.
  destruct (fval base) as [vb|] eqn:Hb; [|discriminate].
  pose proof (fval_bound _ _ Hb) as Hbr.
  pose proof (fval_bound _ _ Ha2) as Ha2r.
  destruct (ext_add_cases _ _ _ Hbr Ha2r Hv2)
    as [(_ & _ & ->) | [(_ & _ & ->) | [(_ & _ & ->) | [(_ & _ & ->)
       | (Hbf & Ha2f & ->)]]]]; try lia.
  exists (round_scaled (vb + a1)), (round_scaled (vb + a2)).
  rewrite ext_add_finite by lia.
  pose proof (round_scaled_mono vb (vb + a1) ltac:(lia)) as Hlo.
  rewrite (fval_fixed _ _ Hb) in Hlo.
  pose proof (round_scaled_mono (vb + a1) (vb + a2) ltac:(lia)) as Hhi.
  repeat split; try reflexivity; try exact Hv2; lia.
Qed.


Lemma standard_loan_with_100_observed :
  Reference.observe
    (fun res => (LoanResult.payoff_months res, LoanResult.total_interest res,
                 LoanResult.total_payment res))
    (Reference.standard_loan_with 100)
  = Some (11, 246.14%float, 10246.09%float).
Proof. vm_compute. reflexivity. Qed.




Lemma rounding_loan_observed :
  Reference.observe
    (fun res => (LoanResult.total_interest res, LoanResult.total_payment res))
    (Reference.rounding_loan 0)
  = Some (10150.31, 298744.08)%float
  /\ Reference.observe
       (fun res => (LoanResult.total_interest res,
                    LoanResult.total_payment res))
       (Reference.rounding_loan 0.01)
     = Some (10150.3, 298744.08)%float.
Proof. split; vm_compute; reflexivity. Qed.

(** The last part of C5, as stated: the total paid with an extra
    payment never exceeds the interest of the zero-extra case plus the
    principal.  On 288,593.76 at 11.96% over 6 months the recorded
    payments add up to 298,744.08 with or without an extra cent, one
    cent more than the zero-extra interest of 10,150.31 plus the
    principal. *)
Lemma total_payment_exceeds_interest_plus_principal :
  exists res1 res2,
    Reference.calculate_loan (Reference.rounding_loan 0) = Some (Ok res1)
    /\ Reference.calculate_loan (Reference.rounding_loan 0.01)
       = Some (Ok res2)
    /\ (LoanResult.total_interest res1
        + LoanInput.principal (Reference.rounding_loan 0)
        <? LoanResult.total_payment res2)%float = true.
Proof.
  destruct rounding_loan_observed as [H1 H2].
  destruct (observe_ok _ _ _ H1) as (res1 & Hres1 & Hobs1).
  destruct (observe_ok _ _ _ H2) as (res2 & Hres2 & Hobs2).
  exists res1, res2. injection Hobs1 as Hi1 _. injection Hobs2 as _ Hp2.
  split; [exact Hres1|]. split; [exact Hres2|].
  rewrite Hi1, Hp2. reflexivity.
Qed.

(** * Further properties of [calculate_loan] *)

(** ** Errors *)

Lemma abs_fval x : fval (abs x) = option_map Z.abs (fval x).
Proof.
  pose proof huge_pos as Hh. unfold fval. rewrite abs_spec.
  pose proof (Prim2SF_valid x) as Hv.
  destruct (Prim2SF x) as [s|s| |s m e]; cbn [SFabs sval option_map];
    try reflexivity.
  - destruct s; unfold sign_of; f_equal; lia.
  - pose proof (valid_finite _ _ _ Hv) as (_ & _ & Hb & _).
    destruct s; unfold sign_of; f_equal; lia.
Qed.

Lemma fval_one : fval 1 = Some (2 ^ 1074).
Proof. vm_compute. reflexivity. Qed.

(** A base that compares equal to 1.0 is answered with 1.0, without
    [pow]. *)
Lemma float_pow_one libm_pow iv n nf :
  (iv =? 1)%float = true -> Py.float_of_int n = Ok nf ->
  Py.float_pow libm_pow iv n = Ok 1%float.
Proof.
  intros H1 Hnf. pose proof huge_pos as Hh.
  assert (Hp : 0 < 2 ^ 1074 < huge).
  { split; [apply pow2_pos; lia|]. unfold huge.
    apply Z.pow_lt_mono_r; lia. }
  assert (Hv : fval iv = Some (2 ^ 1074)).
  { rewrite eqb_fval, fval_one in H1.
    destruct (fval iv) as [v|]; [|discriminate].
    apply Z.eqb_eq in H1. subst v. reflexivity. }
  unfold Py.float_pow. rewrite Hnf. cbn [bind].
  destruct (nf =? 0)%float; [reflexivity|].
  unfold is_nan. rewrite (eqb_fval iv iv), Hv, Z.eqb_refl. cbn [negb].
  unfold is_infinity. rewrite eqb_fval, abs_fval, Hv. cbn [option_map].
  change (fval infinity) with (Some huge).
  destruct (Z.eqb_spec (Z.abs (2 ^ 1074)) huge) as [E|_]; [lia|].
  rewrite (eqb_fval iv 0), (ltb_fval iv 0), Hv, fval_zero.
  destruct (Z.eqb_spec (2 ^ 1074) 0) as [E|_]; [lia|].
  destruct (Z.ltb_spec (2 ^ 1074) 0) as [E|_]; [lia|].
  cbn [andb]. rewrite H1. reflexivity.
Qed.

(** A positive rate of at most [2^-53] is absorbed when added to 1. *)
Lemma tiny_rate_absorbed r :
  (0 <? r)%float = true -> (r <=? 0x1p-53)%float = true ->
  (r =? 0)%float = false /\ (1 + r =? 1)%float = true.
Proof.
  intros Hpos Hle. pose proof huge_pos as Hh.
  apply pos_fval in Hpos as (vr & Hvr & Hvrpos).
  rewrite leb_fval, Hvr in Hle.
  assert (Hc : fval 0x1p-53 = Some (2 ^ 1021)) by (vm_compute; reflexivity).
  rewrite Hc in Hle. apply Z.leb_le in Hle.
  assert (Hp : 0 < 2 ^ 1074 < huge).
  { split; [apply pow2_pos; lia|]. unfold huge.
    apply Z.pow_lt_mono_r; lia. }
  assert (Hq : 2 ^ 1021 < huge)
    by (unfold huge; apply Z.pow_lt_mono_r; lia).
  split.
  - rewrite eqb_fval, Hvr, fval_zero. apply Z.eqb_neq. lia.
  - rewrite eqb_fval, add_fval, fval_one, Hvr.
    rewrite ext_add_finite by lia.
    apply Z.eqb_eq.
    pose proof (round_scaled_mono (2 ^ 1074) (2 ^ 1074 + vr) ltac:(lia)) as Hlo.
    pose proof (round_scaled_mono (2 ^ 1074 + vr) (2 ^ 1074 + 2 ^ 1021)
                  ltac:(lia)) as Hhi.
    rewrite (fval_fixed _ _ fval_one) in Hlo.
    assert (Hr : round_scaled (2 ^ 1074 + 2 ^ 1021) = 2 ^ 1074)
      by (vm_compute; reflexivity).
    rewrite Hr in Hhi. lia.
Qed.

(** When [1 + r] is 1.0 for a non-zero [r], the payment formula divides
    by zero. *)
Lemma base_payment_tiny_rate libm_pow P r n nf :
  (r =? 0)%float = false -> (1 + r =? 1)%float = true ->
  Py.float_of_int n = Ok nf ->
  base_payment libm_pow P r n = Raise ZeroDivisionError.
Proof.
  intros Hr H1 Hnf. unfold base_payment. rewrite Hr.
  rewrite (float_pow_one libm_pow _ _ _ H1 Hnf). cbn [bind].
  unfold Py.truediv.
  replace (1 - 1 =? 0)%float with true by reflexivity. reflexivity.
Qed.

(** X2: for an input that passes validation, with a term that converts
    to a float: when the monthly rate [r] is not zero but [1 + r]
    evaluates to 1.0, the denominator [(1 + r) ** n - 1] is zero and the
    call raises [ZeroDivisionError]; every positive monthly rate up to
    [2^-53] does this. *)
Theorem tiny_rate_divides_by_zero
    (libm_pow : float -> float -> float) (payload : LoanInput.t)
    (nf : float) :
  LoanInput.valid payload ->
  Py.float_of_int (LoanInput.term_months payload) = Ok nf ->
  ((monthly_rate payload =? 0)%float = false ->
   (1 + monthly_rate payload =? 1)%float = true ->
   calculate_loan libm_pow payload = Some (Raise ZeroDivisionError))
  /\ ((0 <? monthly_rate payload)%float = true ->
      (monthly_rate payload <=? 0x1p-53)%float = true ->
      calculate_loan libm_pow payload = Some (Raise ZeroDivisionError)).
Proof.
  intros Hvalid Hnf.
  assert (Hgen : (monthly_rate payload =? 0)%float = false ->
                 (1 + monthly_rate payload =? 1)%float = true ->
                 calculate_loan libm_pow payload
                 = Some (Raise ZeroDivisionError)).
  { intros Hr H1. apply calculate_loan_raise. left.
    unfold scheduled_payment. rewrite (valid_not_invalid _ Hvalid).
    rewrite (base_payment_tiny_rate libm_pow _ _ _ _ Hr H1 Hnf).
    reflexivity. }
  split; [exact Hgen|].
  intros Hpos Hle. destruct (tiny_rate_absorbed _ Hpos Hle) as [Hr H1].
  apply Hgen; assumption.
Qed.

Lemma tiny_rate_divides_by_zero_witness :
  Reference.calculate_loan Reference.tiny_rate_loan
  = Some (Raise ZeroDivisionError).
Proof.
  refine (proj2 (tiny_rate_divides_by_zero Libm.pow Reference.tiny_rate_loan
                   12 _ _) _ _).
  - repeat split.
  - reflexivity.
  - reflexivity.
  - reflexivity.
Defined.

(** X1: for an input that satisfies the constraints of the request
    model, the check of line 59 never fires: the only exceptions
    [calculate_loan] raises are the guard's [NonAmortizingPayment] and
    Python's [ZeroDivisionError] and [OverflowError]. *)
Theorem validated_input_errors
    (libm_pow : float -> float -> float) (payload : LoanInput.t) (e : exn) :
  LoanInput.valid payload ->
  calculate_loan libm_pow payload = Some (Raise e) ->
  e <> InvalidInput
  /\ (e = NonAmortizingPayment \/ e = ZeroDivisionError
      \/ e = OverflowError).
Proof.
  intros Hvalid H.
  assert (Hcases : e = NonAmortizingPayment \/ e = ZeroDivisionError
                   \/ e = OverflowError).
  { apply calculate_loan_raise in H as [Hs | (payment & Hs & Hl)].
    - apply scheduled_payment_raise in Hs as [[_ Hinv] | [_ [-> | ->]]];
        [|tauto|tauto].
      rewrite (valid_not_invalid _ Hvalid) in Hinv. discriminate.
    - apply run_loop_result in Hl. inversion Hl. tauto. }
  split; [|exact Hcases].
  destruct Hcases as [-> | [-> | ->]]; discriminate.
Qed.

Lemma validated_input_errors_witness :
  Reference.calculate_loan Reference.tiny_rate_loan
  = Some (Raise ZeroDivisionError)
  /\ ZeroDivisionError <> InvalidInput.
Proof.
  assert (H : Reference.calculate_loan Reference.tiny_rate_loan
              = Some (Raise ZeroDivisionError))
    by (vm_compute; reflexivity).
  split; [exact H|].
  refine (proj1 (validated_input_errors Libm.pow Reference.tiny_rate_loan
                   ZeroDivisionError _ H)).
  repeat split.
Defined.

(** An [int] of [2^1024] or more does not convert to a float. *)
Lemma float_of_int_overflow n :
  2 ^ 1024 <= n -> Py.float_of_int n = Raise OverflowError.
Proof.
  intros Hn. pose proof huge_pos as Hh. unfold Py.float_of_int.
  destruct (binary_normalize_value n 0 false ltac:(lia)) as [Hv Hvalid].
  cbv zeta in Hv, Hvalid. change (0 + 1074) with 1074 in Hv.
  assert (Hbig : round_scaled (n * 2 ^ 1074) = huge).
  { pose proof (round_scaled_bound (n * 2 ^ 1074)) as [_ Hup].
    assert (Hlo : huge <= round_scaled (n * 2 ^ 1074)).
    { replace huge with (round_scaled huge) at 1 by (vm_compute; reflexivity).
      apply round_scaled_mono. unfold huge.
      replace 2098 with (1024 + 1074) by lia.
      rewrite pow2_split by lia.
      apply Z.mul_le_mono_nonneg_r; [|exact Hn].
      apply Z.lt_le_incl, pow2_pos. lia. }
    lia. }
  rewrite Hbig in Hv.
  destruct (binary_normalize prec emax n 0 false) as [s|s| |s m e];
    unfold sval in Hv; try discriminate Hv; apply some_inj in Hv.
  - reflexivity.
  - pose proof (valid_finite _ _ _ Hvalid) as (_ & _ & Hb & _).
    destruct s; unfold sign_of in Hv; lia.
Qed.

(** X3: a term of [2^1024] months or more cannot be converted to a
    float, and a validated input with such a term makes
    [calculate_loan] raise [OverflowError], whatever the rate. *)
Theorem huge_term_overflows
    (libm_pow : float -> float -> float) (payload : LoanInput.t) :
  LoanInput.valid payload ->
  2 ^ 1024 <= LoanInput.term_months payload ->
  calculate_loan libm_pow payload = Some (Raise OverflowError).
Proof.
  intros Hvalid Hn. apply calculate_loan_raise. left.
  unfold scheduled_payment. rewrite (valid_not_invalid _ Hvalid).
  unfold base_payment, Py.float_pow.
  rewrite (float_of_int_overflow _ Hn).
  destruct (monthly_rate payload =? 0)%float; reflexivity.
Qed.

Lemma huge_term_overflows_witness :
  Reference.calculate_loan Reference.endless_loan = Some (Raise OverflowError).
Proof.
  refine (huge_term_overflows Libm.pow Reference.endless_loan _ _).
  - repeat split.
  - apply Z.le_refl.
Defined.

(** ** The shape of the schedule *)

(** A property the initial state has and every pass keeps holds when
    the loop returns. *)
Lemma loop_invariant (Inv : loop_state -> Prop) r payment cap st0 st ex :
  Inv st0 ->
  (forall s s', Inv s -> pass r payment cap s s' -> Inv s') ->
  loop_result r payment cap st0 (Ok (st, ex)) -> Inv st.
Proof.
  intros H0 Hstep Hres.
  assert (Hruns : forall s0 s, runs r payment cap s0 s -> Inv s0 -> Inv s).
  { intros s0 s Hr. induction Hr as [s | s s1 s' Hp _ _ IH]; [trivial|].
    intros Hs. apply IH. eapply Hstep; eassumption. }
  inversion Hres as [s Hr Hb | s Hr Hb Hc | s s' Hr Hp Hbrk |]; subst.
  - eapply Hruns; eassumption.
  - eapply Hruns; eassumption.
  - eapply Hstep; [eapply Hruns; eassumption | exact Hp].
Qed.

(** X4: the entries of a returned schedule are numbered 1, 2, 3, ... in
    order, without gaps, up to [payoff_months]. *)
Theorem schedule_months_consecutive
    (libm_pow : float -> float -> float) (payload : LoanInput.t)
    (res : LoanResult.t) :
  calculate_loan libm_pow payload = Some (Ok res) ->
  map ScheduleItem.month (LoanResult.schedule res)
  = map Z.of_nat (seq 1 (Z.to_nat (LoanResult.payoff_months res))).
Proof.
  intros H. apply calculate_loan_ok in H as (payment & st & ex & _ & Hl & ->).
  apply run_loop_result in Hl.
  unfold build_result. cbn [LoanResult.schedule LoanResult.payoff_months].
  rewrite Nat2Z.id.
  set (Inv := fun s : loop_state =>
                st_month s = Z.of_nat (List.length (st_schedule s))
                /\ map ScheduleItem.month (st_schedule s)
                   = map Z.of_nat (seq 1 (List.length (st_schedule s)))).
  assert (H0 : Inv (initial_state (LoanInput.principal payload)))
    by (split; reflexivity).
  apply (loop_invariant Inv _ _ _ _ _ _ H0) in Hl; [exact (proj2 Hl)|].
  intros s s' [Hm Hs] [_ Hb]. apply body_ok in Hb as [_ ->].
  unfold Inv. cbn [st_month st_schedule].
  rewrite length_app, Nat.add_1_r, seq_S, !map_app, Hs.
  cbn [List.length map]. unfold entry. cbn [ScheduleItem.month].
  split; [lia|]. f_equal. f_equal. lia.
Qed.

Lemma schedule_months_consecutive_witness :
  exists res,
    Reference.calculate_loan Reference.standard_loan = Some (Ok res)
    /\ map ScheduleItem.month (LoanResult.schedule res)
       = map Z.of_nat (seq 1 (Z.to_nat (LoanResult.payoff_months res))).
Proof.
  destruct (observe_ok _ _ _ standard_loan_observed) as (res & Hres & _).
  exists res. split; [exact Hres|].
  exact (schedule_months_consecutive Libm.pow _ res Hres).
Defined.

Lemma while_loop_step r payment cap fuel st :
  while_loop r payment cap (S fuel) st
  = if negb (balance_open st) then Some (Ok (st, BalanceDepleted))
    else if negb (below_cap cap st) then Some (Ok (st, SafetyCapReached))
    else
      match body r payment st with
      | Raise e => Some (Raise e)
      | Ok st' =>
          if 3600 <? st_month st' then Some (Ok (st', HardStop))
          else while_loop r payment cap fuel st'
      end.
Proof. reflexivity. Qed.

(** The loop adds at least one entry when it starts on a balance above
    the threshold. *)
Lemma run_loop_first_pass payload payment st ex :
  0 < LoanInput.term_months payload ->
  run_loop payload payment = Some (Ok (st, ex)) ->
  if (0.005 <? LoanInput.principal payload)%float
  then st_schedule st <> []
  else st = initial_state (LoanInput.principal payload).
Proof.
  intros Hn. unfold run_loop.
  set (st0 := initial_state (LoanInput.principal payload)).
  change loop_fuel with (S 3600). rewrite while_loop_step.
  unfold balance_open, below_cap.
  change (st_balance st0) with (LoanInput.principal payload).
  change (st_month st0) with 0.
  destruct (0.005 <? LoanInput.principal payload)%float; cbn [negb].
  - destruct (Z.ltb_spec 0 (LoanInput.term_months payload + 600)); [|lia].
    cbn [negb].
    destruct (body _ _ st0) as [st1|e] eqn:Hbody; [|discriminate].
    apply body_ok in Hbody as [_ Hst1].
    assert (Hs1 : st_schedule st1 <> []).
    { rewrite Hst1. cbn [st_schedule]. intros E.
      apply app_eq_nil in E as [_ E]. discriminate. }
    destruct (3600 <? st_month st1).
    + intros [= <- _]. exact Hs1.
    + intros Hrest.
      apply actual_payments_recorded in Hrest as (new & Happ & _).
      rewrite Happ. intros E. apply app_eq_nil in E as [E _]. contradiction.
  - intros [= <- _]. reflexivity.
Qed.

(** X5: a returned schedule is empty exactly when the principal is not
    above the loop's threshold of 0.005; the result then reports 0
    months, a total payment of 0.0 and a total interest of 0.0. *)
Theorem empty_schedule
    (libm_pow : float -> float -> float) (payload : LoanInput.t)
    (res : LoanResult.t) :
  calculate_loan libm_pow payload = Some (Ok res) ->
  (LoanResult.schedule res = []
   <-> (0.005 <? LoanInput.principal payload)%float = false)
  /\ (LoanResult.schedule res = [] ->
      LoanResult.payoff_months res = 0
      /\ LoanResult.total_payment res = 0%float
      /\ LoanResult.total_interest res = 0%float).
Proof.
  intros H. apply calculate_loan_ok in H as (payment & st & ex & Hs & Hl & ->).
  assert (Hn : 0 < LoanInput.term_months payload).
  { apply scheduled_payment_valid in Hs. unfold invalid in Hs.
    apply orb_false_iff in Hs as [Hs _]. apply orb_false_iff in Hs as [_ Hs].
    apply Z.leb_gt in Hs. exact Hs. }
  pose proof (run_loop_first_pass _ _ _ _ Hn Hl) as Hfirst.
  unfold build_result.
  cbn [LoanResult.schedule LoanResult.payoff_months LoanResult.total_payment
       LoanResult.total_interest].
  destruct (0.005 <? LoanInput.principal payload)%float.
  - split; [split; [contradiction | discriminate] | contradiction].
  - subst st. cbn [initial_state st_schedule st_total_interest].
    split; [split; reflexivity|]. intros _. repeat split; reflexivity.
Qed.

Lemma empty_schedule_witness :
  exists res,
    Reference.calculate_loan Reference.dust_loan = Some (Ok res)
    /\ LoanResult.schedule res = []
    /\ LoanResult.payoff_months res = 0.
Proof.
  assert (Hobs : Reference.observe (fun res => LoanResult.schedule res)
                   Reference.dust_loan = Some [])
    by (vm_compute; reflexivity).
  destruct (observe_ok _ _ _ Hobs) as (res & Hres & Hnil).
  exists res. split; [exact Hres|]. split; [exact Hnil|].
  exact (proj1 (proj2 (empty_schedule Libm.pow Reference.dust_loan res Hres)
                 Hnil)).
Defined.

(** ** What the entries record *)

Lemma leb_not_gtb x y : (x <=? y)%float = true -> (y <? x)%float = false.
Proof.
  intros H. apply leb_true in H as (a & b & Ha & Hb & Hle).
  rewrite ltb_fval, Ha, Hb. apply Z.ltb_ge. exact Hle.
Qed.

Lemma ltb_irrefl x : (x <? x)%float = false.
Proof.
  rewrite ltb_fval. destruct (fval x); [apply Z.ltb_irrefl | reflexivity].
Qed.

(** No balance is recorded as negative. *)
Lemma recorded_balance_not_negative b :
  (Py.round (Py.max b 0) 2 <? 0)%float = false.
Proof.
  unfold Py.max. rewrite (ltb_fval b 0), fval_zero.
  destruct (fval b) as [v|] eqn:Hb.
  - destruct (Z.ltb_spec v 0) as [Hneg | Hpos]; [reflexivity|].
    rewrite ltb_fval, (round_fval b v Hb), fval_zero.
    apply Z.ltb_ge. apply round2_val_sign. exact Hpos.
  - rewrite ltb_fval.
    assert (Hnan : fval (Py.round b 2) = None).
    { unfold fval in *. unfold Py.round.
      destruct (Prim2SF b) as [s|s| |s m e] eqn:E; try discriminate Hb.
      rewrite E. reflexivity. }
    rewrite Hnan. reflexivity.
Qed.

(** X6: in a returned schedule no entry records a negative balance, and
    every entry but the last records a balance of at least 0.01. *)
Theorem recorded_balances
    (libm_pow : float -> float -> float) (payload : LoanInput.t)
    (res : LoanResult.t) :
  calculate_loan libm_pow payload = Some (Ok res) ->
  Forall (fun e => (ScheduleItem.balance e <? 0)%float = false)
         (LoanResult.schedule res)
  /\ forall before final,
       LoanResult.schedule res = before ++ [final] ->
       Forall (fun e => (0.01 <=? ScheduleItem.balance e)%float = true) before.
Proof.
  intros H. apply calculate_loan_ok in H as (payment & st & ex & Hs & Hl & ->).
  apply run_loop_entries in Hl as [Hall Htr].
  unfold build_result. cbn [LoanResult.schedule]. split.
  - eapply Forall_impl; [|exact Hall].
    intros e (month & b & _ & _ & ->). unfold entry.
    cbn [ScheduleItem.balance]. apply recorded_balance_not_negative.
  - intros before final Hsplit.
    unfold schedule_tracks_balance, records_balance in Htr.
    rewrite Hsplit, rev_app_distr in Htr. cbn [rev app] in Htr.
    destruct Htr as [_ Hbefore]. apply Forall_rev in Hbefore.
    rewrite rev_involutive in Hbefore.
    eapply Forall_impl; [|exact Hbefore].
    intros e (b & Hopen & ->). apply open_balance_recorded. exact Hopen.
Qed.

Lemma recorded_balances_witness :
  exists res,
    Reference.calculate_loan Reference.standard_loan = Some (Ok res)
    /\ Forall (fun e => (ScheduleItem.balance e <? 0)%float = false)
              (LoanResult.schedule res).
Proof.
  destruct (observe_ok _ _ _ standard_loan_observed) as (res & Hres & _).
  exists res. split; [exact Hres|].
  exact (proj1 (recorded_balances Libm.pow _ res Hres)).
Defined.

(** X7: no entry of a returned schedule records a payment above the
    reported [monthly_payment]. *)
Theorem payment_within_scheduled
    (libm_pow : float -> float -> float) (payload : LoanInput.t)
    (res : LoanResult.t) :
  calculate_loan libm_pow payload = Some (Ok res) ->
  Forall (fun e => (LoanResult.monthly_payment res
                    <? ScheduleItem.payment e)%float = false)
         (LoanResult.schedule res).
Proof.
  intros H. apply calculate_loan_ok in H as (payment & st & ex & Hs & Hl & ->).
  apply run_loop_entries in Hl as [Hall _].
  unfold build_result.
  cbn [LoanResult.schedule LoanResult.monthly_payment].
  eapply Forall_impl; [|exact Hall].
  intros e (month & b & _ & _ & ->). unfold entry, figures.
  destruct (b <? principal_component (monthly_rate payload) payment b)%float
    eqn:Hclamp; cbn [ScheduleItem.payment mf_payment_actual].
  - apply leb_not_gtb, round_le, clamped_payment_le. exact Hclamp.
  - apply ltb_irrefl.
Qed.

Lemma payment_within_scheduled_witness :
  exists res,
    Reference.calculate_loan Reference.standard_loan = Some (Ok res)
    /\ Forall (fun e => (LoanResult.monthly_payment res
                         <? ScheduleItem.payment e)%float = false)
              (LoanResult.schedule res).
Proof.
  destruct (observe_ok _ _ _ standard_loan_observed) as (res & Hres & _).
  exists res. split; [exact Hres|].
  exact (payment_within_scheduled Libm.pow _ res Hres).
Defined.

(** ** Zero interest, month by month *)

Lemma ext_add_nonneg a b :
  0 <= a <= huge -> 0 <= b <= huge ->
  exists s, ext_add a b = Some s /\ 0 <= s <= huge.
Proof.
  intros Ha Hb. pose proof huge_pos as Hh. unfold ext_add.
  destruct (Z.eqb_spec a huge) as [->|Na].
  - destruct (Z.eqb_spec b (- huge)); [lia|].
    exists huge. split; [reflexivity | lia].
  - destruct (Z.eqb_spec a (- huge)); [lia|].
    destruct (Z.eqb_spec b huge) as [->|Nb].
    + exists huge. split; [reflexivity | lia].
    + destruct (Z.eqb_spec b (- huge)); [lia|].
      exists (round_scaled (a + b)). split; [reflexivity|].
      pose proof (round_scaled_bound (a + b)).
      pose proof (round_scaled_mono 0 (a + b) ltac:(lia)) as H0.
      change (round_scaled 0) with 0 in H0. lia.
Qed.

Lemma eqb_zero_fval r : (r =? 0)%float = true -> fval r = Some 0.
Proof.
  rewrite eqb_fval, fval_zero. destruct (fval r) as [v|]; [|discriminate].
  intros H. apply Z.eqb_eq in H. subst v. reflexivity.
Qed.

(** At a zero rate a finite balance bears no interest. *)
Lemma zero_rate_interest r b vb :
  (r =? 0)%float = true -> fval b = Some vb -> 0 <= vb < huge ->
  fval (interest_component r b) = Some 0.
Proof.
  intros Hr Hb Hvb. pose proof huge_pos as Hh. unfold interest_component.
  rewrite (mul_fval b r vb 0 Hb (eqb_zero_fval r Hr)) by lia.
  rewrite Z.mul_0_r. reflexivity.
Qed.

(** At a zero rate the month leaves a balance between 0 and the balance
    before, whatever non-negative payment is scheduled. *)
Lemma zero_rate_balance r payment b vp vb :
  (r =? 0)%float = true ->
  fval payment = Some vp -> 0 <= vp <= huge ->
  fval b = Some vb -> 0 <= vb < huge ->
  exists vb',
    fval (mf_balance (figures r payment b)) = Some vb' /\ 0 <= vb' <= vb.
Proof.
  intros Hr Hp Hvp Hb Hvb. pose proof huge_pos as Hh.
  assert (Hpc : fval (principal_component r payment b) = Some vp).
  { unfold principal_component.
    rewrite sub_fval, Hp, (zero_rate_interest r b vb Hr Hb Hvb).
    unfold ext_sub. change (- 0) with 0.
    destruct (Z.eq_dec vp huge) as [-> | Hfin].
    - apply ext_add_huge_l. lia.
    - rewrite ext_add_finite by lia. rewrite Z.add_0_r.
      rewrite (fval_fixed _ _ Hp). reflexivity. }
  unfold figures. rewrite ltb_fval, Hb, Hpc.
  destruct (Z.ltb_spec vb vp) as [Hclamp | Hno]; cbn [mf_balance].
  - exists 0. rewrite sub_fval, Hb. unfold ext_sub.
    rewrite ext_add_finite by lia.
    replace (vb + - vb) with 0 by lia. split; [reflexivity | lia].
  - exists (round_scaled (vb - vp)).
    rewrite sub_fval, Hb, Hpc. unfold ext_sub.
    rewrite ext_add_finite by lia.
    replace (vb + - vp) with (vb - vp) by lia. split; [reflexivity|].
    pose proof (round_scaled_mono 0 (vb - vp) ltac:(lia)) as H0.
    pose proof (round_scaled_mono (vb - vp) vb ltac:(lia)) as H1.
    change (round_scaled 0) with 0 in H0.
    rewrite (fval_fixed _ _ Hb) in H1. lia.
Qed.

(** With a zero monthly rate the scheduled payment of a validated input
    with a finite principal is not negative. *)
Lemma zero_rate_payment libm_pow payload payment :
  LoanInput.valid payload ->
  (monthly_rate payload =? 0)%float = true ->
  finite (LoanInput.principal payload) = true ->
  scheduled_payment libm_pow payload = Ok payment ->
  exists vp, fval payment = Some vp /\ 0 <= vp <= huge.
Proof.
  intros (HP & _ & Hn & Hextra) Hr HPfin Hs. pose proof huge_pos as Hh.
  apply scheduled_payment_ok in Hs as (_ & base & Hbase & ->).
  unfold base_payment in Hbase. rewrite Hr in Hbase.
  destruct (Py.float_of_int (LoanInput.term_months payload)) as [nf|e] eqn:Hnf;
    cbn [bind] in Hbase; [|discriminate].
  unfold Py.truediv in Hbase.
  destruct (nf =? 0)%float; [discriminate|]. apply ok_inj in Hbase.
  destruct (float_of_int_pos _ _ Hn Hnf) as (vn & Hvn & Hvnr).
  apply finite_fval in HPfin as (vP & HvP & HvPr).
  apply pos_fval in HP as (vP' & HvP' & HvPpos).
  rewrite HvP in HvP'. apply some_inj in HvP'. subst vP'.
  pose proof (div_fval _ _ _ _ HvP Hvn ltac:(lia) Hvnr) as Hdiv.
  rewrite Hbase in Hdiv.
  apply leb_true in Hextra as (z & ve & Hz & Hve & Hvepos).
  rewrite fval_zero in Hz. apply some_inj in Hz. subst z.
  rewrite add_fval, Hdiv, extra_fval, Hve.
  apply ext_add_nonneg.
  - split; [apply round_quotient_pos; lia | unfold round_quotient; lia].
  - pose proof (fval_bound _ _ Hve). lia.
Qed.

(** X9: for a validated input with a finite principal whose monthly
    rate is zero, a returned result reports no interest: every entry's
    interest and the total interest are zero. *)
Theorem zero_rate_no_interest
    (libm_pow : float -> float -> float) (payload : LoanInput.t)
    (res : LoanResult.t) :
  LoanInput.valid payload ->
  (monthly_rate payload =? 0)%float = true ->
  finite (LoanInput.principal payload) = true ->
  calculate_loan libm_pow payload = Some (Ok res) ->
  (LoanResult.total_interest res =? 0)%float = true
  /\ Forall (fun e => (ScheduleItem.interest e =? 0)%float = true)
            (LoanResult.schedule res).
Proof.
  intros Hvalid Hr HPfin H. pose proof huge_pos as Hh.
  apply calculate_loan_ok in H as (payment & st & ex & Hs & Hl & ->).
  destruct (zero_rate_payment _ _ _ Hvalid Hr HPfin Hs) as (vp & Hvp & Hvpr).
  apply run_loop_result in Hl.
  set (Inv := fun s : loop_state =>
                (exists vb, fval (st_balance s) = Some vb /\ 0 <= vb < huge)
                /\ fval (st_total_interest s) = Some 0
                /\ Forall (fun e => (ScheduleItem.interest e =? 0)%float = true)
                          (st_schedule s)).
  assert (H0 : Inv (initial_state (LoanInput.principal payload))).
  { apply finite_fval in HPfin as (vP & HvP & HvPr).
    destruct Hvalid as (HP & _).
    apply pos_fval in HP as (vP' & HvP' & HvPpos).
    rewrite HvP in HvP'. apply some_inj in HvP'. subst vP'.
    split; [exists vP; split; [exact HvP | lia]|].
    split; [reflexivity | constructor]. }
  assert (Hround0 : forall x, fval x = Some 0 ->
                              (Py.round x 2 =? 0)%float = true).
  { intros x Hx. rewrite eqb_fval, (round_fval x 0 Hx), fval_zero.
    reflexivity. }
  apply (loop_invariant Inv _ _ _ _ _ _ H0) in Hl.
  - destruct Hl as (_ & Ht & Hall). unfold build_result.
    cbn [LoanResult.total_interest LoanResult.schedule].
    split; [apply Hround0; exact Ht | exact Hall].
  - intros s s' ((vb & Hb & Hvb) & Ht & Hall) [_ Hbody].
    apply body_ok in Hbody as [_ ->]. unfold Inv.
    cbn [st_balance st_total_interest st_schedule].
    pose proof (zero_rate_interest _ _ _ Hr Hb Hvb) as Hi.
    assert (Hint : mf_interest (figures (monthly_rate payload) payment
                                        (st_balance s))
                   = interest_component (monthly_rate payload) (st_balance s)).
    { unfold figures. destruct (_ <? _)%float; reflexivity. }
    destruct (zero_rate_balance _ payment _ vp vb Hr Hvp Hvpr Hb Hvb)
      as (vb' & Hb' & Hvb').
    split; [exists vb'; split; [exact Hb' | lia]|]. split.
    + rewrite add_fval, Ht, Hint, Hi. rewrite ext_add_finite by lia.
      reflexivity.
    + apply Forall_app. split; [exact Hall|]. constructor; [|constructor].
      unfold entry. cbn [ScheduleItem.interest]. rewrite Hint.
      apply Hround0. exact Hi.
Qed.

Lemma zero_rate_no_interest_witness :
  exists res,
    Reference.calculate_loan Reference.straight_line_loan = Some (Ok res)
    /\ (LoanResult.total_interest res =? 0)%float = true.
Proof.
  assert (Hobs : Reference.observe LoanResult.payoff_months
                   Reference.straight_line_loan = Some 12)
    by (vm_compute; reflexivity).
  destruct (observe_ok _ _ _ Hobs) as (res & Hres & _).
  exists res. split; [exact Hres|].
  refine (proj1 (zero_rate_no_interest Libm.pow _ res _ _ _ Hres)).
  - repeat split.
  - reflexivity.
  - reflexivity.
Defined.

(** ** Balances along the schedule *)

Lemma descending_short field l :
  (List.length l <= 1)%nat -> descending field l.
Proof.
  intros Hlen l1 e1 e2 l2 ->. rewrite length_app in Hlen. cbn in Hlen. lia.
Qed.

Lemma descending_snoc field l e e' :
  descending field (l ++ [e]) ->
  (field e' <=? field e)%float = true ->
  descending field ((l ++ [e]) ++ [e']).
Proof.
  intros Hd Hle l1 e1 e2 l2 Heq.
  destruct l2 as [|x l2'] using rev_ind.
  - change (l1 ++ [e1; e2]) with (l1 ++ [e1] ++ [e2]) in Heq.
    rewrite app_assoc in Heq.
    apply app_inj_tail in Heq as [Heq <-].
    apply app_inj_tail in Heq as [_ <-]. exact Hle.
  - clear IHl2'.
    change (l1 ++ e1 :: e2 :: l2' ++ [x])
      with (l1 ++ (e1 :: e2 :: l2') ++ [x]) in Heq.
    rewrite app_assoc in Heq. apply app_inj_tail in Heq as [Heq _].
    eapply Hd. exact Heq.
Qed.

(** Dividing a non-negative finite float by a float that is at least 1
    gives a non-negative float that is no larger. *)
Lemma div_nonneg_fval x y a b :
  fval x = Some a -> 0 <= a < huge ->
  fval y = Some b -> 2 ^ 1074 <= b < huge ->
  exists q, fval (x / y) = Some q /\ 0 <= q <= a.
Proof.
  intros Ha Ra Hb Rb. pose proof huge_pos as Hh.
  assert (Hp : 0 < 2 ^ 1074) by (apply pow2_pos; lia).
  destruct (Z.eq_dec a 0) as [-> | Hne].
  - exists 0. split; [|lia]. unfold fval in *. rewrite div_spec.
    pose proof (Prim2SF_valid x) as Hvx. pose proof (Prim2SF_valid y) as Hvy.
    destruct (Prim2SF x) as [sx|sx| |sx mx ex]; unfold sval in Ha;
      try discriminate Ha; apply some_inj in Ha;
      try (destruct sx; unfold sign_of in Ha; lia).
    + destruct (Prim2SF y) as [sy|sy| |sy my ey]; unfold sval in Hb;
        try discriminate Hb; apply some_inj in Hb;
        try (destruct sy; unfold sign_of in Hb; lia).
      reflexivity.
    + pose proof (valid_finite _ _ _ Hvx) as (_ & _ & Hbx & _).
      destruct sx; unfold sign_of in Ha; lia.
  - exists (round_quotient a b).
    split; [apply div_fval; (assumption || lia)|].
    split; [apply round_quotient_pos; lia|].
    apply round_quotient_upper; try lia.
    + apply (fval_fixed _ _ Ha).
    + apply Z.mul_le_mono_nonneg_l; lia.
Qed.

(** The monthly rate of a non-negative finite annual rate is a
    non-negative finite float. *)
Lemma monthly_rate_value payload :
  (0 <=? LoanInput.annual_rate payload)%float = true ->
  finite (LoanInput.annual_rate payload) = true ->
  exists vr, fval (monthly_rate payload) = Some vr /\ 0 <= vr < huge.
Proof.
  intros Hpos Hfin. pose proof huge_pos as Hh.
  apply finite_fval in Hfin as (va & Hva & Hvar).
  rewrite leb_fval, fval_zero, Hva in Hpos. apply Z.leb_le in Hpos.
  assert (Hp : 0 < 2 ^ 1074) by (apply pow2_pos; lia).
  assert (H100 : fval 100 = Some (100 * 2 ^ 1074)) by (vm_compute; reflexivity).
  assert (H12 : fval 12 = Some (12 * 2 ^ 1074)) by (vm_compute; reflexivity).
  assert (Hbig : 12 * 2 ^ 1074 < 100 * 2 ^ 1074 /\ 100 * 2 ^ 1074 < huge).
  { split; [lia|]. unfold huge.
    replace 2098 with (1024 + 1074) by lia. rewrite pow2_split by lia.
    apply Z.mul_lt_mono_pos_r; [exact Hp|]. reflexivity. }
  destruct (div_nonneg_fval _ 100%float va _ Hva ltac:(lia) H100 ltac:(lia))
    as (q1 & Hq1 & Rq1).
  destruct (div_nonneg_fval _ 12%float q1 _ Hq1 ltac:(lia) H12 ltac:(lia))
    as (q2 & Hq2 & Rq2).
  exists q2. split; [exact Hq2 | lia].
Qed.

(** A month that passes the guard leaves a balance between 0 and the
    balance before. *)
Lemma month_keeps_balance r payment b vr vp vb :
  fval r = Some vr -> 0 <= vr < huge ->
  fval payment = Some vp -> - huge < vp < huge -> (vr = 0 -> 0 <= vp) ->
  fval b = Some vb -> 0 <= vb < huge ->
  guard_fires r payment b = false ->
  exists vb',
    fval (mf_balance (figures r payment b)) = Some vb' /\ 0 <= vb' <= vb.
Proof.
  intros Hr Rr Hp Rp Hzero Hb Rb Hg.
  destruct (Z.eq_dec vr 0) as [-> | Hne].
  - apply (zero_rate_balance r payment b vp vb); try assumption.
    + rewrite eqb_fval, Hr, fval_zero. reflexivity.
    + specialize (Hzero eq_refl). lia.
  - exists (next_balance_val vr vp vb).
    apply (next_balance_fval r payment b vr vp vb); (assumption || lia).
Qed.

(** The interest on a smaller balance is no larger. *)
Lemma interest_le r b1 b2 vr vb1 vb2 :
  fval r = Some vr -> 0 <= vr < huge ->
  fval b1 = Some vb1 -> fval b2 = Some vb2 -> 0 <= vb2 <= vb1 -> vb1 < huge ->
  (interest_component r b2 <=? interest_component r b1)%float = true.
Proof.
  intros Hr Rr Hb1 Hb2 Rb Rb1. pose proof huge_pos as Hh.
  unfold interest_component.
  rewrite leb_fval, (mul_fval b2 r vb2 vr Hb2 Hr), (mul_fval b1 r vb1 vr Hb1 Hr)
    by lia.
  apply Z.leb_le. apply round_product_mono. nia.
Qed.

(** For a validated input with finite principal, rate and scheduled
    payment, the loop ends on a finite non-negative balance, with a
    schedule whose balances and interests never increase. *)
Lemma run_loop_settles libm_pow payload payment st ex :
  LoanInput.valid payload ->
  finite (LoanInput.principal payload) = true ->
  finite (LoanInput.annual_rate payload) = true ->
  finite payment = true ->
  scheduled_payment libm_pow payload = Ok payment ->
  run_loop payload payment = Some (Ok (st, ex)) ->
  (exists vb, fval (st_balance st) = Some vb /\ 0 <= vb < huge)
  /\ descending ScheduleItem.balance (st_schedule st)
  /\ descending ScheduleItem.interest (st_schedule st).
Proof.
  intros Hvalid HPfin Hratefin Hpayfin Hs Hl. pose proof huge_pos as Hh.
  pose proof Hvalid as (HP & Hrate & Hn & Hextra).
  destruct (monthly_rate_value payload Hrate Hratefin) as (vr & Hvr & Rvr).
  apply finite_fval in Hpayfin as (vp & Hvp & Rvp).
  assert (Hzero : vr = 0 -> 0 <= vp).
  { intros ->.
    assert (Hr0 : (monthly_rate payload =? 0)%float = true)
      by (rewrite eqb_fval, Hvr, fval_zero; reflexivity).
    destruct (zero_rate_payment _ _ _ Hvalid Hr0 HPfin Hs) as (vp' & Hvp' & R).
    rewrite Hvp in Hvp'. apply some_inj in Hvp'. subst vp'. lia. }
  apply run_loop_result in Hl.
  (* the last entry charged interest on a balance no smaller than the
     current one *)
  set (charged := fun (s : loop_state) (e : ScheduleItem.t) =>
                    exists bp vbp vb,
                      fval bp = Some vbp /\ fval (st_balance s) = Some vb
                      /\ 0 <= vb <= vbp /\ vbp < huge
                      /\ ScheduleItem.interest e
                         = Py.round (interest_component (monthly_rate payload)
                                                        bp) 2).
  set (Inv := fun s : loop_state =>
                (exists vb, fval (st_balance s) = Some vb /\ 0 <= vb < huge)
                /\ schedule_tracks_balance s
                /\ descending ScheduleItem.balance (st_schedule s)
                /\ descending ScheduleItem.interest (st_schedule s)
                /\ forall before final,
                     st_schedule s = before ++ [final] -> charged s final).
  assert (H0 : Inv (initial_state (LoanInput.principal payload))).
  { apply finite_fval in HPfin as (vP & HvP & HvPr).
    apply pos_fval in HP as (vP' & HvP' & HvPpos).
    rewrite HvP in HvP'. apply some_inj in HvP'. subst vP'.
    split; [exists vP; split; [exact HvP | lia]|].
    split; [exact I|].
    split; [apply descending_short; cbn; lia|].
    split; [apply descending_short; cbn; lia|].
    intros before final E. cbn in E. destruct before; discriminate. }
  apply (loop_invariant Inv _ _ _ _ _ _ H0) in Hl.
  - destruct Hl as (Hb & _ & Hd & Hi & _). repeat split; assumption.
  - intros s s' ((vb & Hb & Rb) & Htr & Hd & Hi & Hch) Hpass.
    pose proof (pass_tracks_balance _ _ _ _ _ Hpass Htr) as Htr'.
    apply pass_appends in Hpass as (_ & Hg & Hb' & Hs').
    destruct (month_keeps_balance _ _ _ vr vp vb Hvr Rvr Hvp Rvp Hzero Hb Rb Hg)
      as (vb' & Hvb' & Rvb').
    rewrite <- Hb' in Hvb'.
    assert (Hint : ScheduleItem.interest
                     (entry (st_month s + 1)
                        (figures (monthly_rate payload) payment (st_balance s)))
                   = Py.round (interest_component (monthly_rate payload)
                                                  (st_balance s)) 2).
    { unfold entry, figures.
      destruct (st_balance s
                <? principal_component (monthly_rate payload) payment
                     (st_balance s))%float; reflexivity. }
    split; [exists vb'; split; [exact Hvb' | lia]|]. split; [exact Htr'|].
    rewrite Hs'.
    assert (Hcharged : forall before final,
              st_schedule s
              ++ [entry (st_month s + 1)
                    (figures (monthly_rate payload) payment (st_balance s))]
              = before ++ [final] -> charged s' final).
    { intros before final E. apply app_inj_tail in E as [_ <-].
      exists (st_balance s), vb, vb'.
      split; [exact Hb|]. split; [exact Hvb'|].
      split; [lia|]. split; [lia | exact Hint]. }
    unfold schedule_tracks_balance, records_balance in Htr.
    destruct (rev (st_schedule s)) as [|e before] eqn:Erev.
    + apply (f_equal (@rev _)) in Erev. rewrite rev_involutive in Erev.
      rewrite Erev in Hcharged |- *.
      split; [apply descending_short; cbn; lia|].
      split; [apply descending_short; cbn; lia | exact Hcharged].
    + apply (f_equal (@rev _)) in Erev. rewrite rev_involutive in Erev.
      cbn [rev] in Erev. rewrite Erev in Hd, Hi, Hch, Hcharged |- *.
      destruct Htr as [He _].
      split; [|split; [|exact Hcharged]].
      * apply descending_snoc; [exact Hd|].
        unfold entry. cbn [ScheduleItem.balance]. rewrite He, <- Hb'.
        assert (Hmax : forall x v, fval x = Some v -> 0 <= v ->
                                   Py.max x 0 = x).
        { intros x v Hx Hv. unfold Py.max.
          rewrite ltb_fval, Hx, fval_zero.
          destruct (Z.ltb_spec v 0); [lia | reflexivity]. }
        rewrite (Hmax _ _ Hvb' ltac:(lia)), (Hmax _ _ Hb ltac:(lia)).
        apply round_le. rewrite leb_fval, Hvb', Hb. apply Z.leb_le. lia.
      * apply descending_snoc; [exact Hi|].
        destruct (Hch _ _ eq_refl)
          as (bp & vbp & vb0 & Hbp & Hb0 & Rb0 & Rbp & ->).
        rewrite Hb in Hb0. apply some_inj in Hb0. subst vb0.
        rewrite Hint. apply round_le.
        apply (interest_le _ _ _ vr vbp vb); (assumption || lia).
Qed.

(** X10: for a validated input with finite principal, rate and scheduled
    payment, the balances recorded in a returned schedule never increase
    from one entry to the next. *)
Theorem balances_never_increase
    (libm_pow : float -> float -> float) (payload : LoanInput.t)
    (res : LoanResult.t) :
  LoanInput.valid payload ->
  finite (LoanInput.principal payload) = true ->
  finite (LoanInput.annual_rate payload) = true ->
  (forall payment, scheduled_payment libm_pow payload = Ok payment ->
                   finite payment = true) ->
  calculate_loan libm_pow payload = Some (Ok res) ->
  forall before e1 e2 after,
    LoanResult.schedule res = before ++ e1 :: e2 :: after ->
    (ScheduleItem.balance e2 <=? ScheduleItem.balance e1)%float = true.
Proof.
  intros Hvalid HPfin Hratefin Hpay H.
  apply calculate_loan_ok in H as (payment & st & ex & Hs & Hl & ->).
  destruct (run_loop_settles _ _ _ _ _ Hvalid HPfin Hratefin (Hpay _ Hs) Hs Hl)
    as (_ & Hd & _).
  exact Hd.
Qed.

Lemma balances_never_increase_witness :
  exists res,
    Reference.calculate_loan Reference.standard_loan = Some (Ok res)
    /\ forall before e1 e2 after,
         LoanResult.schedule res = before ++ e1 :: e2 :: after ->
         (ScheduleItem.balance e2 <=? ScheduleItem.balance e1)%float = true.
Proof.
  destruct (observe_ok _ _ _ standard_loan_observed) as (res & Hres & _).
  exists res. split; [exact Hres|].
  refine (balances_never_increase Libm.pow _ res _ _ _ _ Hres).
  - repeat split.
  - reflexivity.
  - reflexivity.
  - intros payment Hs. vm_compute in Hs. apply ok_inj in Hs. subst payment.
    reflexivity.
Defined.

(** X19: for a validated input with finite principal, rate and scheduled
    payment, the interest recorded in a returned schedule never
    increases from one entry to the next. *)
Theorem interest_never_increases
    (libm_pow : float -> float -> float) (payload : LoanInput.t)
    (res : LoanResult.t) :
  LoanInput.valid payload ->
  finite (LoanInput.principal payload) = true ->
  finite (LoanInput.annual_rate payload) = true ->
  (forall payment, scheduled_payment libm_pow payload = Ok payment ->
                   finite payment = true) ->
  calculate_loan libm_pow payload = Some (Ok res) ->
  forall before e1 e2 after,
    LoanResult.schedule res = before ++ e1 :: e2 :: after ->
    (ScheduleItem.interest e2 <=? ScheduleItem.interest e1)%float = true.
Proof.
  intros Hvalid HPfin Hratefin Hpay H.
  apply calculate_loan_ok in H as (payment & st & ex & Hs & Hl & ->).
  destruct (run_loop_settles _ _ _ _ _ Hvalid HPfin Hratefin (Hpay _ Hs) Hs Hl)
    as (_ & _ & Hi).
  exact Hi.
Qed.

Lemma interest_never_increases_witness :
  exists res,
    Reference.calculate_loan Reference.standard_loan = Some (Ok res)
    /\ forall before e1 e2 after,
         LoanResult.schedule res = before ++ e1 :: e2 :: after ->
         (ScheduleItem.interest e2 <=? ScheduleItem.interest e1)%float = true.
Proof.
  destruct (observe_ok _ _ _ standard_loan_observed) as (res & Hres & _).
  exists res. split; [exact Hres|].
  refine (interest_never_increases Libm.pow _ res _ _ _ _ Hres).
  - repeat split.
  - reflexivity.
  - reflexivity.
  - intros payment Hs. vm_compute in Hs. apply ok_inj in Hs. subst payment.
    reflexivity.
Defined.

(** X11: for a validated input with finite principal, rate and scheduled
    payment, a returned schedule that stops short of both limits (fewer
    than [term_months + 600] entries, and at most 3600) ends on a
    recorded balance of 0.00 or 0.01. *)
Theorem final_balance_settled
    (libm_pow : float -> float -> float) (payload : LoanInput.t)
    (res : LoanResult.t) (before : list ScheduleItem.t)
    (final : ScheduleItem.t) :
  LoanInput.valid payload ->
  finite (LoanInput.principal payload) = true ->
  finite (LoanInput.annual_rate payload) = true ->
  (forall payment, scheduled_payment libm_pow payload = Ok payment ->
                   finite payment = true) ->
  calculate_loan libm_pow payload = Some (Ok res) ->
  LoanResult.schedule res = before ++ [final] ->
  LoanResult.payoff_months res < LoanInput.term_months payload + 600 ->
  LoanResult.payoff_months res <= 3600 ->
  (ScheduleItem.balance final =? 0)%float = true
  \/ (ScheduleItem.balance final =? 0.01)%float = true.
Proof.
  intros Hvalid HPfin Hratefin Hpay H Hsplit Hcap Hstop.
  apply calculate_loan_ok in H as (payment & st & ex & Hs & Hl & ->).
  destruct (run_loop_settles _ _ _ _ _ Hvalid HPfin Hratefin (Hpay _ Hs) Hs Hl)
    as ((vb & Hb & Rb) & _).
  pose proof Hvalid as (_ & _ & Hn & _).
  pose proof (run_loop_months _ _ _ _ Hn Hl) as (Hm & _).
  pose proof (run_loop_entries _ _ _ _ Hl) as [_ Htr].
  unfold build_result in Hsplit, Hcap, Hstop.
  cbn [LoanResult.schedule LoanResult.payoff_months] in Hsplit, Hcap, Hstop.
  rewrite <- Hm in Hcap, Hstop.
  unfold schedule_tracks_balance, records_balance in Htr.
  rewrite Hsplit, rev_app_distr in Htr. cbn [rev app] in Htr.
  destruct Htr as [-> _].
  apply closed_balance_recorded.
  assert (Hclosed : balance_open st = false).
  { apply run_loop_result in Hl.
    inversion Hl as [s Hr Ho | s Hr Ho Hc | s s' Hr Hp Hbrk |]; subst.
    - exact Ho.
    - unfold below_cap in Hc. apply Z.ltb_ge in Hc. lia.
    - apply Z.ltb_lt in Hbrk. lia. }
  unfold balance_open in Hclosed. rewrite ltb_fval, Hb in Hclosed.
  rewrite leb_fval, Hb.
  destruct (fval 0.005) as [c|] eqn:Hc; [|vm_compute in Hc; discriminate Hc].
  apply Z.ltb_ge in Hclosed. apply Z.leb_le. exact Hclosed.
Qed.

Lemma payoff_months_length libm_pow payload res :
  calculate_loan libm_pow payload = Some (Ok res) ->
  LoanResult.payoff_months res
  = Z.of_nat (List.length (LoanResult.schedule res)).
Proof.
  intros H. apply calculate_loan_ok in H as (payment & st & ex & _ & _ & ->).
  reflexivity.
Qed.

Lemma final_balance_settled_witness :
  exists res before final,
    Reference.calculate_loan Reference.standard_loan = Some (Ok res)
    /\ LoanResult.schedule res = before ++ [final]
    /\ ((ScheduleItem.balance final =? 0)%float = true
        \/ (ScheduleItem.balance final =? 0.01)%float = true).
Proof.
  destruct (observe_ok _ _ _ standard_loan_observed) as (res & Hres & Hobs).
  assert (Hlen : LoanResult.payoff_months res = 12)
    by (injection Hobs as _ _ _ Hm _; exact Hm).
  pose proof (payoff_months_length Libm.pow _ res Hres) as Hpay.
  destruct (exists_last (l := LoanResult.schedule res))
    as (before & final & Hsplit).
  { intros Hnil. rewrite Hnil in Hpay. cbn in Hpay. lia. }
  exists res, before, final. split; [exact Hres|]. split; [exact Hsplit|].
  refine (final_balance_settled Libm.pow _ res before final
            _ _ _ _ Hres Hsplit _ _).
  - repeat split.
  - reflexivity.
  - reflexivity.
  - intros payment Hs. vm_compute in Hs. apply ok_inj in Hs. subst payment.
    reflexivity.
  - rewrite Hlen. reflexivity.
  - rewrite Hlen. discriminate.
Defined.

(** ** The guard, seen from the first month *)

(** On a smaller balance the guard passes if it passed on a larger
    one. *)
Lemma guard_passes_below r payment b1 b2 vr vp vb1 vb2 :
  fval r = Some vr -> 0 < vr < huge ->
  fval payment = Some vp -> - huge < vp < huge ->
  fval b1 = Some vb1 -> fval b2 = Some vb2 -> 0 <= vb2 <= vb1 -> vb1 < huge ->
  guard_fires r payment b1 = false -> guard_fires r payment b2 = false.
Proof.
  intros Hr Rr Hp Rp Hb1 Hb2 Rb Rb1 Hg.
  apply (guard_val r payment b1 vr vp vb1) in Hg as [Hfin Hpos];
    try (assumption || lia).
  apply (guard_val r payment b2 vr vp vb2); try (assumption || lia).
  destruct (next_balance_val_mono vr vp vp vb1 vb2 ltac:(lia) ltac:(lia)
              ltac:(lia)) as [Hpc _].
  assert (round_product (vb2 * vr) <= round_product (vb1 * vr))
    by (apply round_product_mono; nia).
  split; lia.
Qed.

(** Every state a run reaches has a balance between 0 and the balance
    it started from. *)
Lemma runs_balance_below r payment cap vr vp st0 st vb0 :
  fval r = Some vr -> 0 < vr < huge ->
  fval payment = Some vp -> - huge < vp < huge ->
  runs r payment cap st0 st ->
  fval (st_balance st0) = Some vb0 -> 0 <= vb0 < huge ->
  exists vb, fval (st_balance st) = Some vb /\ 0 <= vb <= vb0.
Proof.
  intros Hr Rr Hp Rp Hruns. revert vb0.
  induction Hruns as [s | s s1 s' Hpass _ _ IH]; intros vb0 Hb0 Rb0.
  - exists vb0. split; [exact Hb0 | lia].
  - apply pass_appends in Hpass as (_ & Hg & Hb1 & _).
    destruct (month_keeps_balance _ _ _ vr vp vb0 Hr ltac:(lia) Hp Rp
                ltac:(lia) Hb0 Rb0 Hg) as (vb1 & Hvb1 & Rvb1).
    rewrite <- Hb1 in Hvb1.
    destruct (IH vb1 Hvb1 ltac:(lia)) as (vb & Hvb & Rvb).
    exists vb. split; [exact Hvb | lia].
Qed.

(** X12: for a validated input with a finite principal, a positive
    finite monthly rate and a finite scheduled payment, the guard can
    only fire in the first month: [calculate_loan] raises
    [NonAmortizingPayment] exactly when the principal is above 0.005 and
    the scheduled payment does not exceed the interest on the whole
    principal. *)
Theorem guard_fires_at_once
    (libm_pow : float -> float -> float) (payload : LoanInput.t)
    (payment : float) :
  LoanInput.valid payload ->
  finite (LoanInput.principal payload) = true ->
  (0 <? monthly_rate payload)%float = true ->
  finite (monthly_rate payload) = true ->
  scheduled_payment libm_pow payload = Ok payment ->
  finite payment = true ->
  calculate_loan libm_pow payload = Some (Raise NonAmortizingPayment)
  <-> (0.005 <? LoanInput.principal payload)%float = true
      /\ (payment - LoanInput.principal payload * monthly_rate payload
          <=? 0)%float = true.
Proof.
  intros Hvalid HPfin Hrpos Hrfin Hs Hpayfin. pose proof huge_pos as Hh.
  pose proof Hvalid as (HP & _ & Hn & _).
  apply finite_fval in Hrfin as (vr & Hvr & Rvr).
  apply pos_fval in Hrpos as Hrpos'. destruct Hrpos' as (vr' & Hvr' & Hvrpos).
  rewrite Hvr in Hvr'. apply some_inj in Hvr'. subst vr'.
  apply finite_fval in Hpayfin as (vp & Hvp & Rvp).
  apply finite_fval in HPfin as (vP & HvP & RvP).
  apply pos_fval in HP as (vP' & HvP' & HvPpos).
  rewrite HvP in HvP'. apply some_inj in HvP'. subst vP'.
  set (st0 := initial_state (LoanInput.principal payload)).
  set (cap := LoanInput.term_months payload + 600).
  assert (Hcont : loop_continues cap st0
                  = (0.005 <? LoanInput.principal payload)%float).
  { unfold loop_continues, balance_open, below_cap, st0, cap.
    cbn [initial_state st_balance st_month].
    destruct (Z.ltb_spec 0 (LoanInput.term_months payload + 600)); [|lia].
    apply andb_true_r. }
  assert (Hguard : guard_fires (monthly_rate payload) payment
                     (LoanInput.principal payload)
                   = (payment - LoanInput.principal payload
                                * monthly_rate payload <=? 0)%float).
  { unfold guard_fires, principal_component, interest_component.
    rewrite Hrpos. apply andb_true_r. }
  rewrite calculate_loan_raise. split.
  - intros [Hs' | (payment' & Hs' & Hl)]; [congruence|].
    rewrite Hs in Hs'. apply ok_inj in Hs'. subst payment'.
    apply run_loop_result in Hl. fold st0 cap in Hl.
    inversion Hl as [| | |st Hruns Hc Hg]; subst.
    destruct (runs_balance_below _ _ _ vr vp _ _ vP Hvr ltac:(lia) Hvp Rvp
                Hruns HvP ltac:(lia)) as (vb & Hvb & Rvb).
    destruct (guard_fires (monthly_rate payload) payment
                (LoanInput.principal payload)) eqn:Hg0.
    + assert (st = st0) by (eapply guard_stops; eassumption). subst st.
      rewrite <- Hcont, <- Hguard. split; [exact Hc | reflexivity].
    + rewrite (guard_passes_below _ _ _ _ vr vp vP vb Hvr ltac:(lia) Hvp Rvp
                 HvP Hvb Rvb ltac:(lia) Hg0) in Hg.
      discriminate.
  - intros [Hopen Hfire]. right. exists payment. split; [exact Hs|].
    apply run_loop_result. fold st0 cap.
    apply result_raise with (st := st0).
    + constructor.
    + rewrite Hcont. exact Hopen.
    + change (st_balance st0) with (LoanInput.principal payload).
      rewrite Hguard. exact Hfire.
Qed.

Lemma guard_fires_at_once_witness :
  Reference.calculate_loan Reference.interest_only_loan
  = Some (Raise NonAmortizingPayment).
Proof.
  assert (Hs : scheduled_payment Libm.pow Reference.interest_only_loan
               = Ok 1%float)
    by (vm_compute; reflexivity).
  refine (proj2 (guard_fires_at_once Libm.pow Reference.interest_only_loan 1
                   _ _ _ _ Hs _) _).
  - repeat split.
  - reflexivity.
  - reflexivity.
  - reflexivity.
  - reflexivity.
  - split; reflexivity.
Defined.

(** ** Extra payments and the reported interest *)

(** Two runs that differ in the extra payment only: the run with the
    larger extra payment ends no later, with no more interest. *)
Lemma larger_extra_loops libm_pow p1 p2 pay1 st1 ex1 :
  LoanInput.principal p2 = LoanInput.principal p1 ->
  LoanInput.annual_rate p2 = LoanInput.annual_rate p1 ->
  LoanInput.term_months p2 = LoanInput.term_months p1 ->
  (0 <=? LoanInput.extra_payment p1)%float = true ->
  (LoanInput.extra_payment p1 <=? LoanInput.extra_payment p2)%float = true ->
  finite (LoanInput.principal p1) = true ->
  (0 <? monthly_rate p1)%float = true ->
  finite (monthly_rate p1) = true ->
  (forall pay2, scheduled_payment libm_pow p2 = Ok pay2 ->
                finite pay2 = true) ->
  scheduled_payment libm_pow p1 = Ok pay1 ->
  run_loop p1 pay1 = Some (Ok (st1, ex1)) ->
  exists pay2 st2 ex2,
    scheduled_payment libm_pow p2 = Ok pay2
    /\ run_loop p2 pay2 = Some (Ok (st2, ex2))
    /\ st_month st2 <= st_month st1
    /\ (st_total_interest st2 <=? st_total_interest st1)%float = true.
Proof.
  pose proof huge_pos as Hh.
  intros HP Hrate Hn He1 Hle HPfin Hrpos Hrfin Hpay2 Hs1 Hl1.
  apply scheduled_payment_ok in Hs1 as Hs1'.
  destruct Hs1' as (Hinv & base & Hbase & ->).
  assert (Hr : monthly_rate p2 = monthly_rate p1)
    by (unfold monthly_rate; rewrite Hrate; reflexivity).
  assert (Hs2 : scheduled_payment libm_pow p2 = Ok (base + extra p2)%float).
  { unfold scheduled_payment, invalid. rewrite HP, Hrate, Hn, Hr.
    unfold invalid in Hinv. rewrite Hinv, Hbase. reflexivity. }
  pose proof (Hpay2 _ Hs2) as Hfin2.
  assert (Hpays : exists v1 v2,
            fval (base + extra p1) = Some v1 /\ fval (base + extra p2) = Some v2
            /\ - huge < v1 < huge /\ - huge < v2 < huge /\ v1 <= v2).
  { apply add_le_finite; [| |exact Hfin2].
    - rewrite leb_fval, extra_fval, <- leb_fval. exact He1.
    - rewrite leb_fval, !extra_fval, <- leb_fval. exact Hle. }
  destruct Hpays as (v1 & v2 & Hv1 & Hv2 & Hv1r & Hv2r & Hv12).
  apply finite_fval in Hrfin as (vr & Hvr & Hvrr).
  apply pos_fval in Hrpos as (vr' & Hvr' & Hvrpos).
  rewrite Hvr in Hvr'. apply some_inj in Hvr'. subst vr'.
  apply finite_fval in HPfin as (vP & HvP & HvPr).
  assert (HvPpos : 0 <= vP).
  { unfold invalid in Hinv.
    apply orb_false_iff in Hinv as [Hinv _].
    apply orb_false_iff in Hinv as [Hinv _].
    rewrite leb_fval, HvP, fval_zero in Hinv. apply Z.leb_gt in Hinv. lia. }
  assert (Hstart : ahead (initial_state (LoanInput.principal p1))
                         (initial_state (LoanInput.principal p1))).
  { split; [reflexivity|]. exists vP, 0, vP, 0.
    assert (Ht : tracked (initial_state (LoanInput.principal p1)) vP 0).
    { unfold tracked, initial_state. cbn [st_balance st_total_interest].
      rewrite fval_zero. repeat split; (assumption || lia). }
    split; [exact Ht|]. split; [exact Ht | lia]. }
  unfold run_loop in Hl1.
  destruct (while_loop_ahead (monthly_rate p1)
              (LoanInput.term_months p1 + 600) vr Hvr ltac:(lia)
              (base + extra p1)%float (base + extra p2)%float v1 v2
              Hv1 Hv2 Hv1r Hv2r Hv12 loop_fuel _ _ _ _ Hstart Hl1)
    as (st2 & ex2 & Hl2 & Hmonths & Hint).
  exists (base + extra p2)%float, st2, ex2.
  split; [exact Hs2|]. split; [|split; assumption].
  unfold run_loop. rewrite Hr, Hn, HP. exact Hl2.
Qed.

(** X8: take two inputs that differ only in [extra_payment], the second
    paying at least as much extra as the first, with a finite principal,
    a positive finite monthly rate and a finite scheduled payment.  If
    [calculate_loan] returns a result for the first input, it returns
    one for the second, and the [total_interest] it reports, rounded to
    cents, is no larger. *)
Theorem extra_payment_saves_interest
    (libm_pow : float -> float -> float) (p1 p2 : LoanInput.t)
    (res1 : LoanResult.t) :
  LoanInput.principal p2 = LoanInput.principal p1 ->
  LoanInput.annual_rate p2 = LoanInput.annual_rate p1 ->
  LoanInput.term_months p2 = LoanInput.term_months p1 ->
  (0 <=? LoanInput.extra_payment p1)%float = true ->
  (LoanInput.extra_payment p1 <=? LoanInput.extra_payment p2)%float = true ->
  finite (LoanInput.principal p1) = true ->
  (0 <? monthly_rate p1)%float = true ->
  finite (monthly_rate p1) = true ->
  (forall pay2, scheduled_payment libm_pow p2 = Ok pay2 ->
                finite pay2 = true) ->
  calculate_loan libm_pow p1 = Some (Ok res1) ->
  exists res2,
    calculate_loan libm_pow p2 = Some (Ok res2)
    /\ (LoanResult.total_interest res2
        <=? LoanResult.total_interest res1)%float = true.
Proof.
  intros HP Hrate Hn He1 Hle HPfin Hrpos Hrfin Hpay2 Hres1.
  apply calculate_loan_ok in Hres1 as (pay1 & st1 & ex1 & Hs1 & Hl1 & ->).
  destruct (larger_extra_loops libm_pow p1 p2 pay1 st1 ex1 HP Hrate Hn He1 Hle
              HPfin Hrpos Hrfin Hpay2 Hs1 Hl1)
    as (pay2 & st2 & ex2 & Hs2 & Hl2 & _ & Hint).
  exists (build_result p2 pay2 st2). split.
  - apply calculate_loan_ok. exists pay2, st2, ex2. repeat split; assumption.
  - unfold build_result. cbn [LoanResult.total_interest].
    apply round_le. exact Hint.
Qed.

Lemma extra_payment_saves_interest_witness :
  exists res1 res2,
    Reference.calculate_loan (Reference.standard_loan_with 0) = Some (Ok res1)
    /\ Reference.calculate_loan (Reference.standard_loan_with 100)
       = Some (Ok res2)
    /\ (LoanResult.total_interest res2
        <=? LoanResult.total_interest res1)%float = true.
Proof.
  destruct (observe_ok _ _ _ standard_loan_observed) as (res1 & Hres1 & _).
  destruct (extra_payment_saves_interest Libm.pow
              (Reference.standard_loan_with 0)
              (Reference.standard_loan_with 100) res1)
    as (res2 & Hres2 & Hint);
    try reflexivity.
  - intros pay2 H. vm_compute in H. apply ok_inj in H. subst pay2.
    reflexivity.
  - exact Hres1.
  - exists res1, res2. repeat split; assumption.
Defined.

(** ** No negative amortization *)

(** With a non-negative rate, a finite non-negative balance bears a
    non-negative interest. *)
Lemma interest_nonneg r b vr vb :
  fval r = Some vr -> 0 <= vr < huge -> fval b = Some vb -> 0 <= vb < huge ->
  exists vi, fval (interest_component r b) = Some vi /\ 0 <= vi.
Proof.
  intros Hr Rr Hb Rb. pose proof huge_pos as Hh. unfold interest_component.
  rewrite (mul_fval b r vb vr Hb Hr) by lia.
  eexists. split; [reflexivity|]. apply round_product_sign. nia.
Qed.

(** The principal component of a month that passes the guard is not
    negative. *)
Lemma principal_nonneg r payment b vr vp vb :
  fval r = Some vr -> 0 <= vr < huge ->
  fval payment = Some vp -> - huge < vp < huge -> (vr = 0 -> 0 <= vp) ->
  fval b = Some vb -> 0 <= vb < huge ->
  guard_fires r payment b = false ->
  exists v, fval (principal_component r payment b) = Some v /\ 0 <= v.
Proof.
  intros Hr Rr Hp Rp Hzero Hb Rb Hg. pose proof huge_pos as Hh.
  destruct (Z.eq_dec vr 0) as [-> | Hne].
  - exists vp. split; [|apply Hzero; reflexivity].
    assert (Hr0 : (r =? 0)%float = true)
      by (rewrite eqb_fval, Hr, fval_zero; reflexivity).
    unfold principal_component.
    rewrite sub_fval, Hp, (zero_rate_interest r b vb Hr0 Hb Rb).
    unfold ext_sub. change (- 0) with 0.
    rewrite ext_add_finite by lia. rewrite Z.add_0_r.
    rewrite (fval_fixed _ _ Hp). reflexivity.
  - exists (principal_val vr vp vb). split.
    + apply (principal_fval r payment b vr vp vb); (assumption || lia).
    + apply (guard_val r payment b vr vp vb) in Hg as [_ Hpos];
        (assumption || lia).
Qed.

Lemma round_not_negative x v :
  fval x = Some v -> 0 <= v -> (Py.round x 2 <? 0)%float = false.
Proof.
  intros Hx Hv. rewrite ltb_fval, (round_fval x v Hx), fval_zero.
  apply Z.ltb_ge. apply round2_val_sign. exact Hv.
Qed.

(** X13: for a validated input with finite principal, rate and scheduled
    payment, no entry of a returned schedule records a negative
    interest or a negative principal. *)
Theorem no_negative_amortization
    (libm_pow : float -> float -> float) (payload : LoanInput.t)
    (res : LoanResult.t) :
  LoanInput.valid payload ->
  finite (LoanInput.principal payload) = true ->
  finite (LoanInput.annual_rate payload) = true ->
  (forall payment, scheduled_payment libm_pow payload = Ok payment ->
                   finite payment = true) ->
  calculate_loan libm_pow payload = Some (Ok res) ->
  Forall (fun e => (ScheduleItem.interest e <? 0)%float = false
                   /\ (ScheduleItem.principal e <? 0)%float = false)
         (LoanResult.schedule res).
Proof.
  intros Hvalid HPfin Hratefin Hpay H. pose proof huge_pos as Hh.
  apply calculate_loan_ok in H as (payment & st & ex & Hs & Hl & ->).
  pose proof Hvalid as (HP & Hrate & Hn & Hextra).
  destruct (monthly_rate_value payload Hrate Hratefin) as (vr & Hvr & Rvr).
  pose proof (Hpay _ Hs) as Hpayfin.
  apply finite_fval in Hpayfin as (vp & Hvp & Rvp).
  assert (Hzero : vr = 0 -> 0 <= vp).
  { intros ->.
    assert (Hr0 : (monthly_rate payload =? 0)%float = true)
      by (rewrite eqb_fval, Hvr, fval_zero; reflexivity).
    destruct (zero_rate_payment _ _ _ Hvalid Hr0 HPfin Hs) as (vp' & Hvp' & R).
    rewrite Hvp in Hvp'. apply some_inj in Hvp'. subst vp'. lia. }
  apply run_loop_result in Hl.
  set (Inv := fun s : loop_state =>
                (exists vb, fval (st_balance s) = Some vb /\ 0 <= vb < huge)
                /\ Forall (fun e => (ScheduleItem.interest e <? 0)%float = false
                                    /\ (ScheduleItem.principal e <? 0)%float
                                       = false)
                          (st_schedule s)).
  assert (H0 : Inv (initial_state (LoanInput.principal payload))).
  { apply finite_fval in HPfin as (vP & HvP & HvPr).
    apply pos_fval in HP as (vP' & HvP' & HvPpos).
    rewrite HvP in HvP'. apply some_inj in HvP'. subst vP'.
    split; [exists vP; split; [exact HvP | lia] | constructor]. }
  apply (loop_invariant Inv _ _ _ _ _ _ H0) in Hl.
  - unfold build_result. cbn [LoanResult.schedule]. exact (proj2 Hl).
  - intros s s' ((vb & Hb & Rb) & Hall) Hpass.
    apply pass_appends in Hpass as (_ & Hg & Hb' & Hs').
    destruct (month_keeps_balance _ _ _ vr vp vb Hvr Rvr Hvp Rvp Hzero Hb Rb Hg)
      as (vb' & Hvb' & Rvb').
    rewrite <- Hb' in Hvb'.
    split; [exists vb'; split; [exact Hvb' | lia]|].
    rewrite Hs'. apply Forall_app. split; [exact Hall|].
    constructor; [|constructor].
    destruct (interest_nonneg _ _ vr vb Hvr Rvr Hb Rb) as (vi & Hvi & Rvi).
    destruct (principal_nonneg _ _ _ vr vp vb Hvr Rvr Hvp Rvp Hzero Hb Rb Hg)
      as (vpc & Hvpc & Rvpc).
    unfold entry, figures.
    destruct (st_balance s
              <? principal_component (monthly_rate payload) payment
                   (st_balance s))%float;
      cbn [ScheduleItem.interest ScheduleItem.principal mf_interest
           mf_principal]; split;
      first [ apply (round_not_negative _ vi Hvi Rvi)
            | apply (round_not_negative _ vb Hb); lia
            | apply (round_not_negative _ vpc Hvpc Rvpc) ].
Qed.

Lemma no_negative_amortization_witness :
  exists res,
    Reference.calculate_loan Reference.standard_loan = Some (Ok res)
    /\ Forall (fun e => (ScheduleItem.interest e <? 0)%float = false
                        /\ (ScheduleItem.principal e <? 0)%float = false)
              (LoanResult.schedule res).
Proof.
  destruct (observe_ok _ _ _ standard_loan_observed) as (res & Hres & _).
  exists res. split; [exact Hres|].
  refine (no_negative_amortization Libm.pow _ res _ _ _ _ Hres).
  - repeat split.
  - reflexivity.
  - reflexivity.
  - intros payment Hs. vm_compute in Hs. apply ok_inj in Hs. subst payment.
    reflexivity.
Defined.

(** ** Regular payments *)

(** X16: for a validated input with finite principal, rate and scheduled
    payment, every entry of a returned schedule except the last records
    the result's [monthly_payment]: only the final payment can be
    clamped. *)
Theorem regular_payments
    (libm_pow : float -> float -> float) (payload : LoanInput.t)
    (res : LoanResult.t) :
  LoanInput.valid payload ->
  finite (LoanInput.principal payload) = true ->
  finite (LoanInput.annual_rate payload) = true ->
  (forall payment, scheduled_payment libm_pow payload = Ok payment ->
                   finite payment = true) ->
  calculate_loan libm_pow payload = Some (Ok res) ->
  forall before final,
    LoanResult.schedule res = before ++ [final] ->
    Forall (fun e => ScheduleItem.payment e = LoanResult.monthly_payment res)
           before.
Proof.
  intros Hvalid HPfin Hratefin Hpay H. pose proof huge_pos as Hh.
  apply calculate_loan_ok in H as (payment & st & ex & Hs & Hl & ->).
  pose proof Hvalid as (HP & Hrate & Hn & Hextra).
  destruct (monthly_rate_value payload Hrate Hratefin) as (vr & Hvr & Rvr).
  pose proof (Hpay _ Hs) as Hpayfin.
  apply finite_fval in Hpayfin as (vp & Hvp & Rvp).
  assert (Hzero : vr = 0 -> 0 <= vp).
  { intros ->.
    assert (Hr0 : (monthly_rate payload =? 0)%float = true)
      by (rewrite eqb_fval, Hvr, fval_zero; reflexivity).
    destruct (zero_rate_payment _ _ _ Hvalid Hr0 HPfin Hs) as (vp' & Hvp' & R).
    rewrite Hvp in Hvp'. apply some_inj in Hvp'. subst vp'. lia. }
  apply run_loop_result in Hl.
  set (regular := fun e => ScheduleItem.payment e = Py.round payment 2).
  set (Inv := fun s : loop_state =>
                (exists vb, fval (st_balance s) = Some vb /\ 0 <= vb < huge)
                /\ forall before final,
                     st_schedule s = before ++ [final] ->
                     Forall regular before
                     /\ (regular final \/ balance_open s = false)).
  assert (H0 : Inv (initial_state (LoanInput.principal payload))).
  { apply finite_fval in HPfin as (vP & HvP & HvPr).
    apply pos_fval in HP as (vP' & HvP' & HvPpos).
    rewrite HvP in HvP'. apply some_inj in HvP'. subst vP'.
    split; [exists vP; split; [exact HvP | lia]|].
    intros before final E. cbn in E. destruct before; discriminate. }
  apply (loop_invariant Inv _ _ _ _ _ _ H0) in Hl.
  - destruct Hl as [_ Hall]. unfold build_result.
    cbn [LoanResult.schedule LoanResult.monthly_payment].
    intros before final Hsplit. exact (proj1 (Hall _ _ Hsplit)).
  - intros s s' ((vb & Hb & Rb) & Hall) Hpass.
    pose proof Hpass as [Hcont _]. apply continues_inv in Hcont as [Hopen _].
    apply pass_appends in Hpass as (_ & Hg & Hb' & Hs').
    destruct (month_keeps_balance _ _ _ vr vp vb Hvr Rvr Hvp Rvp Hzero Hb Rb Hg)
      as (vb' & Hvb' & Rvb').
    rewrite <- Hb' in Hvb'.
    split; [exists vb'; split; [exact Hvb' | lia]|].
    intros before final Hsplit. rewrite Hs' in Hsplit.
    apply app_inj_tail in Hsplit as [<- <-]. split.
    + destruct (st_schedule s) as [|x l] eqn:Es using rev_ind;
        [constructor|]. clear IHl.
      destruct (Hall _ _ eq_refl) as [Hbefore [Hlast | Hclosed]].
      * apply Forall_app. split; [exact Hbefore|].
        constructor; [exact Hlast | constructor].
      * rewrite Hopen in Hclosed. discriminate.
    + unfold regular, entry. cbn [ScheduleItem.payment].
      unfold balance_open. rewrite Hb'. unfold figures.
      destruct (st_balance s
                <? principal_component (monthly_rate payload) payment
                     (st_balance s))%float;
        cbn [mf_payment_actual mf_balance]; [right | left; reflexivity].
      rewrite ltb_fval, sub_fval, Hb. unfold ext_sub.
      rewrite ext_add_finite by lia.
      replace (vb + - vb) with 0 by lia. change (round_scaled 0) with 0.
      destruct (fval 0.005) as [c|] eqn:Hc; [|reflexivity].
      vm_compute in Hc. apply some_inj in Hc. subst c. reflexivity.
Qed.

Lemma regular_payments_witness :
  exists res,
    Reference.calculate_loan Reference.standard_loan = Some (Ok res)
    /\ forall before final,
         LoanResult.schedule res = before ++ [final] ->
         Forall (fun e => ScheduleItem.payment e
                          = LoanResult.monthly_payment res) before.
Proof.
  destruct (observe_ok _ _ _ standard_loan_observed) as (res & Hres & _).
  exists res. split; [exact Hres|].
  refine (regular_payments Libm.pow _ res _ _ _ _ Hres).
  - repeat split.
  - reflexivity.
  - reflexivity.
  - intros payment Hs. vm_compute in Hs. apply ok_inj in Hs. subst payment.
    reflexivity.
Defined.

(** ** A balance left over *)

Lemma nan_round x : fval x = None -> fval (Py.round x 2) = None.
Proof.
  unfold fval, Py.round.
  destruct (Prim2SF x) as [s|s| |s m e] eqn:E; try discriminate.
  intros _. rewrite E. reflexivity.
Qed.

(** A recorded balance above one cent was above the threshold before
    rounding. *)
Lemma recorded_balance_open b :
  (0.01 <? Py.round (Py.max b 0) 2)%float = true ->
  (0.005 <? b)%float = true.
Proof.
  intros H. destruct (0.005 <? b)%float eqn:Hopen; [reflexivity|].
  exfalso. rewrite ltb_fval in Hopen.
  destruct (fval 0.005) as [c|] eqn:Hc; [|vm_compute in Hc; discriminate Hc].
  destruct (fval b) as [v|] eqn:Hb.
  - assert (Hclosed : (b <=? 0.005)%float = true).
    { rewrite leb_fval, Hb, Hc. apply Z.ltb_ge in Hopen. apply Z.leb_le.
      exact Hopen. }
    rewrite ltb_fval in H.
    destruct (closed_balance_recorded b Hclosed) as [E | E];
      rewrite eqb_fval in E;
      destruct (fval (Py.round (Py.max b 0) 2)) as [w|]; try discriminate E;
      destruct (fval 0.01) as [c1|] eqn:Hc1; try discriminate H.
    + rewrite fval_zero in E. apply Z.eqb_eq in E. subst w.
      vm_compute in Hc1. apply some_inj in Hc1. subst c1. discriminate H.
    + apply some_inj in Hc1. apply Z.eqb_eq in E. subst w.
      rewrite Z.ltb_irrefl in H. discriminate.
  - assert (Hmax : Py.max b 0 = b).
    { unfold Py.max. rewrite ltb_fval, Hb. reflexivity. }
    rewrite Hmax, ltb_fval, (nan_round b Hb) in H.
    destruct (fval 0.01); discriminate H.
Qed.

(** X17: when the last entry of a returned schedule records a balance
    above 0.01, the loop was stopped by one of its limits:
    [payoff_months] is [term_months + 600], or it is 3601. *)
Theorem balance_left_means_limit
    (libm_pow : float -> float -> float) (payload : LoanInput.t)
    (res : LoanResult.t) (before : list ScheduleItem.t)
    (final : ScheduleItem.t) :
  calculate_loan libm_pow payload = Some (Ok res) ->
  LoanResult.schedule res = before ++ [final] ->
  (0.01 <? ScheduleItem.balance final)%float = true ->
  LoanResult.payoff_months res = LoanInput.term_months payload + 600
  \/ LoanResult.payoff_months res = 3601.
Proof.
  intros H Hsplit Hleft.
  apply calculate_loan_ok in H as (payment & st & ex & Hs & Hl & ->).
  assert (Hn : 0 < LoanInput.term_months payload).
  { apply scheduled_payment_valid in Hs. unfold invalid in Hs.
    apply orb_false_iff in Hs as [Hs _]. apply orb_false_iff in Hs as [_ Hs].
    apply Z.leb_gt in Hs. exact Hs. }
  pose proof (run_loop_months _ _ _ _ Hn Hl) as (Hm & Hcap & _ & Hhard).
  pose proof (run_loop_entries _ _ _ _ Hl) as [_ Htr].
  unfold build_result in Hsplit |- *.
  cbn [LoanResult.schedule LoanResult.payoff_months] in Hsplit |- *.
  rewrite <- Hm.
  unfold schedule_tracks_balance, records_balance in Htr.
  rewrite Hsplit, rev_app_distr in Htr. cbn [rev app] in Htr.
  destruct Htr as [Hfinal _]. rewrite Hfinal in Hleft.
  apply recorded_balance_open in Hleft.
  apply run_loop_result in Hl.
  inversion Hl as [s Hr Ho | s Hr Ho Hc | s s' Hr Hp Hbrk |]; subst.
  - unfold balance_open in Ho. congruence.
  - left. unfold below_cap in Hc. apply Z.ltb_ge in Hc. lia.
  - right. apply (Hhard eq_refl).
Qed.

Lemma reference_calculate_loan payload :
  Reference.calculate_loan payload = calculate_loan Libm.pow payload.
Proof. reflexivity. Qed.

Lemma balance_left_means_limit_witness :
  exists res,
    Reference.calculate_loan Reference.long_term_loan = Some (Ok res)
    /\ (LoanResult.payoff_months res
        = LoanInput.term_months Reference.long_term_loan + 600
        \/ LoanResult.payoff_months res = 3601).
Proof.
  destruct (observe_ok _ _ _ long_term_loan_observed) as (res & Hres & Hobs).
  exists res. split; [exact Hres|].
  rewrite reference_calculate_loan in Hres.
  pose proof (payoff_months_length Libm.pow Reference.long_term_loan res Hres)
    as Hpay.
  destruct (exists_last (l := LoanResult.schedule res))
    as (before & final & Hsplit).
  { intros Hnil. rewrite Hnil in Hpay. injection Hobs as Hp _ _.
    rewrite Hp in Hpay. discriminate Hpay. }
  refine (balance_left_means_limit Libm.pow Reference.long_term_loan res
            before final Hres Hsplit _).
  injection Hobs as _ _ Hb. unfold Reference.last_entry in Hb.
  rewrite Hsplit, last_last in Hb. rewrite Hb. reflexivity.
Defined.

(** ** The total interest *)



(** * The status endpoints *)

Lemma truthy_iff o : truthy o = true <-> exists s, o = Some s /\ s <> ""%string.
Proof.
  split.
  - destruct o as [[|c s]|]; try discriminate.
    intros _. exists (String c s). split; [reflexivity | discriminate].
  - intros (s & -> & Hs). destruct s; [contradiction | reflexivity].
Qed.

(** X14: [test_database] reports [DATABASE_URL] and [DATABASE_NAME] as
    set exactly when the variable is present in the environment with a
    non-empty value; an absent or empty variable is reported as not
    set. *)
Theorem test_database_reports_environment (getenv : environ) :
  (dict_get (test_database getenv) "database_url" = Some (Str "✅ Set")
   <-> exists s, getenv "DATABASE_URL"%string = Some s /\ s <> ""%string)
  /\ (dict_get (test_database getenv) "database_name" = Some (Str "✅ Set")
      <-> exists s, getenv "DATABASE_NAME"%string = Some s /\ s <> ""%string)
  /\ (dict_get (test_database getenv) "database_url" = Some (Str "✅ Set")
      \/ dict_get (test_database getenv) "database_url"
         = Some (Str "❌ Not Set"))
  /\ (dict_get (test_database getenv) "database_name" = Some (Str "✅ Set")
      \/ dict_get (test_database getenv) "database_name"
         = Some (Str "❌ Not Set")).
Proof.
  rewrite <- !truthy_iff. unfold test_database.
  destruct (truthy (getenv "DATABASE_URL"%string));
    destruct (truthy (getenv "DATABASE_NAME"%string));
    cbn; repeat split; intros; try discriminate; try reflexivity;
    try (left; reflexivity); try (right; reflexivity).
Qed.

(** X15: whatever the environment, the response of [test_database] has
    the same six keys in the same order, and the four fields
    [backend], [database], [connection_status] and [collections] hold
    the values of the literal. *)
Theorem test_database_shape (getenv : environ) :
  map fst (test_database getenv)
  = [ "backend"; "database"; "database_url"; "database_name";
      "connection_status"; "collections" ]%string
  /\ dict_get (test_database getenv) "backend" = Some (Str "✅ Running")
  /\ dict_get (test_database getenv) "database"
     = Some (Str "❌ Not Used (no persistence for calculator)")
  /\ dict_get (test_database getenv) "connection_status"
     = Some (Str "No DB required for this app")
  /\ dict_get (test_database getenv) "collections" = Some (Items []).
Proof.
  unfold test_database.
  destruct (truthy (getenv "DATABASE_URL"%string));
    destruct (truthy (getenv "DATABASE_NAME"%string));
    repeat split; reflexivity.
Qed.
